(** * gocache: sharded TTL cache with an append-only command log

    A shallow embedding of the storage engine of the gocache service:

    - [fnv32] / [getShard]                 (biz: key hashing and sharding)
    - [Set_], [Get], [Delete]              (biz: GoCacheUsecase, foreground path)
    - [loadFromDisk], [NewGoCacheUsecase]  (biz: recovery by log replay)
    - [collectExpiredKeys], [cleanupMemory] (biz: expiration sweeper)
    - [TimeWheel_Add], [TimeWheel_run_tick] (biz: time wheel with timestamps)
    - [KeyOnlyWheel]                       (biz: time wheel holding keys only)
    - [CleanupAOF]                         (data: log compaction)
    - [NewCacheRepo], [writeLoop_step]     (data: the log file and its writer)
    - [SetString], [GetString]             (service: RPC adapter)

    Go maps are [gmap]s, the fixed array of shards and the slice of wheel
    slots are lists indexed with stdpp's lookup and insert, integers are [Z]
    (the 32-bit hash with its wrap-around written out), and the stateful
    methods live in a small state-and-panic monad over the record [World]. *)

From Stdlib Require Import ZArith Ascii String List Lia.
From stdpp Require Import base option list gmap strings fin_maps.

Open Scope string_scope.
Open Scope list_scope.
Open Scope Z_scope.

(** ** Values carried by a log record

    A command is a Go [[]interface{}].  The dynamic types that matter to the
    code are [string] and [int64]; every other registered gob type
    (maps, nested slices, durations, ...) is [VOther]. *)

Inductive value : Type :=
| VString (s : string)
| VInt64 (n : Z)
| VOther.

Definition command : Type := list value.

#[global] Instance value_eq_dec : EqDecision value.
Proof. solve_decision. Defined.

(** [command[0] == "SET"]: an interface value equals a string constant
    exactly when its dynamic type is string and the contents agree. *)
Definition iface_eq_string (v : value) (s : string) : bool :=
  match v with
  | VString s' => bool_decide (s' = s)
  | _ => false
  end.

(** ** FNV-1a, 32 bit (Go's hash/fnv, [New32a]) *)

Module fnv.

Definition offset32 : Z := 2166136261.
Definition prime32 : Z := 16777619.

(** Arithmetic on [uint32] wraps modulo 2^32. *)
Definition uint32 (z : Z) : Z := z mod 2 ^ 32.

Definition New32a : Z := offset32.

(** [func (s *sum32a) Write(data []byte)]:
    for each byte [c]: [hash ^= uint32(c); hash *= prime32]. *)
Definition Write (h : Z) (data : list Z) : Z :=
  fold_left (fun hash c => uint32 (Z.lxor hash c * prime32)) data h.

Definition Sum32 (h : Z) : Z := h.

End fnv.

(** [[]byte(key)]: a Go string is its byte sequence; so is a Rocq [string]. *)
Definition bytes (key : string) : list Z :=
  map (fun a => Z.of_N (N_of_ascii a)) (list_ascii_of_string key).

Definition numShards : Z := 32.

Definition fnv32 (key : string) : Z :=
  fnv.Sum32 (fnv.Write fnv.New32a (bytes key)).

(** [getShard] returns a pointer into [c.shards]; the model returns the
    index [hash % numShards]. *)
Definition getShard (key : string) : nat :=
  Z.to_nat (fnv32 key mod numShards).

(** The FNV-1a function as the specification words it: start from the
    offset basis; for every byte, xor then multiply by the FNV prime,
    keeping 32 bits. *)
Fixpoint fnv1a_32_from (h : Z) (bs : list Z) : Z :=
  match bs with
  | [] => h
  | b :: bs' => fnv1a_32_from ((Z.lxor h b * 16777619) mod 4294967296) bs'
  end.

Definition fnv1a_32 (bs : list Z) : Z := fnv1a_32_from 2166136261 bs.

(** ** Time

    A [time.Time] is the number of nanoseconds since the Unix epoch, a
    [time.Duration] a number of nanoseconds.  [Time.Add] and [Time.Unix] do
    not overflow on the instants and durations a running service meets, and
    [int] is 64 bits wide, so the sums below stay within range and no
    wrap-around is written out for them. *)

Definition Second : Z := 1000000000.

Definition Time_Add (t d : Z) : Z := t + d.

(** [t.Unix()]: whole seconds since the epoch (rounded down). *)
Definition Unix (t : Z) : Z := t / Second.

(** ** Data model *)

Record CacheItem : Type := mkCacheItem {
  Value : string;
  ExpiresAt : Z
}.

#[global] Instance CacheItem_eq_dec : EqDecision CacheItem.
Proof. solve_decision. Defined.

(** The time wheel of the current revision: each slot maps a key to the
    wheel's own copy of the expiry second. *)
Record TimeWheel : Type := mkTimeWheel {
  slots : list (gmap string Z);
  tick : Z;
  index : Z
}.

(** The [GoCacheUsecase] object together with the process clock.

    - [repo]: the commands handed to [CacheRepo.Write], oldest first (the
      writer queue is FIFO and the writer keeps that order on disk);
    - [shards]: the array [[numShards]struct{active; mu}], one map per shard;
    - [timeWheel]: the wheel owned by the cache;
    - [clock], [reads]: [clock n] is what the [n]-th call of [time.Now()]
      returns, [reads] counts the calls made so far. *)
Record World : Type := mkWorld {
  repo : list command;
  shards : list (gmap string CacheItem);
  timeWheel : TimeWheel;
  clock : nat -> Z;
  reads : nat
}.

Definition set_repo (r : list command) (w : World) : World :=
  mkWorld r (shards w) (timeWheel w) (clock w) (reads w).
Definition set_shards (s : list (gmap string CacheItem)) (w : World) : World :=
  mkWorld (repo w) s (timeWheel w) (clock w) (reads w).
Definition set_timeWheel (tw : TimeWheel) (w : World) : World :=
  mkWorld (repo w) (shards w) tw (clock w) (reads w).
Definition set_reads (n : nat) (w : World) : World :=
  mkWorld (repo w) (shards w) (timeWheel w) (clock w) n.

(** ** The monad: state passing, with Go panics

    A panic unwinds the call but does not undo the writes made before it,
    so [Panic] carries the state reached. *)

Inductive outcome (A : Type) : Type :=
| Done (a : A) (w : World)
| Panic (w : World).
Arguments Done {A} a w.
Arguments Panic {A} w.

Definition M (A : Type) : Type := World -> outcome A.

#[global] Instance M_ret : MRet M := fun A a w => Done a w.

#[global] Instance M_bind : MBind M := fun A B k m w =>
  match m w with
  | Done a w' => k a w'
  | Panic w' => Panic w'
  end.

Definition panic {A} : M A := fun w => Panic w.

Definition get_world : M World := fun w => Done w w.
Definition modify (f : World -> World) : M unit := fun w => Done tt (f w).

(** [for _, x := range xs { body }] *)
Fixpoint forM_ {A} (xs : list A) (body : A -> M unit) : M unit :=
  match xs with
  | [] => mret tt
  | x :: xs' => body x ;; forM_ xs' body
  end.

(** A range loop that grows a local variable [acc]. *)
Fixpoint foldM {A B} (body : B -> A -> M B) (xs : list A) (acc : B) : M B :=
  match xs with
  | [] => mret acc
  | x :: xs' => acc' ← body acc x; foldM body xs' acc'
  end.

(** [time.Now()] *)
Definition time_Now : M Z :=
  fun w => Done (clock w (reads w)) (set_reads (S (reads w)) w).

(** [c.repo.Write(ctx, command)]: enqueue for the writer. *)
Definition repo_Write (cmd : command) : M unit :=
  modify (fun w => set_repo (repo w ++ [cmd]) w).

(** [shard.active.Data], read and written through the pointer that
    [getShard] returned.  The array has [numShards] elements and the index
    is a remainder modulo [numShards], so the bounds check cannot fail on a
    well-formed state; the model panics where Go would. *)
Definition shard_Data (i : nat) : M (gmap string CacheItem) :=
  fun w => match shards w !! i with
           | Some data => Done data w
           | None => Panic w
           end.

Definition shard_store (i : nat) (data : gmap string CacheItem) : M unit :=
  modify (fun w => set_shards (<[i := data]> (shards w)) w).

(** Go's [error] results of the cache methods. *)
Inductive error : Type :=
| err_nil
| ErrKeyNotFound.

#[global] Instance error_eq_dec : EqDecision error.
Proof. solve_decision. Defined.

(** ** Time wheel (current revision, slots of type [map[string]int64]) *)

Definition NewTimeWheel (n : nat) (tick : Z) : TimeWheel :=
  mkTimeWheel (replicate n ∅) tick 0.

Definition set_slot (i : nat) (slot : gmap string Z) (tw : TimeWheel) : TimeWheel :=
  mkTimeWheel (<[i := slot]> (slots tw)) (tick tw) (index tw).

Definition set_index (i : Z) (tw : TimeWheel) : TimeWheel :=
  mkTimeWheel (slots tw) (tick tw) i.

(** [tw.slots[i]], with Go's bounds check. *)
Definition wheel_slot (i : Z) : M (gmap string Z) :=
  fun w => if i <? 0 then Panic w
           else match slots (timeWheel w) !! Z.to_nat i with
                | Some slot => Done slot w
                | None => Panic w
                end.

(** [TimeWheel.Add]:
      [slotIndex := (tw.index + int(expiration/tw.tick)) % len(tw.slots)]
      [tw.slots[slotIndex][key] = time.Now().Add(expiration).Unix()]
    Go's [/] and [%] truncate towards zero ([Z.quot], [Z.rem]) and panic
    on a zero divisor. *)
Definition TimeWheel_Add (key : string) (expiration : Z) : M unit :=
  w ← get_world;
  let tw := timeWheel w in
  let n := Z.of_nat (length (slots tw)) in
  if (tick tw =? 0) || (n =? 0) then panic
  else
    let slotIndex := Z.rem (index tw + Z.quot expiration (tick tw)) n in
    slot ← wheel_slot slotIndex;
    now ← time_Now;
    modify (fun w => set_timeWheel
      (set_slot (Z.to_nat slotIndex)
                (<[key := Unix (Time_Add now expiration)]> slot)
                (timeWheel w)) w).

(** ** Foreground operations of [GoCacheUsecase] *)

(** [GoCacheUsecase.Set] ([Set] is reserved in Rocq, hence the underscore). *)
Definition Set_ (key value : string) (ttl : Z) : M error :=
  let shard := getShard key in
  expiresAt ← (if 0 <? ttl
               then now ← time_Now; mret (Unix (Time_Add now ttl))
               else mret 0);
  let entry := mkCacheItem value expiresAt in
  data ← shard_Data shard;
  shard_store shard (<[key := entry]> data);;
  TimeWheel_Add key ttl;;
  repo_Write [VString "SET"; VString key; VString value; VInt64 expiresAt];;
  mret err_nil.

Definition Get (key : string) : M (string * error) :=
  let shard := getShard key in
  data ← shard_Data shard;
  match data !! key with
  | None => mret ("", ErrKeyNotFound)
  | Some entry =>
      let expiry := ExpiresAt entry in
      now ← time_Now;
      if expiry <? Unix now
      then shard_store shard (delete key data);; mret ("", ErrKeyNotFound)
      else mret (Value entry, err_nil)
  end.

Definition Delete (key : string) : M error :=
  let shard := getShard key in
  data ← shard_Data shard;
  shard_store shard (delete key data);;
  repo_Write [VString "DEL"; VString key];;
  mret err_nil.

(** One firing of the ticker in [TimeWheel.run]:
      [tw.index = (tw.index + 1) % len(tw.slots)]
      [now := time.Now().Unix()]
      [for key, expiresAt := range tw.slots[tw.index] {]
      [  if now > expiresAt { delete(tw.slots[tw.index], key); tw.cache.Delete(ctx, key) } }]
    Go visits the entries of a map in an unspecified order; the model takes
    the order of [map_to_list]. *)
Definition TimeWheel_run_tick : M unit :=
  w ← get_world;
  let n := Z.of_nat (length (slots (timeWheel w))) in
  if n =? 0 then panic
  else
    let i := Z.rem (index (timeWheel w) + 1) n in
    modify (fun w => set_timeWheel (set_index i (timeWheel w)) w);;
    t ← time_Now;
    let now := Unix t in
    slot ← wheel_slot i;
    forM_ (map_to_list slot) (fun '(key, expiresAt) =>
      if expiresAt <? now
      then
        cur ← wheel_slot i;
        modify (fun w => set_timeWheel
                  (set_slot (Z.to_nat i) (delete key cur) (timeWheel w)) w);;
        Delete key;;
        mret tt
      else mret tt).

(** ** The log file as the gob decoder sees it

    The file is a concatenation of encoded commands.  [Encoded c] is a
    stretch of bytes that [decoder.Decode] turns into the command [c];
    [Undecodable] is a stretch on which it fails with an error other than
    [io.EOF] (garbage, or a record cut short: [io.ErrUnexpectedEOF]).  The
    end of the list is the end of the file, where [Decode] returns [io.EOF]. *)

Inductive gob_item : Type :=
| Encoded (c : command)
| Undecodable.

#[global] Instance gob_item_eq_dec : EqDecision gob_item.
Proof. solve_decision. Defined.

Definition gob_stream : Type := list gob_item.

(** The commands a reader obtains before end of file or the first error. *)
Fixpoint decodable (file : gob_stream) : list command :=
  match file with
  | Encoded c :: rest => c :: decodable rest
  | _ => []
  end.

(** ** Recovery *)

(** The body of the replay loop in [loadFromDisk], for one decoded command.
    The three type assertions of the SET branch come before the test on
    [expiresAt]; a failed assertion panics. *)
Definition loadFromDisk_apply (cmd : command) : M unit :=
  match cmd with
  | [c0; c1; c2; c3] =>
      if iface_eq_string c0 "SET" then
        match c1, c2, c3 with
        | VString key, VString value, VInt64 expiresAt =>
            live ← (if expiresAt =? 0 then mret true
                    else now ← time_Now; mret (Unix now <? expiresAt));
            if (live : bool) then
              let shard := getShard key in
              data ← shard_Data shard;
              shard_store shard (<[key := mkCacheItem value expiresAt]> data);;
              TimeWheel_Add key 0
            else mret tt
        | _, _, _ => panic
        end
      else mret tt
  | [c0; c1] =>
      if iface_eq_string c0 "DEL" then
        match c1 with
        | VString key =>
            let shard := getShard key in
            data ← shard_Data shard;
            shard_store shard (delete key data)
        | _ => panic
        end
      else mret tt
  | _ => mret tt
  end.

(** The loop [for { err = decoder.Decode(&command); ... }]:
    [io.EOF] breaks out of it, any other error returns from the function,
    a decoded command is applied and the loop goes on. *)
Fixpoint loadFromDisk_loop (file : gob_stream) : M unit :=
  match file with
  | [] => mret tt
  | Undecodable :: _ => mret tt
  | Encoded cmd :: rest => loadFromDisk_apply cmd;; loadFromDisk_loop rest
  end.

(** [loadFromDisk].  [None] is a log that cannot be opened: [file.Seek]
    fails on the nil handle and the function returns at once. *)
Definition loadFromDisk (file : option gob_stream) : M unit :=
  match file with
  | None => mret tt
  | Some f => loadFromDisk_loop f
  end.

(** The state built by [NewGoCacheUsecase] before recovery runs. *)
Definition fresh (clk : nat -> Z) : World :=
  mkWorld [] (replicate (Z.to_nat numShards) ∅) (NewTimeWheel 60 Second) clk 0.

Definition NewGoCacheUsecase (clk : nat -> Z) (file : option gob_stream)
  : outcome unit :=
  loadFromDisk file (fresh clk).

(** ** Expiration sweeper *)

(** [collectExpiredKeys]: shards in index order, the entries of each shard
    in map order; the clock is read only for entries with [ExpiresAt > 0]. *)
Definition collectExpiredKeys : M (list string) :=
  w ← get_world;
  foldM (fun (expiredKeys : list string) data =>
           foldM (fun (expiredKeys : list string) '(key, entry) =>
                    if 0 <? ExpiresAt entry then
                      now ← time_Now;
                      if ExpiresAt entry <? Unix now
                      then mret (expiredKeys ++ [key])
                      else mret expiredKeys
                    else mret expiredKeys)
                 (map_to_list data) expiredKeys)
        (shards w) [].

Definition cleanupMemory (expiredKeys : list string) : M unit :=
  forM_ expiredKeys (fun key =>
    let shard := getShard key in
    data ← shard_Data shard;
    shard_store shard (delete key data)).

(** One firing of the ticker in [startExpirationChecker].  The result is
    the list of keys handed to [CleanupAOF] ([[]] when it is not called). *)
Definition startExpirationChecker_tick : M (list string) :=
  expiredKeys ← collectExpiredKeys;
  match expiredKeys with
  | [] => mret []
  | _ => cleanupMemory expiredKeys;; mret expiredKeys
  end.

(** ** Log compaction ([cacheRepo.CleanupAOF])

    [CleanupAOF] returns the error of every call into the file system that
    fails.  These are the calls, in the order of the code. *)
Inductive fs_call : Type :=
| CreateTemp     (* os.CreateTemp("", "cache-aof-temp-*.tmp") *)
| SeekStart      (* r.file.Seek(0, 0) *)
| EncodeTemp     (* encoder.Encode(command), into the temporary file *)
| CloseLog       (* r.file.Close() *)
| RemoveLog      (* os.Remove(r.file.Name()) *)
| RenameTemp     (* os.Rename(tempFile.Name(), defaultDataFile) *)
| ReopenLog.     (* os.OpenFile(r.file.Name(), ...) *)

#[global] Instance fs_call_eq_dec : EqDecision fs_call.
Proof. solve_decision. Defined.

(** The file system as one call of [CleanupAOF] finds it: [fs c = true]
    when the call [c] succeeds.  The temporary file is created in
    [os.TempDir()] (the first argument of [os.CreateTemp] is empty), not
    beside the log; where that directory lies on another file system than
    the working directory, [RenameTemp] fails. *)
Definition file_system : Type := fs_call → bool.

Inductive cleanup_result : Type :=
| CleanupDone      (* returned nil: the temporary file replaced the log *)
| CleanupError     (* returned the decoder's error *)
| CleanupPanic     (* a type assertion failed *)
| CleanupIOError (c : fs_call).   (* returned the error of the call [c] *)

#[global] Instance cleanup_result_eq_dec : EqDecision cleanup_result.
Proof. solve_decision. Defined.

(** The file [cache.aof] and the handle [r.file] through which
    [CleanupAOF] reads it. *)
Inductive log_state : Type :=
| LogOpen (contents : gob_stream)     (* the file exists, [r.file] is open on it *)
| LogClosed (contents : gob_stream)   (* the file exists, [r.file] is closed or nil *)
| LogGone.                            (* the file was removed, [r.file] is closed *)

#[global] Instance log_state_eq_dec : EqDecision log_state.
Proof. solve_decision. Defined.

(** [expiredKeySet := make(map[string]bool); for ... { expiredKeySet[key] = true }] *)
Definition mkExpiredKeySet (expiredKeys : list string) : gmap string bool :=
  foldl (fun set key => <[key := true]> set) ∅ expiredKeys.

(** [expiredKeySet[key]]: a missing key reads as [false]. *)
Definition expired (set : gmap string bool) (key : string) : bool :=
  default false (set !! key).

(** The copy loop.  [temp] is what has been encoded into the temporary
    file so far, [encode_ok] whether [encoder.Encode] succeeds.  A command
    that is neither a 4-element SET nor a 2-element DEL matches neither
    branch and is not copied. *)
Fixpoint CleanupAOF_loop (encode_ok : bool) (set : gmap string bool)
    (file : gob_stream) (temp : gob_stream) : cleanup_result * gob_stream :=
  match file with
  | [] => (CleanupDone, temp)
  | Undecodable :: _ => (CleanupError, temp)
  | Encoded cmd :: rest =>
      match cmd with
      | [c0; c1; _; _] =>
          if iface_eq_string c0 "SET" then
            match c1 with
            | VString key =>
                if negb (expired set key)
                then if encode_ok
                     then CleanupAOF_loop encode_ok set rest (temp ++ [Encoded cmd])
                     else (CleanupIOError EncodeTemp, temp)
                else CleanupAOF_loop encode_ok set rest temp
            | _ => (CleanupPanic, temp)
            end
          else CleanupAOF_loop encode_ok set rest temp
      | [c0; c1] =>
          if iface_eq_string c0 "DEL" then
            match c1 with
            | VString key =>
                if negb (expired set key)
                then if encode_ok
                     then CleanupAOF_loop encode_ok set rest (temp ++ [Encoded cmd])
                     else (CleanupIOError EncodeTemp, temp)
                else CleanupAOF_loop encode_ok set rest temp
            | _ => (CleanupPanic, temp)
            end
          else CleanupAOF_loop encode_ok set rest temp
      | _ => CleanupAOF_loop encode_ok set rest temp
      end
  end.

(** The second half of [CleanupAOF], once the copy loop has reached the end
    of the log: close the log, remove it, give its name to the temporary
    file, open it again.  The log is removed before the temporary file is
    renamed, so a rename that fails leaves no log at all.  [Close] gives up
    the descriptor also when it reports an error. *)
Definition CleanupAOF_swap (fs : file_system) (file temp : gob_stream)
  : cleanup_result * log_state :=
  if negb (fs CloseLog) then (CleanupIOError CloseLog, LogClosed file)
  else if negb (fs RemoveLog) then (CleanupIOError RemoveLog, LogClosed file)
  else if negb (fs RenameTemp) then (CleanupIOError RenameTemp, LogGone)
  else if negb (fs ReopenLog) then (CleanupIOError ReopenLog, LogClosed temp)
  else (CleanupDone, LogOpen temp).

(** [CleanupAOF]: the result, and the log afterwards.  An error or a panic
    before the swap leaves the log as it was; [Seek] fails on a handle that
    is closed or nil. *)
Definition CleanupAOF (fs : file_system) (expiredKeys : list string)
    (log : log_state) : cleanup_result * log_state :=
  if negb (fs CreateTemp) then (CleanupIOError CreateTemp, log)
  else
    match log with
    | LogOpen file =>
        if negb (fs SeekStart) then (CleanupIOError SeekStart, log)
        else
          match CleanupAOF_loop (fs EncodeTemp) (mkExpiredKeySet expiredKeys) file [] with
          | (CleanupDone, temp) => CleanupAOF_swap fs file temp
          | (r, _) => (r, log)
          end
    | _ => (CleanupIOError SeekStart, log)
    end.

(** ** Time wheel, earlier revision (slots of type [map[string]struct{}])

    This revision keeps only the keys; its [run] deletes every key of the
    slot it reaches. *)

Module KeyOnlyWheel.

Record TimeWheel : Type := mkTimeWheel {
  slots : list (gset string);
  tick : Z;
  index : Z
}.

Definition NewTimeWheel (n : nat) (tick : Z) : TimeWheel :=
  mkTimeWheel (replicate n ∅) tick 0.

(** [Add]; [None] is a panic (zero divisor or index out of range). *)
Definition Add (key : string) (expiration : Z) (tw : TimeWheel)
  : option TimeWheel :=
  let n := Z.of_nat (length (slots tw)) in
  if (tick tw =? 0) || (n =? 0) then None
  else
    let slotIndex := Z.rem (index tw + Z.quot expiration (tick tw)) n in
    if slotIndex <? 0 then None
    else
      slot ← slots tw !! Z.to_nat slotIndex;
      Some (mkTimeWheel (<[Z.to_nat slotIndex := {[key]} ∪ slot]> (slots tw))
                        (tick tw) (index tw)).

(** One firing of the ticker in [run]: advance, then for every key of the
    slot: remove it from the slot and call [tw.cache.Delete].  Go visits
    the keys of a map in an order it does not specify: [range] gives the
    order taken. *)
Definition run_tick (range : gset string → list string) (tw : TimeWheel)
  : M TimeWheel :=
  let n := Z.of_nat (length (slots tw)) in
  if n =? 0 then panic
  else
    let i := Z.rem (index tw + 1) n in
    if i <? 0 then panic
    else
      match slots tw !! Z.to_nat i with
      | None => panic
      | Some slot =>
          forM_ (range slot) (fun key => Delete key;; mret tt);;
          mret (mkTimeWheel (<[Z.to_nat i := ∅]> (slots tw)) (tick tw) i)
      end.

(** [n] firings in a row. *)
Fixpoint run_ticks (range : gset string → list string) (n : nat)
    (tw : TimeWheel) : M TimeWheel :=
  match n with
  | O => mret tw
  | S n' => tw' ← run_tick range tw; run_ticks range n' tw'
  end.

End KeyOnlyWheel.

(** ** Specification vocabulary *)

(** The state an outcome leaves behind, whether it returned or panicked. *)
Definition world_of {A} (o : outcome A) : World :=
  match o with
  | Done _ w => w
  | Panic w => w
  end.

(** The entry stored for [key], looked up in the shard the key hashes to. *)
Definition entry_of (w : World) (key : string) : option CacheItem :=
  shards w !! getShard key ≫= (.!! key).

(** The wheel-local timestamp stored for [key] in slot [i]. *)
Definition wheel_entry (w : World) (i : Z) (key : string) : option Z :=
  slots (timeWheel w) !! Z.to_nat i ≫= (.!! key).

(** The shape of a state built by [NewGoCacheUsecase]: [numShards] shards,
    a wheel of 60 slots ticking once a second, the index within the wheel. *)
Record wf (w : World) : Prop := mk_wf {
  wf_shards : length (shards w) = Z.to_nat numShards;
  wf_slots : length (slots (timeWheel w)) = 60%nat;
  wf_tick : tick (timeWheel w) = Second;
  wf_index : 0 <= index (timeWheel w) < 60
}.

(** Every key sits in the shard it hashes to. *)
Definition keys_at_home (w : World) : Prop :=
  ∀ (i : nat) (data : gmap string CacheItem) (k : string),
    shards w !! i = Some data → is_Some (data !! k) → i = getShard k.

(** The records the foreground path writes. *)
Definition SET_record (key value : string) (expiresAt : Z) : command :=
  [VString "SET"; VString key; VString value; VInt64 expiresAt].

Definition DEL_record (key : string) : command :=
  [VString "DEL"; VString key].

(** The key a record is about, as both readers of the log tell records
    apart: a 4-element tuple tagged SET or a 2-element tuple tagged DEL,
    with a string in second position. *)
Definition record_key (cmd : command) : option string :=
  match cmd with
  | [c0; VString key; _; _] => if iface_eq_string c0 "SET" then Some key else None
  | [c0; VString key] => if iface_eq_string c0 "DEL" then Some key else None
  | _ => None
  end.

(** A command that is neither a 4-element SET nor a 2-element DEL. *)
Definition unrecognized (cmd : command) : Prop :=
  match cmd with
  | [c0; _; _; _] => iface_eq_string c0 "SET" = false
  | [c0; _] => iface_eq_string c0 "DEL" = false
  | _ => True
  end.

(** A command as [Set_] or [Delete] writes it. *)
Definition written (cmd : command) : Prop :=
  (∃ key value expiresAt, cmd = SET_record key value expiresAt)
  ∨ (∃ key, cmd = DEL_record key).

(** The records of a log that are about [key], oldest first, and the last
    of them. *)
Definition records_of (key : string) (log : list command) : list command :=
  filter (λ cmd, record_key cmd = Some key) log.

Definition last_record (key : string) (log : list command) : option command :=
  last (records_of key log).

(** A client of the cache, or one of its background tasks firing once. *)
Inductive call : Type :=
| CallSet (key value : string) (ttl : Z)
| CallGet (key : string)
| CallDelete (key : string)
| WheelTick
| ExpirationTick.

Definition perform (c : call) : M unit :=
  match c with
  | CallSet key value ttl => Set_ key value ttl;; mret tt
  | CallGet key => Get key;; mret tt
  | CallDelete key => Delete key;; mret tt
  | WheelTick => TimeWheel_run_tick
  | ExpirationTick => startExpirationChecker_tick;; mret tt
  end.

(** A process lifetime: construction with recovery from [file], then the
    calls in the order in which they take effect. *)
Definition lifetime (clk : nat -> Z) (file : option gob_stream)
    (calls : list call) : outcome unit :=
  (loadFromDisk file;; forM_ calls perform) (fresh clk).

(** Replay stops at [item]: a log with [item] in it is recovered as if it
    ended just before [item]. *)
Definition stops_replay (item : gob_item) : Prop :=
  ∀ clk pre rest,
    NewGoCacheUsecase clk (Some (pre ++ item :: rest))
    = NewGoCacheUsecase clk (Some pre).

(** Whether compaction copies a decoded command: it is a SET or DEL record
    and its key is not marked expired. *)
Definition kept (set : gmap string bool) (cmd : command) : bool :=
  match record_key cmd with
  | Some key => negb (expired set key)
  | None => false
  end.

(** What the copy loop of [CleanupAOF] does with one decoded command. *)
Inductive copy_step : Type := Copy | Skip | Fail.

Definition classify (set : gmap string bool) (cmd : command) : copy_step :=
  match cmd with
  | [c0; c1; _; _] =>
      if iface_eq_string c0 "SET" then
        match c1 with
        | VString key => if negb (expired set key) then Copy else Skip
        | _ => Fail
        end
      else Skip
  | [c0; c1] =>
      if iface_eq_string c0 "DEL" then
        match c1 with
        | VString key => if negb (expired set key) then Copy else Skip
        | _ => Fail
        end
      else Skip
  | _ => Skip
  end.

(** An entry that a reader at instant [t] must still see. *)
Definition live_at (t : Z) (e : CacheItem) : Prop :=
  ExpiresAt e = 0 ∨ Unix t < ExpiresAt e.

(** Two clocks for worked examples: one that stands still at second 1000,
    one that advances by a second with every reading. *)
Definition frozen : nat → Z := λ _, 1000 * Second.
Definition ticking : nat → Z := λ n, (1000 + Z.of_nat n) * Second.

(** [n] firings of the wheel's ticker in a row. *)
Definition wheel_ticks (n : nat) : M unit :=
  forM_ (replicate n tt) (λ _, TimeWheel_run_tick).

(** The scenario of the time wheel's design note: a key is stored with a
    TTL of 5 s and at once overwritten with a TTL of 100 s, which leaves a
    stale wheel entry in slot 5; then the ticker fires four times. *)
Definition overwritten_ttl : M unit :=
  Set_ "a" "1" (5 * Second);;
  Set_ "a" "2" (100 * Second);;
  wheel_ticks 4.

(** A key stored without expiration, then 59 firings of the ticker. *)
Definition stored_without_ttl : M unit :=
  Set_ "a" "1" 0;;
  wheel_ticks 59.

(** What recovery guarantees about the entries it stores: under the clock
    [clk], each one either never expires or was still in the future at one
    of the clock readings made so far. *)
Definition replayed_live (clk : nat → Z) (w : World) : Prop :=
  clock w = clk ∧
  ∀ (i : nat) (data : gmap string CacheItem) (k : string) (e : CacheItem),
    shards w !! i = Some data → data !! k = Some e →
    ExpiresAt e = 0 ∨ ∃ n, (n < reads w)%nat ∧ Unix (clk n) < ExpiresAt e.

(** [m] keeps the property [I] of the state, whether it returns or panics. *)
Definition preserves {A} (I : World → Prop) (m : M A) : Prop :=
  ∀ w, I w → I (world_of (m w)).

(** ** RPC adapter ([service.CacheService]) *)

(** Arithmetic on [int64] wraps modulo 2^64 into [-2^63, 2^63). *)
Definition int64 (z : Z) : Z := (z + 2 ^ 63) mod 2 ^ 64 - 2 ^ 63.

(** [SetString]: [ttl := time.Duration(req.TtlSeconds) * time.Second], then
    [s.uc.Set(ctx, req.Key, req.Value, ttl)].  The request type comes from
    the protobuf schema; its integer field is converted to the 64-bit
    [time.Duration] before the multiplication. *)
Definition SetString (Key Value_ : string) (TtlSeconds : Z) : M error :=
  let ttl := int64 (int64 TtlSeconds * Second) in
  Set_ Key Value_ ttl.

(** [GetString]: a nil response with the error of [Get], or the value. *)
Definition GetString (Key : string) : M (option string * error) :=
  r ← Get Key;
  match snd r with
  | err_nil => mret (Some (fst r), err_nil)
  | err => mret (None, err)
  end.

Definition DelString (Key : string) : M error := Delete Key.

(** A record of a key that compaction was told has expired. *)
Definition record_expired (expiredKeys : list string) (cmd : command) : Prop :=
  match record_key cmd with
  | Some key => key ∈ expiredKeys
  | None => False
  end.

#[global] Instance record_expired_dec expiredKeys cmd :
  Decision (record_expired expiredKeys cmd).
Proof. unfold record_expired. destruct (record_key cmd); apply _. Defined.

(** A call whose TTL, if it has one, is not negative. *)
Definition nonneg_ttl (c : call) : Prop :=
  match c with
  | CallSet _ _ ttl => 0 <= ttl
  | _ => True
  end.

(** [m] returns, without a panic, from every well-formed state, and the
    state it leaves is well formed. *)
Definition returns {A} (m : M A) : Prop :=
  ∀ w, wf w → ∃ a w', m w = Done a w' ∧ wf w'.

(** The log of [w'] is the log of [w] followed by written records. *)
Definition log_grows (w w' : World) : Prop :=
  ∃ cmds, Forall written cmds ∧ repo w' = repo w ++ cmds.

(** [m] only ever appends written records to the log. *)
Definition appends_written {A} (m : M A) : Prop :=
  ∀ w, log_grows w (world_of (m w)).

(** What replaying one written record of a key, at second [now], does to
    the entry of that key: a SET record that is still live replaces it, an
    expired SET record leaves it, a DEL record removes it. *)
Definition replay_record (now : Z) (o : option CacheItem) (cmd : command)
  : option CacheItem :=
  match cmd with
  | [_; _; VString value; VInt64 exp] =>
      if (exp =? 0) || (now <? exp) then Some (mkCacheItem value exp) else o
  | _ => None
  end.

(** The entry that the records of one key, oldest first, add up to. *)
Definition replay_key (now : Z) (records : list command) : option CacheItem :=
  foldl (replay_record now) None records.

(** A clock that stays within the second [now]. *)
Definition steady (clk : nat → Z) (now : Z) : Prop :=
  ∀ n, Unix (clk n) = now.

(** The calls whose effect the log records in full: [Delete], and [Set]
    without expiration or with a TTL of a second or more. *)
Definition durable_call (c : call) : Prop :=
  match c with
  | CallSet _ _ ttl => ttl = 0 ∨ Second <= ttl
  | CallDelete _ => True
  | _ => False
  end.

(** An entry that has expired by second [now]: it has an expiry second,
    and that second is past. *)
Definition expired_at (now : Z) (e : CacheItem) : Prop :=
  0 < ExpiresAt e ∧ ExpiresAt e < now.

#[global] Instance expired_at_dec now e : Decision (expired_at now e).
Proof. unfold expired_at. apply _. Defined.

(** From the state [w] on, every reading of the clock falls in second [now]. *)
Definition steady_from (w : World) (now : Z) : Prop :=
  ∀ n, (reads w <= n)%nat → Unix (clock w n) = now.

(** Two states that differ at most in the number of clock readings made. *)
Definition same_but_reads (w w' : World) : Prop :=
  repo w' = repo w ∧ shards w' = shards w ∧ timeWheel w' = timeWheel w
  ∧ clock w' = clock w ∧ (reads w <= reads w')%nat.

(** A clock that shows second 1000 for its first two readings and second
    2000 from then on. *)
Definition later : nat → Z :=
  λ n, if (n <? 2)%nat then 1000 * Second else 2000 * Second.

(** The keys of a wheel slot, listed with their timestamps, that a tick at
    second [now] fires: those whose timestamp is past. *)
Definition fired_keys (now : Z) (l : list (string * Z)) : list string :=
  (filter (λ p, p.2 < now) l).*1.

(** What recovery leaves in the wheel: the index still at 0, nothing in
    the slots after the first, and every key that has an entry registered
    in slot 0 with the second of one of the clock readings made so far. *)
Definition registered_at_start (w : World) : Prop :=
  index (timeWheel w) = 0
  ∧ (∀ j k, 1 <= j → wheel_entry w j k = None)
  ∧ (∀ k e, entry_of w k = Some e →
       ∃ n, (n < reads w)%nat ∧ wheel_entry w 0 k = Some (Unix (clock w n))).

(** ** The log file and its writer ([data.cacheRepo], [data.AsyncAOFWriter])

    The [*os.File]s that the repository opens on [cache.aof] are numbered
    in the order of opening.  One of them is open at a time, the one in
    [r.file]: [CleanupAOF] closes it before it opens the next.  The
    writer's goroutine builds its gob encoder once, on the file the writer
    was created with; a write through a closed file fails, [writeLoop]
    logs the error and goes on with the next command.

    - [log]: the file [cache.aof], and whether [r.file] is open on it;
    - [file]: the number of the [*os.File] that [r.file] holds, or held
      last;
    - [queue]: [r.aofWriter.queue], oldest command first;
    - [writer_file]: [r.aofWriter.file], used for [Sync];
    - [encoder_file]: the file the encoder of [writeLoop] writes to;
    - [encoder_started]: whether that encoder has written a message. *)
Record cacheRepo : Type := mkCacheRepo {
  log : log_state;
  file : nat;
  queue : list command;
  writer_file : nat;
  encoder_file : nat;
  encoder_started : bool
}.

(** What a process finds under the name [cache.aof]. *)
Definition on_disk (l : log_state) : option gob_stream :=
  match l with
  | LogOpen contents | LogClosed contents => Some contents
  | LogGone => None
  end.

(** [NewCacheRepo], with [NewAsyncAOFWriter] and the start of [writeLoop].
    The file is opened with [O_APPEND|O_CREATE]: what is there stays, and a
    missing file is created empty.  The error of [os.OpenFile] is dropped
    by the code; the model takes the call to succeed. *)
Definition NewCacheRepo (disk : option gob_stream) : cacheRepo :=
  mkCacheRepo (LogOpen (default [] disk)) 0 [] 0 0 false.

(** [GetFile]: a fresh read-only handle on [cache.aof], read from the
    start; [None] when there is no such file. *)
Definition GetFile (r : cacheRepo) : option gob_stream := on_disk (log r).

(** [AsyncAOFWriter.Write]: [aw.queue <- command] on a channel of capacity
    1000.  [None] stands for a sender that has to wait. *)
Definition aofWriter_Write (cmd : command) (r : cacheRepo) : option cacheRepo :=
  if (length (queue r) <? 1000)%nat
  then Some (mkCacheRepo (log r) (file r) (queue r ++ [cmd])
                         (writer_file r) (encoder_file r) (encoder_started r))
  else None.

(** What [encoder.Encode(command)] appends to a file holding [contents].
    Every command is a [[]interface{}]; the first message of an encoder
    is the definition of that type, and the command follows.  On an empty
    file a decoder reads the two as the command.  After earlier contents
    the decoder, which has read the definition that the encoder of those
    contents sent, rejects the second definition ("gob: duplicate type
    received"): that message is [Undecodable]. *)
Definition gob_message (started : bool) (contents : gob_stream) (cmd : command)
  : gob_stream :=
  if started then [Encoded cmd]
  else match contents with
       | [] => [Encoded cmd]
       | _ :: _ => [Undecodable; Encoded cmd]
       end.

(** One turn of the loop in [writeLoop]: take the oldest command, encode it
    to the encoder's file, sync.  The write goes through when the encoder's
    file is the one that is open; otherwise [Encode] returns an error, which
    is logged, and the command is gone.  With an empty queue the loop
    waits. *)
Definition writeLoop_step (r : cacheRepo) : cacheRepo :=
  match queue r with
  | [] => r
  | cmd :: rest =>
      match log r with
      | LogOpen contents =>
          if (encoder_file r =? file r)%nat
          then mkCacheRepo
                 (LogOpen (contents ++ gob_message (encoder_started r) contents cmd))
                 (file r) rest (writer_file r) (encoder_file r) true
          else mkCacheRepo (log r) (file r) rest (writer_file r) (encoder_file r)
                           (encoder_started r)
      | _ => mkCacheRepo (log r) (file r) rest (writer_file r) (encoder_file r)
                         (encoder_started r)
      end
  end.

(** [writeLoop] run until the queue is empty. *)
Definition writeLoop_drain (r : cacheRepo) : cacheRepo :=
  Nat.iter (length (queue r)) writeLoop_step r.

(** [cacheRepo.CleanupAOF] with its handles: on success [r.file] is a file
    opened anew and [r.aofWriter.file] is set to it; the encoder of
    [writeLoop] stays on the file it was built on. *)
Definition repo_CleanupAOF (fs : file_system) (expiredKeys : list string)
    (r : cacheRepo) : cleanup_result * cacheRepo :=
  match CleanupAOF fs expiredKeys (log r) with
  | (CleanupDone, l) =>
      (CleanupDone,
       mkCacheRepo l (S (file r)) (queue r) (S (file r)) (encoder_file r)
                   (encoder_started r))
  | (res, l) =>
      (res,
       mkCacheRepo l (file r) (queue r) (writer_file r) (encoder_file r)
                   (encoder_started r))
  end.

(** What the writer side of the repository can be asked to do.  Each is
    taken as one step: a turn of the writer does not fall inside a call of
    [CleanupAOF]. *)
Inductive repo_op : Type :=
| OpWrite (cmd : command)
| OpStep
| OpCleanup (fs : file_system) (expiredKeys : list string).

(** A sender that would have to wait is not scheduled: the state stays. *)
Definition repo_perform (op : repo_op) (r : cacheRepo) : cacheRepo :=
  match op with
  | OpWrite cmd => default r (aofWriter_Write cmd r)
  | OpStep => writeLoop_step r
  | OpCleanup fs expiredKeys => snd (repo_CleanupAOF fs expiredKeys r)
  end.

Definition repo_run (ops : list repo_op) (r : cacheRepo) : cacheRepo :=
  foldl (λ r op, repo_perform op r) r ops.

(** The commands accepted by [Write] in a run, in order. *)
Fixpoint accepted (ops : list repo_op) (r : cacheRepo) : list command :=
  match ops with
  | [] => []
  | op :: ops' =>
      match op with
      | OpWrite cmd =>
          match aofWriter_Write cmd r with
          | Some r' => cmd :: accepted ops' r'
          | None => accepted ops' r
          end
      | _ => accepted ops' (repo_perform op r)
      end
  end.

Definition is_cleanup (op : repo_op) : Prop :=
  match op with
  | OpCleanup _ _ => True
  | _ => False
  end.

(** The start of the next process: [NewCacheRepo] on what the last one
    left under the name [cache.aof], then [NewGoCacheUsecase], whose
    [loadFromDisk] reads the file that [GetFile] opens. *)
Definition restart (clk : nat → Z) (l : log_state) : outcome unit :=
  NewGoCacheUsecase clk (GetFile (NewCacheRepo (on_disk l))).

(** A file system on which every call succeeds, and one on which every
    call but the rename of the temporary file does. *)
Definition healthy : file_system := λ _, true.

Definition cross_device : file_system :=
  λ c, match c with RenameTemp => false | _ => true end.

(** What an encoder that writes [cmds], one after the other, appends to a
    file holding [contents]. *)
Definition session (started : bool) (contents : gob_stream) (cmds : list command)
  : gob_stream :=
  match cmds with
  | [] => []
  | cmd :: rest => gob_message started contents cmd ++ map Encoded rest
  end.

(** A log whose readable part holds written records only. *)
Definition sound (contents : gob_stream) : Prop :=
  Forall written (decodable contents).

(** A clock that does not go backwards. *)
Definition monotone (clk : nat → Z) : Prop :=
  ∀ n m, (n <= m)%nat → clk n <= clk m.

(** An order of visiting the keys of a map. *)
Definition map_order (range : gset string → list string) : Prop :=
  ∀ slot, range slot ≡ₚ elements slot.

(** ** Basic facts *)

Arguments getShard : simpl never.
Arguments fnv32 : simpl never.
Arguments Unix : simpl never.

(** Published FNV-1a test vectors. *)
Example fnv32_empty : fnv32 "" = 0x811c9dc5.
Proof. reflexivity. Qed.

Example fnv32_a : fnv32 "a" = 0xe40c292c.
Proof. reflexivity. Qed.

Example fnv32_foobar : fnv32 "foobar" = 0xbf9cf968.
Proof. reflexivity. Qed.

Lemma getShard_lt key : (getShard key < 32)%nat.
Proof.
  unfold getShard, numShards.
  assert (0 <= fnv32 key mod 32 < 32) by (apply Z.mod_pos_bound; lia).
  lia.
Qed.

Lemma fnv_Write_fnv1a h bs : fnv.Write h bs = fnv1a_32_from h bs.
Proof.
  revert h. induction bs as [|b bs IH]; intros h; [reflexivity|].
  simpl. rewrite <- IH. reflexivity.
Qed.

Lemma wf_fresh clk : wf (fresh clk).
Proof. split; simpl; try reflexivity. unfold NewTimeWheel; simpl; lia. Qed.

Lemma wf_shard_Some w key :
  wf w → ∃ data, shards w !! getShard key = Some data.
Proof.
  intros Hwf. apply lookup_lt_is_Some_2.
  rewrite (wf_shards _ Hwf). pose proof (getShard_lt key).
  unfold numShards. lia.
Qed.

Lemma entry_of_store_eq w key data e :
  wf w →
  entry_of (set_shards (<[getShard key := <[key := e]> data]> (shards w)) w) key
  = Some e.
Proof.
  intros Hwf. unfold entry_of; simpl.
  rewrite list_lookup_insert_eq; simpl.
  - apply lookup_insert_eq.
  - rewrite (wf_shards _ Hwf). pose proof (getShard_lt key). unfold numShards; lia.
Qed.

(** Writing the shard of [key] at [key] only leaves every other key alone. *)
Lemma entry_of_store_ne (sh : list (gmap string CacheItem)) key k data data' :
  sh !! getShard key = Some data →
  data' !! k = data !! k →
  <[getShard key := data']> sh !! getShard k ≫= (.!! k)
  = sh !! getShard k ≫= (.!! k).
Proof.
  intros Hsh Hk.
  destruct (decide (getShard key = getShard k)) as [Heq|Hne].
  - rewrite <- Heq. rewrite list_lookup_insert_eq by (eapply lookup_lt_Some; eauto).
    rewrite Hsh. simpl. exact Hk.
  - rewrite list_lookup_insert_ne by done. reflexivity.
Qed.

(** ** Running the operations on a well-formed state *)

Ltac unfold_M :=
  unfold repo_Write, shard_Data, shard_store, wheel_slot;
  unfold mbind, M_bind, mret, M_ret, get_world, modify, panic, time_Now, Time_Add.

(** [TimeWheel.Add] with a non-negative duration: the slot is
    [(index + ttl / tick) mod 60], and the clock is read once. *)
Lemma TimeWheel_Add_run w key ttl :
  wf w → 0 <= ttl →
  ∃ slot,
    slots (timeWheel w) !! Z.to_nat ((index (timeWheel w) + ttl / Second) mod 60)
      = Some slot ∧
    TimeWheel_Add key ttl w =
    Done tt (set_timeWheel
               (set_slot (Z.to_nat ((index (timeWheel w) + ttl / Second) mod 60))
                  (<[key := Unix (clock w (reads w) + ttl)]> slot) (timeWheel w))
               (set_reads (S (reads w)) w)).
Proof.
  intros Hwf Httl.
  pose proof (wf_index _ Hwf) as Hidx.
  assert (Hq : 0 <= ttl / Second) by (apply Z.div_pos; unfold Second; lia).
  set (s := (index (timeWheel w) + ttl / Second) mod 60).
  assert (Hs : 0 <= s < 60) by (apply Z.mod_pos_bound; lia).
  destruct (lookup_lt_is_Some_2 (slots (timeWheel w)) (Z.to_nat s)) as [slot Hslot].
  { rewrite (wf_slots _ Hwf). lia. }
  exists slot. split; [exact Hslot|].
  unfold TimeWheel_Add. unfold_M.
  rewrite (wf_tick _ Hwf), (wf_slots _ Hwf).
  rewrite Z.quot_div_nonneg by (unfold Second; lia).
  rewrite Z.rem_mod_nonneg by lia.
  change (Z.of_nat 60) with 60. fold s.
  change ((Second =? 0) || (60 =? 0)) with false. cbv iota beta.
  destruct (Z.ltb_spec s 0) as [?|_]; [lia|].
  rewrite Hslot. reflexivity.
Qed.

Lemma wf_set_repo r w : wf w → wf (set_repo r w).
Proof. intros [? ? ? ?]; split; assumption. Qed.

Lemma wf_set_reads n w : wf w → wf (set_reads n w).
Proof. intros [? ? ? ?]; split; assumption. Qed.

Lemma wf_set_shards i data w : wf w → wf (set_shards (<[i := data]> (shards w)) w).
Proof.
  intros [? ? ? ?]; split; try assumption.
  simpl. rewrite length_insert. assumption.
Qed.

Lemma wf_set_slot i slot w :
  wf w → wf (set_timeWheel (set_slot i slot (timeWheel w)) w).
Proof.
  intros [? ? ? ?]; split; try assumption.
  simpl. rewrite length_insert. assumption.
Qed.

Lemma wf_set_index i w :
  wf w → 0 <= i < 60 → wf (set_timeWheel (set_index i (timeWheel w)) w).
Proof. intros [? ? ? ?] ?; split; assumption. Qed.

(** [Set_] up to the call of [TimeWheel.Add], from a state in which the
    entry's expiry has been computed. *)
Lemma Set_run w key value ttl :
  wf w → 0 <= ttl →
  let expiresAt := if 0 <? ttl then Unix (clock w (reads w) + ttl) else 0 in
  let r := if 0 <? ttl then S (reads w) else reads w in
  let s := (index (timeWheel w) + ttl / Second) mod 60 in
  ∃ data slot,
    shards w !! getShard key = Some data ∧
    slots (timeWheel w) !! Z.to_nat s = Some slot ∧
    Set_ key value ttl w =
    Done err_nil
      (mkWorld
         (repo w ++ [SET_record key value expiresAt])
         (<[getShard key := <[key := mkCacheItem value expiresAt]> data]> (shards w))
         (set_slot (Z.to_nat s) (<[key := Unix (clock w r + ttl)]> slot) (timeWheel w))
         (clock w)
         (S r)).
Proof.
  intros Hwf Httl expiresAt r s.
  destruct (wf_shard_Some w key Hwf) as [data Hdata].
  set (w0 := if 0 <? ttl then set_reads (S (reads w)) w else w).
  assert (Hwf0 : wf w0) by (unfold w0; destruct (0 <? ttl); auto using wf_set_reads).
  set (w1 := set_shards
               (<[getShard key := <[key := mkCacheItem value expiresAt]> data]> (shards w0))
               w0).
  assert (Hwf1 : wf w1) by apply wf_set_shards, Hwf0.
  destruct (TimeWheel_Add_run w1 key ttl Hwf1 Httl) as (slot & Hslot & Hadd).
  exists data, slot. split; [exact Hdata|].
  split; [unfold w1, w0 in Hslot; destruct (0 <? ttl); exact Hslot|].
  unfold Set_. unfold_M. fold (TimeWheel_Add key ttl).
  subst expiresAt r w1 w0.
  destruct (0 <? ttl); cbn [shards set_reads] in Hadd |- *; rewrite Hdata;
    cbv beta iota; cbn [shards set_reads]; rewrite Hadd; reflexivity.
Qed.

Lemma Delete_run w key data :
  shards w !! getShard key = Some data →
  Delete key w =
  Done err_nil
    (set_repo (repo w ++ [DEL_record key])
       (set_shards (<[getShard key := delete key data]> (shards w)) w)).
Proof.
  intros Hdata. unfold Delete. unfold_M. rewrite Hdata. reflexivity.
Qed.

(** ** Invariants of the state

    A property of the state that survives each elementary update survives
    every operation, whether the operation returns or panics. *)

Section Preservation.

Variable I : World → Prop.

Hypothesis I_repo : ∀ r w, I w → I (set_repo r w).
Hypothesis I_reads : ∀ w, I w → I (set_reads (S (reads w)) w).
Hypothesis I_slot : ∀ i slot w,
  I w → I (set_timeWheel (set_slot i slot (timeWheel w)) w).
Hypothesis I_index : ∀ w,
  I w →
  I (set_timeWheel
       (set_index (Z.rem (index (timeWheel w) + 1)
                         (Z.of_nat (length (slots (timeWheel w)))))
                  (timeWheel w)) w).
Hypothesis I_insert : ∀ w key e data,
  I w → shards w !! getShard key = Some data →
  I (set_shards (<[getShard key := <[key := e]> data]> (shards w)) w).
Hypothesis I_delete : ∀ w i key data,
  I w → shards w !! i = Some data →
  I (set_shards (<[i := delete key data]> (shards w)) w).

Lemma preserves_ret {A} (a : A) : preserves I (mret a).
Proof. intros w Hw; exact Hw. Qed.

Lemma preserves_panic {A} : preserves I (@panic A).
Proof. intros w Hw; exact Hw. Qed.

Lemma preserves_bind {A B} (m : M A) (k : A → M B) :
  preserves I m → (∀ a, preserves I (k a)) → preserves I (m ≫= k).
Proof.
  intros Hm Hk w Hw. specialize (Hm w Hw).
  unfold mbind, M_bind. destruct (m w) as [a w'|w']; simpl in *.
  - apply Hk, Hm.
  - exact Hm.
Qed.

Lemma preserves_forM_ {A} (xs : list A) (body : A → M unit) :
  (∀ x, preserves I (body x)) → preserves I (forM_ xs body).
Proof.
  intros Hbody. induction xs as [|x xs IH]; simpl.
  - apply preserves_ret.
  - apply preserves_bind; auto.
Qed.

Lemma preserves_foldM {A B} (body : B → A → M B) (xs : list A) (acc : B) :
  (∀ b x, preserves I (body b x)) → preserves I (foldM body xs acc).
Proof.
  intros Hbody. revert acc. induction xs as [|x xs IH]; intros acc; simpl.
  - apply preserves_ret.
  - apply preserves_bind; auto.
Qed.

Lemma preserves_time_Now : preserves I time_Now.
Proof. intros w Hw. simpl. apply I_reads, Hw. Qed.

Lemma preserves_repo_Write cmd : preserves I (repo_Write cmd).
Proof. intros w Hw. simpl. apply I_repo, Hw. Qed.

Lemma preserves_get_world : preserves I get_world.
Proof. intros w Hw; exact Hw. Qed.

Lemma preserves_wheel_slot i : preserves I (wheel_slot i).
Proof.
  intros w Hw. unfold wheel_slot.
  destruct (i <? 0); [exact Hw|].
  destruct (slots (timeWheel w) !! Z.to_nat i); exact Hw.
Qed.

Lemma preserves_set_slot i slot :
  preserves I (modify (λ w, set_timeWheel (set_slot i slot (timeWheel w)) w)).
Proof. intros w Hw. simpl. apply I_slot, Hw. Qed.

(** [shard.active.Data[key] = e], then the rest of the method. *)
Lemma preserves_shard_insert {A} key e (k : M A) :
  preserves I k →
  preserves I (data ← shard_Data (getShard key);
               shard_store (getShard key) (<[key := e]> data);; k).
Proof.
  intros Hk w Hw. unfold_M.
  destruct (shards w !! getShard key) as [data|] eqn:Hdata; [|exact Hw].
  apply Hk, I_insert; assumption.
Qed.

(** [delete(shard.active.Data, key)], then the rest of the method. *)
Lemma preserves_shard_delete {A} i key (k : M A) :
  preserves I k →
  preserves I (data ← shard_Data i; shard_store i (delete key data);; k).
Proof.
  intros Hk w Hw. unfold_M.
  destruct (shards w !! i) as [data|] eqn:Hdata; [|exact Hw].
  apply Hk, I_delete; assumption.
Qed.

Lemma preserves_TimeWheel_Add key expiration :
  preserves I (TimeWheel_Add key expiration).
Proof.
  unfold TimeWheel_Add.
  apply preserves_bind; [apply preserves_get_world|]. intros w.
  destruct (_ || _); [apply preserves_panic|].
  apply preserves_bind; [apply preserves_wheel_slot|]. intros slot.
  apply preserves_bind; [apply preserves_time_Now|]. intros now.
  apply preserves_set_slot.
Qed.

Lemma preserves_Set_ key value ttl : preserves I (Set_ key value ttl).
Proof.
  unfold Set_.
  apply preserves_bind.
  { destruct (0 <? ttl); [|apply preserves_ret].
    apply preserves_bind; [apply preserves_time_Now|].
    intros; apply preserves_ret. }
  intros expiresAt. apply preserves_shard_insert.
  apply preserves_bind; [apply preserves_TimeWheel_Add|]. intros _.
  apply preserves_bind; [apply preserves_repo_Write|]. intros _.
  apply preserves_ret.
Qed.

Lemma preserves_Delete key : preserves I (Delete key).
Proof.
  unfold Delete. apply preserves_shard_delete.
  apply preserves_bind; [apply preserves_repo_Write|]. intros _.
  apply preserves_ret.
Qed.

Lemma preserves_Get key : preserves I (Get key).
Proof.
  intros w Hw. unfold Get. unfold_M.
  destruct (shards w !! getShard key) as [data|] eqn:Hdata; [|exact Hw].
  destruct (data !! key) as [entry|]; [|exact Hw].
  destruct (ExpiresAt entry <? _); simpl.
  - apply (I_delete (set_reads (S (reads w)) w)); [apply I_reads, Hw|exact Hdata].
  - apply I_reads, Hw.
Qed.

(** The part of a wheel tick that follows the update of [index]. *)
Lemma preserves_fire_slot (i : Z) :
  preserves I
    (t ← time_Now;
     slot ← wheel_slot i;
     forM_ (map_to_list slot) (fun '(key, expiresAt) =>
       if expiresAt <? Unix t
       then
         cur ← wheel_slot i;
         modify (fun w => set_timeWheel
                   (set_slot (Z.to_nat i) (delete key cur) (timeWheel w)) w);;
         Delete key;;
         mret tt
       else mret tt)).
Proof.
  apply preserves_bind; [apply preserves_time_Now|]. intros t.
  apply preserves_bind; [apply preserves_wheel_slot|]. intros slot.
  apply preserves_forM_. intros [key expiresAt].
  destruct (expiresAt <? Unix t); [|apply preserves_ret].
  apply preserves_bind; [apply preserves_wheel_slot|]. intros cur.
  apply preserves_bind; [apply preserves_set_slot|]. intros _.
  apply preserves_bind; [apply preserves_Delete|]. intros _.
  apply preserves_ret.
Qed.

Lemma preserves_TimeWheel_run_tick : preserves I TimeWheel_run_tick.
Proof.
  intros w Hw. unfold TimeWheel_run_tick.
  unfold mbind at 1, M_bind at 1, get_world.
  destruct (_ =? 0); [exact Hw|].
  unfold mbind at 1, M_bind at 1, modify at 1.
  apply preserves_fire_slot, I_index, Hw.
Qed.

Lemma preserves_loadFromDisk_apply cmd : preserves I (loadFromDisk_apply cmd).
Proof.
  unfold loadFromDisk_apply.
  destruct cmd as [|c0 [|c1 [|c2 [|c3 [|c4 cmd]]]]]; try apply preserves_ret.
  - destruct (iface_eq_string c0 "DEL"); [|apply preserves_ret].
    destruct c1 as [key| |]; try apply preserves_panic.
    intros w Hw.
    pose proof (preserves_shard_delete (getShard key) key (mret tt)
                  (preserves_ret tt) w Hw) as H.
    revert H. unfold_M.
    destruct (shards w !! getShard key); exact id.
  - destruct (iface_eq_string c0 "SET"); [|apply preserves_ret].
    destruct c1 as [key| |], c2 as [value| |], c3 as [|expiresAt|];
      try apply preserves_panic.
    apply preserves_bind.
    { destruct (expiresAt =? 0); [apply preserves_ret|].
      apply preserves_bind; [apply preserves_time_Now|].
      intros; apply preserves_ret. }
    intros [|]; [|apply preserves_ret].
    apply preserves_shard_insert, preserves_TimeWheel_Add.
Qed.

Lemma preserves_loadFromDisk_loop file : preserves I (loadFromDisk_loop file).
Proof.
  induction file as [|[cmd|] rest IH]; simpl; try apply preserves_ret.
  apply preserves_bind; [apply preserves_loadFromDisk_apply|]. intros _; exact IH.
Qed.

Lemma preserves_loadFromDisk file : preserves I (loadFromDisk file).
Proof.
  destruct file; [apply preserves_loadFromDisk_loop|apply preserves_ret].
Qed.

Lemma preserves_collectExpiredKeys : preserves I collectExpiredKeys.
Proof.
  unfold collectExpiredKeys.
  apply preserves_bind; [apply preserves_get_world|]. intros w.
  apply preserves_foldM. intros acc data.
  apply preserves_foldM. intros acc' [key entry].
  destruct (0 <? ExpiresAt entry); [|apply preserves_ret].
  apply preserves_bind; [apply preserves_time_Now|]. intros now.
  destruct (_ <? _); apply preserves_ret.
Qed.

Lemma preserves_cleanupMemory keys : preserves I (cleanupMemory keys).
Proof.
  unfold cleanupMemory. apply preserves_forM_. intros key w Hw.
  pose proof (preserves_shard_delete (getShard key) key (mret tt)
                (preserves_ret tt) w Hw) as H.
  revert H. unfold_M.
  destruct (shards w !! getShard key); exact id.
Qed.

Lemma preserves_startExpirationChecker_tick :
  preserves I startExpirationChecker_tick.
Proof.
  unfold startExpirationChecker_tick.
  apply preserves_bind; [apply preserves_collectExpiredKeys|].
  intros [|key keys]; [apply preserves_ret|].
  apply preserves_bind; [apply preserves_cleanupMemory|].
  intros _; apply preserves_ret.
Qed.

Lemma preserves_perform c : preserves I (perform c).
Proof.
  destruct c; simpl.
  - apply preserves_bind; [apply preserves_Set_|intros; apply preserves_ret].
  - apply preserves_bind; [apply preserves_Get|intros; apply preserves_ret].
  - apply preserves_bind; [apply preserves_Delete|intros; apply preserves_ret].
  - apply preserves_TimeWheel_run_tick.
  - apply preserves_bind;
      [apply preserves_startExpirationChecker_tick|intros; apply preserves_ret].
Qed.

(** From construction on, through recovery and any sequence of calls. *)
Lemma preserves_lifetime clk file calls :
  I (fresh clk) → I (world_of (lifetime clk file calls)).
Proof.
  intros H0. unfold lifetime.
  apply preserves_bind; [apply preserves_loadFromDisk| |exact H0].
  intros _. apply preserves_forM_, preserves_perform.
Qed.

End Preservation.

(** ** The two invariants: shape of the state, and keys in their shard *)

Lemma wf_lifetime clk file calls : wf (world_of (lifetime clk file calls)).
Proof.
  apply preserves_lifetime; auto using wf_set_repo, wf_set_reads, wf_set_slot,
    wf_set_shards, wf_fresh.
  intros w Hw. apply wf_set_index; [exact Hw|].
  rewrite (wf_slots _ Hw). pose proof (wf_index _ Hw).
  change (Z.of_nat 60) with 60.
  apply Z.rem_bound_pos; lia.
Qed.

Lemma keys_at_home_insert w key e data :
  keys_at_home w → shards w !! getShard key = Some data →
  keys_at_home (set_shards (<[getShard key := <[key := e]> data]> (shards w)) w).
Proof.
  intros Hhome Hdata i data' k Hi Hk. simpl in Hi.
  destruct (decide (i = getShard key)) as [->|Hne].
  - rewrite list_lookup_insert_eq in Hi by (eapply lookup_lt_Some; eauto).
    injection Hi as <-.
    destruct (decide (k = key)) as [->|Hk']; [reflexivity|].
    rewrite lookup_insert_ne in Hk by congruence.
    eapply Hhome; eauto.
  - rewrite list_lookup_insert_ne in Hi by congruence.
    eapply Hhome; eauto.
Qed.

Lemma keys_at_home_delete w i key data :
  keys_at_home w → shards w !! i = Some data →
  keys_at_home (set_shards (<[i := delete key data]> (shards w)) w).
Proof.
  intros Hhome Hdata j data' k Hj Hk. simpl in Hj.
  destruct (decide (j = i)) as [->|Hne].
  - rewrite list_lookup_insert_eq in Hj by (eapply lookup_lt_Some; eauto).
    injection Hj as <-.
    eapply Hhome; eauto.
    destruct Hk as [e He]. apply lookup_delete_Some in He as [_ He]. eauto.
  - rewrite list_lookup_insert_ne in Hj by congruence.
    eapply Hhome; eauto.
Qed.

Lemma keys_at_home_fresh clk : keys_at_home (fresh clk).
Proof.
  intros i data k Hi [e He]. unfold fresh in Hi. cbn [shards] in Hi.
  apply lookup_replicate in Hi as [-> _].
  rewrite lookup_empty in He. discriminate.
Qed.

Lemma keys_at_home_lifetime clk file calls :
  keys_at_home (world_of (lifetime clk file calls)).
Proof.
  apply preserves_lifetime;
    auto using keys_at_home_insert, keys_at_home_delete, keys_at_home_fresh.
Qed.

(** ** Recovery, record by record *)

(** Well-formedness only looks at lengths, the tick and the index. *)
Lemma wf_same_shape w w' :
  wf w →
  length (shards w') = length (shards w) →
  length (slots (timeWheel w')) = length (slots (timeWheel w)) →
  tick (timeWheel w') = tick (timeWheel w) →
  index (timeWheel w') = index (timeWheel w) →
  wf w'.
Proof.
  intros [H1 H2 H3 H4] E1 E2 E3 E4. split; congruence.
Qed.

Ltac same_shape H :=
  apply (wf_same_shape _ _ H); simpl; rewrite ?length_insert; reflexivity.

Lemma loadFromDisk_apply_SET w key value exp :
  wf w →
  ∃ data w',
    shards w !! getShard key = Some data ∧
    loadFromDisk_apply (SET_record key value exp) w = Done tt w' ∧
    wf w' ∧ clock w' = clock w ∧ (reads w <= reads w')%nat ∧
    ((live_at (clock w (reads w)) (mkCacheItem value exp) ∧
      shards w' = <[getShard key := <[key := mkCacheItem value exp]> data]> (shards w) ∧
      (exp ≠ 0 → (reads w < reads w')%nat))
     ∨ (¬ live_at (clock w (reads w)) (mkCacheItem value exp) ∧
        shards w' = shards w)).
Proof.
  intros Hwf.
  destruct (wf_shard_Some w key Hwf) as [data Hdata].
  exists data.
  unfold loadFromDisk_apply, SET_record, live_at.
  change (iface_eq_string (VString "SET") "SET") with true. cbv iota.
  cbn [ExpiresAt].
  destruct (Z.eqb_spec exp 0) as [->|Hexp].
  - (* never expires: no clock reading for the test *)
    set (w1 := set_shards (<[getShard key := <[key := mkCacheItem value 0]> data]> (shards w)) w).
    assert (Hwf1 : wf w1) by apply wf_set_shards, Hwf.
    destruct (TimeWheel_Add_run w1 key 0 Hwf1 ltac:(lia)) as (slot & _ & Hadd).
    eexists. split; [exact Hdata|]. split.
    { unfold_M. fold (TimeWheel_Add key 0). rewrite Hdata. cbv beta iota.
      subst w1. rewrite Hadd. reflexivity. }
    split; [same_shape Hwf|].
    split; [reflexivity|]. split; [simpl; lia|].
    left. split; [left; reflexivity|]. split; [reflexivity|]. intros; congruence.
  - destruct (Z.ltb_spec (Unix (clock w (reads w))) exp) as [Hlt|Hge].
    + set (w0 := set_reads (S (reads w)) w).
      set (w1 := set_shards (<[getShard key := <[key := mkCacheItem value exp]> data]> (shards w0)) w0).
      assert (Hwf1 : wf w1) by apply wf_set_shards, wf_set_reads, Hwf.
      destruct (TimeWheel_Add_run w1 key 0 Hwf1 ltac:(lia)) as (slot & _ & Hadd).
      eexists. split; [exact Hdata|]. split.
      { unfold_M. fold (TimeWheel_Add key 0).
        destruct (Z.ltb_spec (Unix (clock w (reads w))) exp) as [_|?]; [|lia].
        cbn [shards set_reads]. rewrite Hdata. cbv beta iota.
        subst w1 w0. cbn [shards set_reads] in Hadd |- *. rewrite Hadd. reflexivity. }
      split; [same_shape Hwf|].
      split; [reflexivity|]. split; [simpl; lia|].
      left. split; [right; exact Hlt|]. split; [reflexivity|]. intros; simpl; lia.
    + eexists. split; [exact Hdata|]. split.
      { unfold_M.
        destruct (Z.ltb_spec (Unix (clock w (reads w))) exp) as [?|_]; [lia|].
        reflexivity. }
      split; [apply wf_set_reads, Hwf|].
      split; [reflexivity|]. split; [simpl; lia|].
      right. split; [|reflexivity]. intros [?|?]; lia.
Qed.

Lemma loadFromDisk_apply_DEL w key :
  wf w →
  ∃ data,
    shards w !! getShard key = Some data ∧
    loadFromDisk_apply (DEL_record key) w =
    Done tt (set_shards (<[getShard key := delete key data]> (shards w)) w).
Proof.
  intros Hwf.
  destruct (wf_shard_Some w key Hwf) as [data Hdata].
  exists data. split; [exact Hdata|].
  unfold loadFromDisk_apply, DEL_record.
  change (iface_eq_string (VString "DEL") "DEL") with true. cbv iota.
  unfold_M. rewrite Hdata. reflexivity.
Qed.

Lemma loadFromDisk_apply_unrecognized cmd :
  unrecognized cmd → loadFromDisk_apply cmd = mret tt.
Proof.
  unfold unrecognized, loadFromDisk_apply.
  destruct cmd as [|c0 [|c1 [|c2 [|c3 [|c4 cmd]]]]]; try reflexivity.
  - intros ->. reflexivity.
  - intros ->. reflexivity.
Qed.

(** A written record replays without a panic and keeps the state well formed. *)
Lemma loadFromDisk_apply_written w cmd :
  wf w → written cmd →
  ∃ w', loadFromDisk_apply cmd w = Done tt w' ∧ wf w'.
Proof.
  intros Hwf [(key & value & exp & ->)|(key & ->)].
  - destruct (loadFromDisk_apply_SET w key value exp Hwf)
      as (data & w' & _ & Hrun & Hwf' & _).
    eauto.
  - destruct (loadFromDisk_apply_DEL w key Hwf) as (data & _ & Hrun).
    eexists. split; [exact Hrun|]. apply wf_set_shards, Hwf.
Qed.

Lemma loadFromDisk_loop_written w cmds :
  wf w → Forall written cmds →
  ∃ w', loadFromDisk_loop (map Encoded cmds) w = Done tt w' ∧ wf w'.
Proof.
  intros Hwf Hall. revert w Hwf.
  induction Hall as [|cmd cmds Hcmd _ IH]; intros w Hwf; simpl.
  - eauto.
  - destruct (loadFromDisk_apply_written w cmd Hwf Hcmd) as (w1 & Hrun & Hwf1).
    unfold mbind, M_bind. rewrite Hrun. apply IH, Hwf1.
Qed.

(** Whatever follows an undecodable stretch is never read. *)
Lemma loadFromDisk_loop_Undecodable pre rest :
  loadFromDisk_loop (pre ++ Undecodable :: rest) = loadFromDisk_loop pre.
Proof.
  induction pre as [|[cmd|] pre IH]; simpl; try reflexivity.
  rewrite IH. reflexivity.
Qed.

(** A command of neither shape is passed over. *)
Lemma loadFromDisk_loop_unrecognized cmd pre rest w :
  unrecognized cmd →
  loadFromDisk_loop (pre ++ Encoded cmd :: rest) w = loadFromDisk_loop (pre ++ rest) w.
Proof.
  intros Hcmd. revert w.
  induction pre as [|[c|] pre IH]; intros w; simpl.
  - rewrite (loadFromDisk_apply_unrecognized cmd Hcmd). reflexivity.
  - unfold mbind, M_bind. destruct (loadFromDisk_apply c w); [apply IH|reflexivity].
  - reflexivity.
Qed.

Lemma entry_of_fresh clk k : entry_of (fresh clk) k = None.
Proof.
  unfold entry_of, fresh. cbn [shards].
  destruct (replicate (Z.to_nat numShards) (∅ : gmap string CacheItem) !! getShard k)
    as [data|] eqn:H; [|reflexivity].
  apply lookup_replicate in H as [-> _]. simpl. apply lookup_empty.
Qed.

Lemma records_of_cons_eq key cmd log :
  record_key cmd = Some key → records_of key (cmd :: log) = cmd :: records_of key log.
Proof. intros H. unfold records_of. apply filter_cons_True. exact H. Qed.

Lemma records_of_cons_ne key cmd log :
  record_key cmd ≠ Some key → records_of key (cmd :: log) = records_of key log.
Proof. intros H. unfold records_of. apply filter_cons_False. exact H. Qed.

Lemma records_of_app key l1 l2 :
  records_of key (l1 ++ l2) = records_of key l1 ++ records_of key l2.
Proof. unfold records_of. apply filter_app. Qed.

(** ** Compaction *)

Lemma expired_mkExpiredKeySet expiredKeys key :
  expired (mkExpiredKeySet expiredKeys) key = true ↔ key ∈ expiredKeys.
Proof.
  unfold mkExpiredKeySet, expired.
  assert (G : ∀ (set : gmap string bool),
             default false (foldl (λ s k, <[k := true]> s) set expiredKeys !! key) = true
             ↔ key ∈ expiredKeys ∨ default false (set !! key) = true).
  { induction expiredKeys as [|k ks IH]; intros set; simpl.
    - rewrite elem_of_nil. tauto.
    - rewrite IH, elem_of_cons.
      destruct (decide (key = k)) as [->|Hne].
      + rewrite lookup_insert_eq. simpl. tauto.
      + rewrite lookup_insert_ne by congruence. tauto. }
  rewrite G, lookup_empty. simpl. split; [intros [?|?]; [assumption|discriminate]|auto].
Qed.

Lemma CleanupAOF_loop_cons ok set cmd rest temp :
  CleanupAOF_loop ok set (Encoded cmd :: rest) temp =
  match classify set cmd with
  | Copy => if ok then CleanupAOF_loop ok set rest (temp ++ [Encoded cmd])
            else (CleanupIOError EncodeTemp, temp)
  | Skip => CleanupAOF_loop ok set rest temp
  | Fail => (CleanupPanic, temp)
  end.
Proof.
  unfold classify. simpl.
  destruct cmd as [|c0 [|c1 [|c2 [|c3 [|c4 cmd]]]]]; try reflexivity.
  - destruct (iface_eq_string c0 "DEL"); [|reflexivity].
    destruct c1; try reflexivity. destruct (negb _); reflexivity.
  - destruct (iface_eq_string c0 "SET"); [|reflexivity].
    destruct c1; try reflexivity. destruct (negb _); reflexivity.
Qed.

Lemma classify_Copy set cmd :
  classify set cmd = Copy ↔ kept set cmd = true.
Proof.
  unfold classify, kept, record_key.
  destruct cmd as [|c0 [|c1 [|c2 [|c3 [|c4 cmd]]]]];
    repeat case_match; split; congruence.
Qed.

Lemma classify_written set cmd : written cmd → classify set cmd ≠ Fail.
Proof.
  intros [(key & value & exp & ->)|(key & ->)]; unfold classify; simpl;
    destruct (negb _); discriminate.
Qed.

Lemma kept_record_key set cmd :
  kept set cmd = true ↔ ∃ key, record_key cmd = Some key ∧ expired set key = false.
Proof.
  unfold kept. destruct (record_key cmd) as [key|].
  - rewrite negb_true_iff. split; [eauto|]. intros (k & [= ->] & H); exact H.
  - split; [discriminate|]. intros (k & H & _); discriminate.
Qed.

Lemma decodable_Encoded cmds : decodable (map Encoded cmds) = cmds.
Proof. induction cmds as [|c cs IH]; simpl; congruence. Qed.

(** When the copy loop reaches the end of the file, the temporary file
    holds what it held before, then the kept commands in their order. *)
Lemma CleanupAOF_loop_Done ok set file temp t :
  CleanupAOF_loop ok set file temp = (CleanupDone, t) →
  t = temp ++ map Encoded (filter (λ cmd, kept set cmd = true) (decodable file)).
Proof.
  revert temp. induction file as [|[cmd|] rest IH]; intros temp.
  - simpl. intros [= <-]. rewrite app_nil_r. reflexivity.
  - rewrite CleanupAOF_loop_cons. simpl decodable.
    destruct (classify set cmd) eqn:Hc.
    + apply classify_Copy in Hc. destruct ok; [|discriminate]. intros H%IH.
      rewrite filter_cons_True by exact Hc.
      rewrite H, <- app_assoc. reflexivity.
    + assert (kept set cmd ≠ true) as Hk.
      { intros Hk%classify_Copy. congruence. }
      intros H%IH. rewrite filter_cons_False by exact Hk. exact H.
    + discriminate.
  - simpl. discriminate.
Qed.

(** How the loop ends does not depend on what the temporary file holds. *)
Lemma CleanupAOF_loop_result ok set file temp :
  fst (CleanupAOF_loop ok set file temp) = fst (CleanupAOF_loop ok set file []).
Proof.
  revert temp. induction file as [|[cmd|] rest IH]; intros temp; try reflexivity.
  rewrite !CleanupAOF_loop_cons.
  destruct (classify set cmd); try reflexivity.
  - destruct ok; [|reflexivity]. rewrite IH. symmetry. apply IH.
  - apply IH.
Qed.

(** A file made of kept commands only is copied whole. *)
Lemma CleanupAOF_loop_kept set cmds temp :
  Forall (λ cmd, kept set cmd = true) cmds →
  CleanupAOF_loop true set (map Encoded cmds) temp
  = (CleanupDone, temp ++ map Encoded cmds).
Proof.
  intros Hall. revert temp.
  induction Hall as [|cmd cmds Hcmd _ IH]; intros temp; simpl map.
  - simpl. rewrite app_nil_r. reflexivity.
  - rewrite CleanupAOF_loop_cons.
    apply classify_Copy in Hcmd. rewrite Hcmd.
    rewrite IH, <- app_assoc. reflexivity.
Qed.

(** A loop that reaches the end although [Encode] would fail has had
    nothing to copy. *)
Lemma CleanupAOF_loop_nothing_kept set file temp :
  fst (CleanupAOF_loop false set file temp) = CleanupDone →
  filter (λ cmd, kept set cmd = true) (decodable file) = [].
Proof.
  revert temp. induction file as [|[cmd|] rest IH]; intros temp; try reflexivity.
  rewrite CleanupAOF_loop_cons. simpl decodable.
  destruct (classify set cmd) eqn:Hc; try discriminate.
  assert (kept set cmd ≠ true) as Hk.
  { intros Hk%classify_Copy. congruence. }
  intros H%IH. rewrite filter_cons_False by exact Hk. exact H.
Qed.

(** A file of written records is copied without error. *)
Lemma CleanupAOF_loop_written set cmds temp :
  Forall written cmds →
  fst (CleanupAOF_loop true set (map Encoded cmds) temp) = CleanupDone.
Proof.
  intros Hall. revert temp.
  induction Hall as [|cmd cmds Hcmd _ IH]; intros temp; simpl map.
  - reflexivity.
  - rewrite CleanupAOF_loop_cons.
    pose proof (classify_written set cmd Hcmd).
    destruct (classify set cmd); [apply IH|apply IH|congruence].
Qed.

(** [CleanupAOF] on an open log, with the temporary file written out. *)
Lemma CleanupAOF_open fs expiredKeys file :
  let set := mkExpiredKeySet expiredKeys in
  CleanupAOF fs expiredKeys (LogOpen file) =
  if negb (fs CreateTemp) then (CleanupIOError CreateTemp, LogOpen file)
  else if negb (fs SeekStart) then (CleanupIOError SeekStart, LogOpen file)
  else match fst (CleanupAOF_loop (fs EncodeTemp) set file []) with
       | CleanupDone =>
           CleanupAOF_swap fs file
             (map Encoded (filter (λ cmd, kept set cmd = true) (decodable file)))
       | r => (r, LogOpen file)
       end.
Proof.
  intros set. unfold CleanupAOF. fold set.
  destruct (negb (fs CreateTemp)); [reflexivity|].
  destruct (negb (fs SeekStart)); [reflexivity|].
  destruct (CleanupAOF_loop (fs EncodeTemp) set file []) as [r temp] eqn:Hloop.
  destruct r; try reflexivity.
  apply CleanupAOF_loop_Done in Hloop. rewrite Hloop. reflexivity.
Qed.

(** A log that is not open is left alone. *)
Lemma CleanupAOF_not_open fs expiredKeys l :
  (∀ file, l ≠ LogOpen file) →
  snd (CleanupAOF fs expiredKeys l) = l
  ∧ fst (CleanupAOF fs expiredKeys l) ≠ CleanupDone.
Proof.
  intros Hl. unfold CleanupAOF.
  destruct (negb (fs CreateTemp)); [split; [reflexivity|discriminate]|].
  destruct l as [file| |]; [destruct (Hl file); reflexivity| |];
    (split; [reflexivity|discriminate]).
Qed.

(** Where the log ends up, whatever the file system does: it is left as it
    was, or closed with its contents, or gone, or replaced by the kept
    commands. *)
Lemma CleanupAOF_cases fs expiredKeys file :
  let set := mkExpiredKeySet expiredKeys in
  let temp := map Encoded (filter (λ cmd, kept set cmd = true) (decodable file)) in
  let out := CleanupAOF fs expiredKeys (LogOpen file) in
  (fst out = CleanupDone ∧ snd out = LogOpen temp
   ∧ fst (CleanupAOF_loop (fs EncodeTemp) set file []) = CleanupDone
   ∧ fs CreateTemp = true ∧ fs SeekStart = true ∧ fs CloseLog = true
   ∧ fs RemoveLog = true ∧ fs RenameTemp = true ∧ fs ReopenLog = true)
  ∨ (fst out ≠ CleanupDone
     ∧ (snd out = LogOpen file ∨ snd out = LogClosed file
        ∨ snd out = LogClosed temp ∨ snd out = LogGone)).
Proof.
  intros set temp out. subst out. rewrite CleanupAOF_open. fold set.
  destruct (fs CreateTemp); cbn [negb]; [|right; split; [discriminate|auto]].
  destruct (fs SeekStart); cbn [negb]; [|right; split; [discriminate|auto]].
  destruct (fst (CleanupAOF_loop (fs EncodeTemp) set file [])) eqn:Hloop;
    try (right; split; [discriminate|auto]).
  unfold CleanupAOF_swap. fold temp.
  destruct (fs CloseLog); cbn [negb]; [|right; split; [discriminate|auto]].
  destruct (fs RemoveLog); cbn [negb]; [|right; split; [discriminate|auto]].
  destruct (fs RenameTemp); cbn [negb]; [|right; split; [discriminate|auto 6]].
  destruct (fs ReopenLog); cbn [negb]; [|right; split; [discriminate|auto 6]].
  left. cbn [fst snd]. repeat (split; [reflexivity|]). reflexivity.
Qed.

Lemma records_of_kept set key log :
  expired set key = false →
  records_of key (filter (λ cmd, kept set cmd = true) log) = records_of key log.
Proof.
  intros Hkey. unfold records_of.
  induction log as [|cmd log IH]; [reflexivity|].
  destruct (decide (kept set cmd = true)) as [Hk|Hk].
  - rewrite (filter_cons_True (λ cmd, kept set cmd = true)) by exact Hk.
    destruct (decide (record_key cmd = Some key)) as [Hr|Hr].
    + rewrite !(filter_cons_True (λ cmd, record_key cmd = Some key)) by exact Hr.
      rewrite IH. reflexivity.
    + rewrite !(filter_cons_False (λ cmd, record_key cmd = Some key)) by exact Hr.
      exact IH.
  - rewrite (filter_cons_False (λ cmd, kept set cmd = true)) by exact Hk.
    rewrite (filter_cons_False (λ cmd, record_key cmd = Some key)); [exact IH|].
    intros Hr. apply Hk. apply kept_record_key. eauto.
Qed.

(** * The claims *)

(** ** Sharding *)

(** C6.  The shard of a key is the FNV-1a hash of its bytes modulo 32, an
    index below 32 that depends on the key alone; and in every state the
    cache can reach (recovery from any file, then any sequence of calls and
    background firings, under any clock) a shard that holds a key is the
    shard of that key, so no key is held by two shards. *)
Theorem shard_is_fnv1a_mod_32 (k : string) :
  Z.of_nat (getShard k) = fnv1a_32 (bytes k) mod 32
  ∧ (getShard k < 32)%nat
  ∧ (∀ clk file calls i data,
       shards (world_of (lifetime clk file calls)) !! i = Some data →
       is_Some (data !! k) → i = getShard k)
  ∧ (∀ clk file calls i j di dj,
       shards (world_of (lifetime clk file calls)) !! i = Some di →
       shards (world_of (lifetime clk file calls)) !! j = Some dj →
       is_Some (di !! k) → is_Some (dj !! k) → i = j).
Proof.
  split; [|split; [|split]].
  - unfold getShard, fnv32, fnv.Sum32, fnv.New32a, fnv.offset32, fnv1a_32, numShards.
    rewrite fnv_Write_fnv1a.
    rewrite Z2Nat.id; [reflexivity|].
    apply Z.mod_pos_bound; lia.
  - apply getShard_lt.
  - intros clk file calls i data Hi Hk.
    exact (keys_at_home_lifetime clk file calls i data k Hi Hk).
  - intros clk file calls i j di dj Hi Hj Hki Hkj.
    rewrite (keys_at_home_lifetime clk file calls i di k Hi Hki).
    rewrite (keys_at_home_lifetime clk file calls j dj k Hj Hkj).
    reflexivity.
Qed.

Lemma shard_is_fnv1a_mod_32_witness :
  12%nat = getShard "a".
Proof.
  destruct (shard_is_fnv1a_mod_32 "a") as (_ & _ & H & _).
  eapply (H frozen (Some [Encoded (SET_record "a" "1" 0)])
            [CallSet "b" "2" 0; CallGet "b"; WheelTick] 12%nat).
  - vm_compute. reflexivity.
  - vm_compute. eexists. reflexivity.
Defined.

(** ** Set *)

(** C7.  On a well-formed state and for a duration [ttl >= 0], [Set_]
    returns nil; afterwards the entry of [key] is [value] with
    [expires_at = (now + ttl).Unix()] when [ttl > 0] and [0] when
    [ttl = 0], whatever was stored before, the other keys are untouched,
    and the record [["SET", key, value, expires_at]] is the newest element
    of the log. *)
Theorem Set_stores_and_logs w key value ttl :
  wf w → 0 <= ttl →
  let now := clock w (reads w) in
  let expires_at := if 0 <? ttl then Unix (Time_Add now ttl) else 0 in
  ∃ w',
    Set_ key value ttl w = Done err_nil w'
    ∧ entry_of w' key = Some (mkCacheItem value expires_at)
    ∧ (∀ k, k ≠ key → entry_of w' k = entry_of w k)
    ∧ repo w' = repo w ++ [[VString "SET"; VString key; VString value; VInt64 expires_at]]
    ∧ wf w'.
Proof.
  intros Hwf Httl now expires_at.
  destruct (Set_run w key value ttl Hwf Httl) as (data & slot & Hdata & Hslot & Hrun).
  eexists. split; [exact Hrun|].
  assert (Hlt : (getShard key < length (shards w))%nat)
    by (eapply lookup_lt_Some; eauto).
  split; [|split; [|split]].
  - unfold entry_of; cbn [shards].
    rewrite list_lookup_insert_eq by exact Hlt. simpl.
    apply lookup_insert_eq.
  - intros k Hk. unfold entry_of; cbn [shards].
    eapply entry_of_store_ne; [exact Hdata|].
    apply lookup_insert_ne. congruence.
  - reflexivity.
  - same_shape Hwf.
Qed.

Lemma Set_stores_and_logs_witness :
  ∃ w', Set_ "a" "1" (5 * Second) (fresh frozen) = Done err_nil w'
        ∧ entry_of w' "a" = Some (mkCacheItem "1" 1005).
Proof.
  destruct (Set_stores_and_logs (fresh frozen) "a" "1" (5 * Second))
    as (w' & Hrun & Hentry & _).
  - apply wf_fresh.
  - vm_compute. discriminate.
  - exists w'. split; [exact Hrun|exact Hentry].
Defined.

(** C10, as the code has it.  For every duration [ttl >= 0], zero
    included, [Set_] registers [key] in the time wheel: the wheel index
    does not move, slot [(index + ttl / 1 s) mod 60] maps [key] to the
    second of the instant [now + ttl], where [now] is the reading of the
    clock made inside [TimeWheel.Add], and no other wheel entry changes.
    For [ttl = 0] the slot is the current one and the timestamp the current
    second, so a key stored without expiration waits there for the wheel to
    come round. *)
Theorem Set_registers_in_wheel w key value ttl :
  wf w → 0 <= ttl →
  let i := index (timeWheel w) in
  let now := clock w (if 0 <? ttl then S (reads w) else reads w) in
  let slot := (i + ttl / 1000000000) mod 60 in
  ∃ w',
    Set_ key value ttl w = Done err_nil w'
    ∧ index (timeWheel w') = i
    ∧ wheel_entry w' slot key = Some ((now + ttl) / 1000000000)
    ∧ (∀ j k, 0 <= j → j ≠ slot ∨ k ≠ key → wheel_entry w' j k = wheel_entry w j k)
    ∧ (ttl = 0 → wheel_entry w' i key = Some (now / 1000000000)).
Proof.
  intros Hwf Httl i now slot.
  destruct (Set_run w key value ttl Hwf Httl) as (data & sl & Hdata & Hslot & Hrun).
  match type of Hrun with _ = Done _ ?W => set (w' := W) in * end.
  exists w'. split; [exact Hrun|].
  pose proof (wf_index _ Hwf) as Hidx.
  assert (Hs : 0 <= slot < 60) by (apply Z.mod_pos_bound; lia).
  assert (Hlt : (Z.to_nat slot < length (slots (timeWheel w)))%nat)
    by (eapply lookup_lt_Some; exact Hslot).
  assert (Hentry : wheel_entry w' slot key = Some ((now + ttl) / 1000000000)).
  { unfold w', wheel_entry; cbn [timeWheel slots set_slot].
    rewrite list_lookup_insert_eq by exact Hlt. simpl.
    apply lookup_insert_eq. }
  assert (Hframe : ∀ j k, 0 <= j → j ≠ slot ∨ k ≠ key →
                     wheel_entry w' j k = wheel_entry w j k).
  { intros j k Hj Hjk. unfold w', wheel_entry; cbn [timeWheel slots set_slot].
    destruct (decide (j = slot)) as [->|Hne].
    - destruct Hjk as [?|Hk]; [congruence|].
      rewrite list_lookup_insert_eq by exact Hlt.
      fold slot. unfold slot in Hslot |- *. unfold Second in Hslot.
      fold i in Hslot. rewrite Hslot. simpl.
      apply lookup_insert_ne. congruence.
    - rewrite list_lookup_insert_ne; [reflexivity|].
      unfold Second. fold i slot. lia. }
  assert (Hindex : index (timeWheel w') = i) by reflexivity.
  clearbody w'.
  split; [exact Hindex|]. split; [exact Hentry|]. split; [exact Hframe|].
  intros ->. revert Hentry. subst now slot.
  change (0 / 1000000000) with 0. change (0 <? 0) with false. cbv iota.
  rewrite !Z.add_0_r, Z.mod_small by (subst i; lia).
  exact id.
Qed.

(** After three ticks the index is 3; a TTL of 58.5 s then lands in slot
    [(3 + 58) mod 60 = 1], stamped with second 1062 of the instant
    1004 s + 58.5 s. *)
Lemma Set_registers_in_wheel_witness :
  ∃ w3 w',
    wheel_ticks 3 (fresh ticking) = Done tt w3
    ∧ index (timeWheel w3) = 3
    ∧ Set_ "a" "1" 58500000000 w3 = Done err_nil w'
    ∧ wheel_entry w' 1 "a" = Some 1062
    ∧ wheel_entry w' 3 "a" = None.
Proof.
  exists (world_of (wheel_ticks 3 (fresh ticking))).
  destruct (Set_registers_in_wheel (world_of (wheel_ticks 3 (fresh ticking)))
              "a" "1" 58500000000)
    as (w' & Hrun & _ & Hslot & Hframe & _).
  - split; try (vm_compute; reflexivity).
    vm_compute. split; [discriminate|reflexivity].
  - vm_compute. discriminate.
  - exists w'. split; [vm_compute; reflexivity|]. split; [vm_compute; reflexivity|].
    split; [exact Hrun|]. split.
    + vm_compute in Hslot. exact Hslot.
    + rewrite (Hframe 3 "a"); [vm_compute; reflexivity|lia|].
      left. vm_compute. discriminate.
Defined.

(** C10 as stated fails for negative durations.  Go's [/] and [%] round
    towards zero and keep the sign of the dividend: a TTL of minus half a
    second is registered in slot 0, not in slot
    [(0 + floor (-0.5)) mod 60 = 59], and one of minus a second makes
    [TimeWheel.Add] index slot [-1], so that the call panics and registers
    nothing. *)
Lemma Set_negative_ttl_not_registered :
  (0 + (-500000000) / 1000000000) mod 60 = 59
  ∧ (∃ w',
       Set_ "a" "1" (-500000000) (fresh frozen) = Done err_nil w'
       ∧ wheel_entry w' 59 "a" = None
       ∧ wheel_entry w' 0 "a" = Some 999)
  ∧ (∃ w',
       Set_ "a" "1" (-1000000000) (fresh frozen) = Panic w'
       ∧ slots (timeWheel w') = replicate 60 ∅).
Proof.
  split; [reflexivity|]. split.
  - eexists. split; [vm_compute; reflexivity|].
    split; vm_compute; reflexivity.
  - eexists. split; vm_compute; reflexivity.
Qed.

(** Negative durations are another matter: one of minus a second or less
    can send [TimeWheel.Add] to a negative slot index, because Go's [%]
    keeps the sign of the dividend.  The call then panics after the entry
    has been written to its shard and before anything is logged. *)
Lemma Set_negative_ttl_panics :
  ∃ w',
    Set_ "a" "1" (-61 * Second) (fresh frozen) = Panic w'
    ∧ entry_of w' "a" = Some (mkCacheItem "1" 0)
    ∧ repo w' = [].
Proof.
  eexists. split; [vm_compute; reflexivity|].
  split; vm_compute; reflexivity.
Qed.

(** ** Delete *)

(** C9.  [Delete] of a key that its shard does not hold returns nil and
    leaves every shard as it was, yet appends [["DEL", key]] to the log;
    so a DEL record need not follow any SET record of its key (the witness
    deletes from a cache that never stored anything). *)
Theorem Delete_absent_key w key :
  wf w → entry_of w key = None →
  ∃ w',
    Delete key w = Done err_nil w'
    ∧ shards w' = shards w
    ∧ repo w' = repo w ++ [[VString "DEL"; VString key]].
Proof.
  intros Hwf Habsent.
  destruct (wf_shard_Some w key Hwf) as [data Hdata].
  eexists. split; [apply Delete_run, Hdata|].
  split; [|reflexivity].
  cbn [shards set_repo set_shards].
  unfold entry_of in Habsent. rewrite Hdata in Habsent. simpl in Habsent.
  rewrite delete_id by exact Habsent.
  apply list_insert_id, Hdata.
Qed.

Lemma Delete_absent_key_witness :
  ∃ w', Delete "ghost" (fresh frozen) = Done err_nil w'
        ∧ shards w' = shards (fresh frozen)
        ∧ repo w' = [[VString "DEL"; VString "ghost"]].
Proof.
  apply (Delete_absent_key (fresh frozen) "ghost").
  - apply wf_fresh.
  - vm_compute. reflexivity.
Defined.

(** ** Get after Set *)

(** C1 (the code departs from the claim).  A key stored with [ttl = 0] gets
    [ExpiresAt = 0]; [Get] compares [ExpiresAt] with the current second
    without setting the value 0 apart, so on any clock past the epoch the
    very next [Get] of that key deletes the entry and answers
    [ErrKeyNotFound]. *)
Theorem Get_after_Set_without_ttl w key value :
  wf w → 0 < Unix (clock w (S (reads w))) →
  ∃ w1 w2,
    Set_ key value 0 w = Done err_nil w1
    ∧ entry_of w1 key = Some (mkCacheItem value 0)
    ∧ Get key w1 = Done ("", ErrKeyNotFound) w2
    ∧ entry_of w2 key = None.
Proof.
  intros Hwf Hclock.
  destruct (Set_run w key value 0 Hwf ltac:(lia)) as (data & slot & Hdata & _ & Hrun).
  change (0 <? 0) with false in Hrun. cbv iota in Hrun.
  assert (Hlt : (getShard key < length (shards w))%nat)
    by (eapply lookup_lt_Some; eauto).
  eexists. eexists. split; [exact Hrun|]. split; [|split].
  - unfold entry_of; cbn [shards].
    rewrite list_lookup_insert_eq by exact Hlt. simpl. apply lookup_insert_eq.
  - unfold Get. unfold_M. cbn [shards clock reads].
    rewrite list_lookup_insert_eq by exact Hlt.
    rewrite lookup_insert_eq. cbn [ExpiresAt clock reads].
    destruct (Z.ltb_spec 0 (Unix (clock w (S (reads w))))) as [_|?]; [|lia].
    reflexivity.
  - unfold entry_of; cbn [shards set_shards set_reads].
    rewrite list_lookup_insert_eq by (rewrite length_insert; exact Hlt).
    simpl. apply lookup_delete_eq.
Qed.

Lemma Get_after_Set_without_ttl_witness :
  ∃ w1 w2,
    Set_ "a" "1" 0 (fresh frozen) = Done err_nil w1
    ∧ entry_of w1 "a" = Some (mkCacheItem "1" 0)
    ∧ Get "a" w1 = Done ("", ErrKeyNotFound) w2
    ∧ entry_of w2 "a" = None.
Proof.
  apply (Get_after_Set_without_ttl (fresh frozen) "a" "1").
  - apply wf_fresh.
  - vm_compute. reflexivity.
Defined.

(** [Set_] with a positive TTL, then [Get] of the same key. *)
Lemma Set_then_Get w key value ttl :
  wf w → 0 < ttl →
  let expires_at := Unix (clock w (reads w) + ttl) in
  let now := clock w (S (S (reads w))) in
  ∃ w1,
    Set_ key value ttl w = Done err_nil w1
    ∧ ∃ w2,
        Get key w1 =
        Done (if expires_at <? Unix now then ("", ErrKeyNotFound)
              else (value, err_nil)) w2.
Proof.
  intros Hwf Httl expires_at now.
  destruct (Set_run w key value ttl Hwf ltac:(lia)) as (data & slot & Hdata & _ & Hrun).
  destruct (Z.ltb_spec 0 ttl) as [_|?]; [|lia].
  assert (Hlt : (getShard key < length (shards w))%nat)
    by (eapply lookup_lt_Some; eauto).
  eexists. split; [exact Hrun|].
  unfold Get. unfold_M. cbn [shards clock reads].
  rewrite list_lookup_insert_eq by exact Hlt.
  rewrite lookup_insert_eq. cbn [ExpiresAt Value clock reads].
  fold expires_at. fold now.
  destruct (expires_at <? Unix now); eexists; reflexivity.
Qed.

(** X3.  With a positive TTL the same pair of calls behaves as intended, up
    to the granularity of whole seconds: [Get] right after [Set_] returns
    the value as long as the second it reads is not past [expires_at], and
    [ErrKeyNotFound] once it is. *)
Theorem Get_after_Set_with_ttl w key value ttl :
  wf w → 0 < ttl →
  let expires_at := Unix (clock w (reads w) + ttl) in
  let now := clock w (S (S (reads w))) in
  ∃ w1,
    Set_ key value ttl w = Done err_nil w1
    ∧ ∃ w2,
        Get key w1 =
        Done (if expires_at <? Unix now then ("", ErrKeyNotFound)
              else (value, err_nil)) w2.
Proof. exact (Set_then_Get w key value ttl). Qed.

(** ** Wheel firings *)

(** C2 (the code departs from the claim).  In the scenario of the design
    note the stale wheel entry of the first [Set_] fires at the fifth tick,
    at second 1008; the entry of the key then expires at second 1102 and is
    live, yet the tick removes it from its shard and logs a DEL record:
    [TimeWheel.run] looks at the wheel's own timestamp only and calls the
    unconditional [Delete]. *)
Theorem wheel_tick_deletes_live_entry :
  ∃ w4 w5,
    overwritten_ttl (fresh ticking) = Done tt w4
    ∧ entry_of w4 "a" = Some (mkCacheItem "2" 1102)
    ∧ wheel_entry w4 5 "a" = Some 1006
    ∧ Unix (clock w4 (reads w4)) = 1008
    ∧ live_at (clock w4 (reads w4)) (mkCacheItem "2" 1102)
    ∧ TimeWheel_run_tick w4 = Done tt w5
    ∧ index (timeWheel w5) = 5
    ∧ entry_of w5 "a" = None
    ∧ last (repo w5) = Some (DEL_record "a").
Proof.
  eexists. eexists.
  split; [vm_compute; reflexivity|].
  split; [vm_compute; reflexivity|].
  split; [vm_compute; reflexivity|].
  split; [vm_compute; reflexivity|].
  split; [right; vm_compute; reflexivity|].
  split; [vm_compute; reflexivity|].
  split; [vm_compute; reflexivity|].
  split; vm_compute; reflexivity.
Qed.

(** The same happens to a key stored without expiration: its wheel entry
    sits in the slot that was current when it was stored, stamped with that
    second, and fires one rotation later. *)
Lemma wheel_tick_deletes_entry_without_ttl :
  ∃ w59 w60,
    stored_without_ttl (fresh ticking) = Done tt w59
    ∧ entry_of w59 "a" = Some (mkCacheItem "1" 0)
    ∧ wheel_entry w59 0 "a" = Some 1000
    ∧ TimeWheel_run_tick w59 = Done tt w60
    ∧ index (timeWheel w60) = 0
    ∧ entry_of w60 "a" = None
    ∧ last (repo w60) = Some (DEL_record "a").
Proof.
  eexists. eexists.
  split; [vm_compute; reflexivity|].
  split; [vm_compute; reflexivity|].
  split; [vm_compute; reflexivity|].
  split; [vm_compute; reflexivity|].
  split; [vm_compute; reflexivity|].
  split; vm_compute; reflexivity.
Qed.

(** With at most one key in a slot there is one order to visit it in. *)
Lemma map_order_small range (slot : gset string) :
  map_order range → (size slot <= 1)%nat → range slot = elements slot.
Proof.
  intros Hrange Hsize. specialize (Hrange slot).
  unfold size, set_size in Hsize. simpl in Hsize.
  destruct (elements slot) as [|x [|y l]]; simpl in Hsize; [| |lia].
  - apply Permutation_nil_r. exact Hrange.
  - apply Permutation_singleton_r. exact Hrange.
Qed.

Lemma KeyOnlyWheel_run_ticks_small range n tw w :
  map_order range →
  Forall (λ slot : gset string, (size slot <= 1)%nat) (KeyOnlyWheel.slots tw) →
  KeyOnlyWheel.run_ticks range n tw w = KeyOnlyWheel.run_ticks elements n tw w.
Proof.
  intros Hrange. revert tw w.
  induction n as [|n IH]; intros tw w Hsmall; [reflexivity|].
  cbn [KeyOnlyWheel.run_ticks]. unfold mbind, M_bind.
  assert (Hstep : KeyOnlyWheel.run_tick range tw w = KeyOnlyWheel.run_tick elements tw w
                  ∧ ∀ tw' w', KeyOnlyWheel.run_tick elements tw w = Done tw' w' →
                      Forall (λ slot : gset string, (size slot <= 1)%nat)
                             (KeyOnlyWheel.slots tw')).
  { unfold KeyOnlyWheel.run_tick.
    destruct (Z.of_nat (length (KeyOnlyWheel.slots tw)) =? 0);
      [split; [reflexivity|discriminate]|].
    destruct (Z.rem _ _ <? 0); [split; [reflexivity|discriminate]|].
    destruct (KeyOnlyWheel.slots tw !! _) as [slot|] eqn:Hslot;
      [|split; [reflexivity|discriminate]].
    rewrite (map_order_small range slot Hrange)
      by (eapply (Forall_lookup_1 _ _ _ _ Hsmall); exact Hslot).
    split; [reflexivity|].
    intros tw' w'. unfold mbind, M_bind.
    destruct (forM_ _ _ w) as [[] w1|w1]; [|discriminate].
    intros [= <- _]. cbn [KeyOnlyWheel.slots].
    apply Forall_insert; [exact Hsmall|].
    rewrite size_empty. lia. }
  destruct Hstep as [-> Hsmall'].
  destruct (KeyOnlyWheel.run_tick elements tw w) as [tw' w'|w']; [|reflexivity].
  apply IH, (Hsmall' tw' w' eq_refl).
Qed.

(** The earlier revision of the wheel keeps no timestamp at all: a key
    stored for 120 s lands in slot [(0 + 120) mod 60 = 0] and is deleted
    by the 60th tick, a minute before it expires, in whatever order the
    ticks visit their slots. *)
Lemma KeyOnlyWheel_tick_deletes_live_entry range :
  map_order range →
  ∃ w tw w' tw',
    Set_ "a" "1" (120 * Second) (fresh ticking) = Done err_nil w
    ∧ KeyOnlyWheel.Add "a" (120 * Second) (KeyOnlyWheel.NewTimeWheel 60 Second)
      = Some tw
    ∧ entry_of w "a" = Some (mkCacheItem "1" 1120)
    ∧ KeyOnlyWheel.run_ticks range 60 tw w = Done tw' w'
    ∧ KeyOnlyWheel.index tw' = 0
    ∧ entry_of w' "a" = None
    ∧ repo w' = [SET_record "a" "1" 1120; DEL_record "a"].
Proof.
  intros Hrange.
  eexists. eexists. eexists. eexists.
  split; [vm_compute; reflexivity|].
  split; [vm_compute; reflexivity|].
  split; [vm_compute; reflexivity|].
  split.
  { rewrite KeyOnlyWheel_run_ticks_small; [vm_compute; reflexivity|exact Hrange|].
    cbn [KeyOnlyWheel.slots].
    repeat (constructor; [vm_compute; lia|]). constructor. }
  split; [vm_compute; reflexivity|].
  split; vm_compute; reflexivity.
Qed.

(** ** Compaction *)

(** The copy loop ends in one of four ways. *)
Lemma CleanupAOF_loop_ends ok set file temp :
  fst (CleanupAOF_loop ok set file temp)
  ∈ [CleanupDone; CleanupError; CleanupPanic; CleanupIOError EncodeTemp].
Proof.
  revert temp. induction file as [|[cmd|] rest IH]; intros temp.
  - simpl. set_solver.
  - rewrite CleanupAOF_loop_cons.
    destruct (classify set cmd); [destruct ok|..]; simpl; try apply IH; set_solver.
  - simpl. set_solver.
Qed.

(** C3 (the code departs from the claim).  Whenever a log is left after
    [CleanupAOF], every key outside the expired set has all its records in
    it, in their order, hence its last one; and when [CleanupAOF] returns
    nil the new log holds no SET or DEL record of an expired key.  But a
    log is not always left.  The temporary file is made in [os.TempDir()],
    the log is removed, and only then is the temporary file renamed: where
    the rename fails, as it does from another file system, [CleanupAOF]
    returns that error and [cache.aof] is gone, with the records of every
    key.  This is what happens on every log of written records when the
    rename is the one call that fails. *)
Theorem CleanupAOF_preserves fs expiredKeys file :
  let out := CleanupAOF fs expiredKeys (LogOpen file) in
  (∀ file', on_disk (snd out) = Some file' →
     ∀ key, key ∉ expiredKeys →
       records_of key (decodable file') = records_of key (decodable file)
       ∧ last_record key (decodable file') = last_record key (decodable file))
  ∧ (fst out = CleanupDone →
     ∃ file', snd out = LogOpen file'
       ∧ file' = map Encoded (decodable file')
       ∧ ∀ cmd key, cmd ∈ decodable file' → record_key cmd = Some key →
                    key ∉ expiredKeys)
  ∧ (snd out = LogGone ↔ fst out = CleanupIOError RenameTemp)
  ∧ (∀ cmds, file = map Encoded cmds → Forall written cmds →
       ((∀ c, fs c = true) → fst out = CleanupDone)
       ∧ ((∀ c, fs c = cross_device c) →
          out = (CleanupIOError RenameTemp, LogGone))).
Proof.
  intros out.
  set (set := mkExpiredKeySet expiredKeys).
  set (temp := map Encoded (filter (λ cmd, kept set cmd = true) (decodable file))).
  assert (Htemp : ∀ key, key ∉ expiredKeys →
            records_of key (decodable temp) = records_of key (decodable file)).
  { intros key Hkey. unfold temp. rewrite decodable_Encoded.
    apply records_of_kept, not_true_is_false.
    unfold set. rewrite expired_mkExpiredKeySet. exact Hkey. }
  split; [|split; [|split]].
  - intros file' Hdisk key Hkey.
    assert (Hrec : records_of key (decodable file') = records_of key (decodable file)).
    { destruct (CleanupAOF_cases fs expiredKeys file)
        as [(_ & Hout & _)|(_ & [Hout|[Hout|[Hout|Hout]]])];
        fold out in Hout; rewrite Hout in Hdisk; simpl in Hdisk;
        try discriminate; injection Hdisk as <-; auto. }
    unfold last_record. rewrite Hrec. auto.
  - intros Hdone.
    destruct (CleanupAOF_cases fs expiredKeys file) as [(_ & Hout & _)|[Hfail _]];
      [|contradiction].
    exists temp. split; [exact Hout|].
    assert (Hdec : decodable temp
                   = filter (λ cmd, kept set cmd = true) (decodable file))
      by apply decodable_Encoded.
    rewrite Hdec. split; [reflexivity|].
    intros cmd key [Hkept _]%list_elem_of_filter Hrec.
    apply kept_record_key in Hkept as (key' & Hrec' & Hexp).
    assert (key' = key) as -> by congruence.
    unfold set in Hexp. rewrite <- expired_mkExpiredKeySet. congruence.
  - subst out. rewrite CleanupAOF_open. fold set.
    destruct (fs CreateTemp); cbn [negb]; [|split; discriminate].
    destruct (fs SeekStart); cbn [negb]; [|split; discriminate].
    pose proof (CleanupAOF_loop_ends (fs EncodeTemp) set file []) as Hends.
    destruct (fst (CleanupAOF_loop (fs EncodeTemp) set file [])) as [| | |c];
      try (split; discriminate).
    + unfold CleanupAOF_swap.
      destruct (fs CloseLog); cbn [negb]; [|split; discriminate].
      destruct (fs RemoveLog); cbn [negb]; [|split; discriminate].
      destruct (fs RenameTemp); cbn [negb]; [|split; reflexivity].
      destruct (fs ReopenLog); cbn [negb]; split; discriminate.
    + split; [discriminate|]. cbn [fst]. intros [= ->]. exfalso.
      repeat (apply elem_of_cons in Hends as [Hends|Hends]; [discriminate|]).
      inversion Hends.
  - intros cmds -> Hall.
    pose proof (CleanupAOF_loop_written set cmds [] Hall) as Hloop.
    split; intros Hfs; subst out; rewrite CleanupAOF_open; fold set;
      rewrite !Hfs; cbn [negb cross_device]; rewrite Hloop;
      unfold CleanupAOF_swap; rewrite !Hfs; reflexivity.
Qed.

(** The failing run: the log holds a record of a key that is not expired,
    the temporary directory is on another file system, and after
    [CleanupAOF] no log is left. *)
Lemma CleanupAOF_preserves_witness :
  CleanupAOF cross_device ["b"]
    (LogOpen (map Encoded [SET_record "a" "1" 0; SET_record "b" "2" 1001]))
  = (CleanupIOError RenameTemp, LogGone)
  ∧ last_record "a" [SET_record "a" "1" 0; SET_record "b" "2" 1001]
    = Some (SET_record "a" "1" 0)
  ∧ "a" ∉ ["b"].
Proof.
  destruct (CleanupAOF_preserves cross_device ["b"]
              (map Encoded [SET_record "a" "1" 0; SET_record "b" "2" 1001]))
    as (_ & _ & _ & Hwritten).
  destruct (Hwritten [SET_record "a" "1" 0; SET_record "b" "2" 1001]) as [_ Hlost].
  - reflexivity.
  - repeat (constructor; [left; do 3 eexists; reflexivity|]). constructor.
  - split; [apply Hlost; reflexivity|].
    split; [vm_compute; reflexivity|].
    intros H. inversion H as [|? ? ? H']; subst. inversion H'.
Defined.

(** C8.  Compacting twice with the same expired keys leaves the log as
    compacting once does, whatever the log holds, in whatever state it is,
    and whichever calls into the file system fail. *)
Theorem CleanupAOF_idempotent fs expiredKeys l :
  snd (CleanupAOF fs expiredKeys (snd (CleanupAOF fs expiredKeys l)))
  = snd (CleanupAOF fs expiredKeys l).
Proof.
  assert (Hclosed : ∀ l', (∀ file, l' ≠ LogOpen file) →
            snd (CleanupAOF fs expiredKeys l') = l').
  { intros l' Hl'. apply CleanupAOF_not_open, Hl'. }
  destruct l as [file|contents|];
    [|rewrite !(Hclosed (LogClosed contents)) by (intros; discriminate); reflexivity
     |rewrite !(Hclosed LogGone) by (intros; discriminate); reflexivity].
  set (set := mkExpiredKeySet expiredKeys).
  set (ks := filter (λ cmd, kept set cmd = true) (decodable file)).
  destruct (CleanupAOF_cases fs expiredKeys file)
    as [(_ & Hout & Hloop & H1 & H2 & H3 & H4 & H5 & H6)
       |(_ & [Hout|[Hout|[Hout|Hout]]])];
    rewrite Hout; try (rewrite Hclosed by (intros; discriminate); reflexivity);
    [|exact Hout].
  fold set ks. rewrite CleanupAOF_open. fold set.
  rewrite H1, H2. cbn [negb]. rewrite decodable_Encoded.
  assert (Hks : filter (λ cmd, kept set cmd = true) ks = ks).
  { unfold ks. apply list_filter_filter_l. auto. }
  assert (Hagain : fst (CleanupAOF_loop (fs EncodeTemp) set (map Encoded ks) [])
                   = CleanupDone).
  { destruct (fs EncodeTemp).
    - rewrite CleanupAOF_loop_kept; [reflexivity|].
      apply Forall_forall. intros cmd [Hkept _]%list_elem_of_filter. exact Hkept.
    - apply CleanupAOF_loop_nothing_kept in Hloop. change (ks = []) in Hloop.
      rewrite Hloop. reflexivity. }
  rewrite Hagain, Hks. unfold CleanupAOF_swap. rewrite H3, H4, H5, H6. reflexivity.
Qed.

(** ** Recovery *)

Lemma replayed_live_reads clk w :
  replayed_live clk w → replayed_live clk (set_reads (S (reads w)) w).
Proof.
  intros [Hclk Hlive]. split; [exact Hclk|].
  intros i data k e Hi Hk.
  destruct (Hlive i data k e Hi Hk) as [?|(n & Hn & Hlt)]; [left; assumption|].
  right. exists n. simpl. split; [lia|exact Hlt].
Qed.

Lemma replayed_live_slot clk i slot w :
  replayed_live clk w →
  replayed_live clk (set_timeWheel (set_slot i slot (timeWheel w)) w).
Proof. intros H; exact H. Qed.

Lemma replayed_live_delete clk w i key data :
  replayed_live clk w → shards w !! i = Some data →
  replayed_live clk (set_shards (<[i := delete key data]> (shards w)) w).
Proof.
  intros [Hclk Hlive] Hdata. split; [exact Hclk|].
  intros j data' k e Hj Hk. cbn [shards set_shards reads] in *.
  destruct (decide (j = i)) as [->|Hne].
  - rewrite list_lookup_insert_eq in Hj by (eapply lookup_lt_Some; eauto).
    injection Hj as <-.
    apply lookup_delete_Some in Hk as [_ Hk]. eapply Hlive; eauto.
  - rewrite list_lookup_insert_ne in Hj by congruence. eapply Hlive; eauto.
Qed.

Lemma replayed_live_insert clk w i key e data :
  replayed_live clk w → shards w !! i = Some data →
  (ExpiresAt e = 0 ∨ ∃ n, (n < reads w)%nat ∧ Unix (clk n) < ExpiresAt e) →
  replayed_live clk (set_shards (<[i := <[key := e]> data]> (shards w)) w).
Proof.
  intros [Hclk Hlive] Hdata He. split; [exact Hclk|].
  intros j data' k e' Hj Hk. cbn [shards set_shards reads] in *.
  destruct (decide (j = i)) as [->|Hne].
  - rewrite list_lookup_insert_eq in Hj by (eapply lookup_lt_Some; eauto).
    injection Hj as <-.
    destruct (decide (k = key)) as [->|Hk'].
    + rewrite lookup_insert_eq in Hk. injection Hk as <-. exact He.
    + rewrite lookup_insert_ne in Hk by congruence. eapply Hlive; eauto.
  - rewrite list_lookup_insert_ne in Hj by congruence. eapply Hlive; eauto.
Qed.

Lemma replayed_live_apply clk cmd :
  preserves (replayed_live clk) (loadFromDisk_apply cmd).
Proof.
  pose proof (preserves_TimeWheel_Add (replayed_live clk)
                (replayed_live_reads clk) (replayed_live_slot clk)) as HAdd.
  intros w Hw. unfold loadFromDisk_apply.
  destruct cmd as [|c0 [|c1 [|c2 [|c3 [|c4 cmd]]]]]; try exact Hw.
  - destruct (iface_eq_string c0 "DEL"); [|exact Hw].
    destruct c1 as [key| |]; try exact Hw.
    unfold_M. destruct (shards w !! getShard key) as [data|] eqn:Hdata; [|exact Hw].
    apply replayed_live_delete; assumption.
  - destruct (iface_eq_string c0 "SET"); [|exact Hw].
    destruct c1 as [key| |], c2 as [value| |], c3 as [|exp|]; try exact Hw.
    unfold mbind at 1, M_bind at 1.
    destruct (Z.eqb_spec exp 0) as [->|Hexp].
    + cbn [mret M_ret]. unfold mbind at 1, M_bind at 1, shard_Data.
      destruct (shards w !! getShard key) as [data|] eqn:Hdata; [|exact Hw].
      unfold mbind at 1, M_bind at 1, shard_store, modify.
      apply HAdd, replayed_live_insert; [exact Hw|exact Hdata|left; reflexivity].
    + unfold mbind at 1, M_bind at 1, time_Now, mret, M_ret.
      pose proof (replayed_live_reads clk w Hw) as Hw'.
      destruct (Z.ltb_spec (Unix (clock w (reads w))) exp) as [Hlt|Hge];
        [|exact Hw'].
      unfold mbind at 1, M_bind at 1, shard_Data. cbn [shards set_reads].
      destruct (shards w !! getShard key) as [data|] eqn:Hdata; [|exact Hw'].
      unfold mbind at 1, M_bind at 1, shard_store, modify.
      apply HAdd, replayed_live_insert; [exact Hw'|exact Hdata|].
      right. exists (reads w). simpl. split; [lia|].
      destruct Hw as [<- _]. exact Hlt.
Qed.

Lemma replayed_live_recovery clk file :
  replayed_live clk (world_of (NewGoCacheUsecase clk file)).
Proof.
  assert (H0 : replayed_live clk (fresh clk)).
  { split; [reflexivity|]. intros i data k e Hi Hk.
    unfold fresh in Hi; cbn [shards] in Hi.
    apply lookup_replicate in Hi as [-> _]. rewrite lookup_empty in Hk. discriminate. }
  unfold NewGoCacheUsecase. destruct file as [file|]; [|exact H0].
  simpl. revert H0. generalize (fresh clk).
  induction file as [|[cmd|] rest IH]; intros w Hw; simpl; try exact Hw.
  pose proof (replayed_live_apply clk cmd w Hw) as H1.
  unfold mbind, M_bind. destruct (loadFromDisk_apply cmd w) as [[] w1|w1]; simpl in H1.
  - apply IH, H1.
  - exact H1.
Qed.

Lemma Unix_mono t1 t2 : t1 <= t2 → Unix t1 <= Unix t2.
Proof. intros H. unfold Unix. apply Z.div_le_mono; unfold Second; lia. Qed.

(** Replaying one written record, whatever the clock does: the entry of
    its key changes as [replay_record] says at the second that is read,
    and no other entry changes. *)
Lemma loadFromDisk_apply_at w cmd :
  wf w → written cmd →
  ∃ w',
    loadFromDisk_apply cmd w = Done tt w'
    ∧ wf w' ∧ clock w' = clock w ∧ (reads w <= reads w')%nat
    ∧ ∀ k, entry_of w' k
           = if decide (record_key cmd = Some k)
             then replay_record (Unix (clock w (reads w))) (entry_of w k) cmd
             else entry_of w k.
Proof.
  intros Hwf [(key & value & exp & ->)|(key & ->)].
  - destruct (loadFromDisk_apply_SET w key value exp Hwf)
      as (data & w' & Hdata & Hrun & Hwf' & Hclock & Hreads & Hcases).
    exists w'. split; [exact Hrun|]. split; [exact Hwf'|].
    split; [exact Hclock|]. split; [exact Hreads|].
    assert (Hlt : (getShard key < length (shards w))%nat)
      by (eapply lookup_lt_Some; eauto).
    unfold live_at in Hcases. cbn [ExpiresAt] in Hcases.
    intros k. cbn [record_key SET_record].
    change (iface_eq_string (VString "SET") "SET") with true.
    cbv iota. unfold replay_record, SET_record.
    destruct Hcases as [(Hlive & Hsh & _)|(Hdead & Hsh)].
    + assert (Hb : (exp =? 0) || (Unix (clock w (reads w)) <? exp) = true).
      { apply orb_true_iff. rewrite Z.eqb_eq, Z.ltb_lt. exact Hlive. }
      rewrite Hb. unfold entry_of. rewrite Hsh.
      destruct (decide (Some key = Some k)) as [[= <-]|Hne].
      * rewrite list_lookup_insert_eq by exact Hlt. simpl. apply lookup_insert_eq.
      * eapply entry_of_store_ne; [exact Hdata|].
        apply lookup_insert_ne. congruence.
    + assert (Hb : (exp =? 0) || (Unix (clock w (reads w)) <? exp) = false).
      { apply not_true_is_false. rewrite orb_true_iff, Z.eqb_eq, Z.ltb_lt. exact Hdead. }
      rewrite Hb. unfold entry_of. rewrite Hsh.
      destruct (decide (Some key = Some k)); reflexivity.
  - destruct (loadFromDisk_apply_DEL w key Hwf) as (data & Hdata & Hrun).
    eexists. split; [exact Hrun|]. split; [apply wf_set_shards, Hwf|].
    split; [reflexivity|]. split; [reflexivity|].
    assert (Hlt : (getShard key < length (shards w))%nat)
      by (eapply lookup_lt_Some; eauto).
    intros k. cbn [record_key DEL_record].
    change (iface_eq_string (VString "DEL") "DEL") with true.
    cbv iota. unfold replay_record, DEL_record.
    unfold entry_of. cbn [shards set_shards].
    destruct (decide (Some key = Some k)) as [[= <-]|Hne].
    + rewrite list_lookup_insert_eq by exact Hlt. simpl. apply lookup_delete_eq.
    + eapply entry_of_store_ne; [exact Hdata|].
      apply lookup_delete_ne. congruence.
Qed.

(** Replay of a log in two parts. *)
Lemma loadFromDisk_loop_split w pre post :
  wf w → Forall written pre →
  ∃ w1,
    loadFromDisk_loop (map Encoded pre) w = Done tt w1
    ∧ wf w1 ∧ clock w1 = clock w ∧ (reads w <= reads w1)%nat
    ∧ loadFromDisk_loop (map Encoded (pre ++ post)) w
      = loadFromDisk_loop (map Encoded post) w1.
Proof.
  intros Hwf Hall. revert w Hwf.
  induction Hall as [|cmd pre Hcmd _ IH]; intros w Hwf.
  - exists w. simpl. auto.
  - destruct (loadFromDisk_apply_at w cmd Hwf Hcmd)
      as (w0 & Hrun0 & Hwf0 & Hclock0 & Hreads0 & _).
    destruct (IH w0 Hwf0) as (w1 & Hrun1 & Hwf1 & Hclock1 & Hreads1 & Happ).
    exists w1. simpl. unfold mbind, M_bind. rewrite Hrun0.
    split; [exact Hrun1|]. split; [exact Hwf1|].
    split; [congruence|]. split; [lia|exact Happ].
Qed.

(** Records of other keys leave the entry of a key alone. *)
Lemma loadFromDisk_loop_frame k w cmds :
  wf w → Forall written cmds → records_of k cmds = [] →
  ∃ w',
    loadFromDisk_loop (map Encoded cmds) w = Done tt w'
    ∧ wf w' ∧ clock w' = clock w ∧ (reads w <= reads w')%nat
    ∧ entry_of w' k = entry_of w k.
Proof.
  intros Hwf Hall. revert w Hwf.
  induction Hall as [|cmd cmds Hcmd _ IH]; intros w Hwf Hnone.
  - exists w. simpl. auto.
  - destruct (decide (record_key cmd = Some k)) as [Hk|Hk].
    { rewrite records_of_cons_eq in Hnone by exact Hk. discriminate. }
    rewrite records_of_cons_ne in Hnone by exact Hk.
    destruct (loadFromDisk_apply_at w cmd Hwf Hcmd)
      as (w0 & Hrun0 & Hwf0 & Hclock0 & Hreads0 & Hentry0).
    destruct (IH w0 Hwf0 Hnone) as (w' & Hrun & Hwf' & Hclock & Hreads & Hentry).
    exists w'. simpl. unfold mbind, M_bind. rewrite Hrun0.
    split; [exact Hrun|]. split; [exact Hwf'|].
    split; [congruence|]. split; [lia|].
    rewrite Hentry, Hentry0. rewrite decide_False by exact Hk. reflexivity.
Qed.

(** The entry of a key after replay is decided by the last record of the
    key, at the second read when that record is replayed, and by the entry
    that the records before it had built. *)
Lemma loadFromDisk_loop_last k w pre r post :
  wf w → Forall written (pre ++ r :: post) →
  record_key r = Some k → records_of k post = [] →
  ∃ w_pre w',
    loadFromDisk_loop (map Encoded pre) w = Done tt w_pre
    ∧ loadFromDisk_loop (map Encoded (pre ++ r :: post)) w = Done tt w'
    ∧ (reads w <= reads w_pre)%nat ∧ (reads w_pre <= reads w')%nat
    ∧ entry_of w' k
      = replay_record (Unix (clock w (reads w_pre))) (entry_of w_pre k) r.
Proof.
  intros Hwf Hall Hr Hpost.
  apply Forall_app in Hall as [Hpre Hall].
  apply Forall_cons in Hall as [Hwr Hwpost].
  destruct (loadFromDisk_loop_split w pre (r :: post) Hwf Hpre)
    as (w_pre & Hrun_pre & Hwf_pre & Hclock_pre & Hreads_pre & Happ).
  destruct (loadFromDisk_apply_at w_pre r Hwf_pre Hwr)
    as (w1 & Hrun1 & Hwf1 & Hclock1 & Hreads1 & Hentry1).
  destruct (loadFromDisk_loop_frame k w1 post Hwf1 Hwpost Hpost)
    as (w' & Hrun' & _ & _ & Hreads' & Hentry').
  exists w_pre, w'. split; [exact Hrun_pre|]. split.
  { rewrite Happ. simpl. unfold mbind, M_bind. rewrite Hrun1. exact Hrun'. }
  split; [exact Hreads_pre|]. split; [lia|].
  rewrite Hentry', Hentry1, decide_True by exact Hr.
  rewrite Hclock_pre. reflexivity.
Qed.

(** Recovery invents nothing: every entry comes from a SET record of its
    key in the log. *)
Lemma loadFromDisk_loop_provenance w seen cmds :
  wf w → Forall written cmds →
  (∀ k e, entry_of w k = Some e → SET_record k (Value e) (ExpiresAt e) ∈ seen) →
  ∃ w',
    loadFromDisk_loop (map Encoded cmds) w = Done tt w'
    ∧ ∀ k e, entry_of w' k = Some e →
             SET_record k (Value e) (ExpiresAt e) ∈ seen ++ cmds.
Proof.
  intros Hwf Hall. revert w seen Hwf.
  induction Hall as [|cmd cmds Hcmd _ IH]; intros w seen Hwf Hseen.
  - exists w. split; [reflexivity|]. intros k e He. rewrite app_nil_r. auto.
  - destruct (loadFromDisk_apply_at w cmd Hwf Hcmd)
      as (w0 & Hrun0 & Hwf0 & _ & _ & Hentry0).
    destruct (IH w0 (seen ++ [cmd]) Hwf0) as (w' & Hrun & Hfrom).
    { intros k e He. rewrite Hentry0 in He. apply elem_of_app.
      destruct (decide (record_key cmd = Some k)) as [Hk|Hk]; [|left; auto].
      destruct Hcmd as [(key & value & exp & ->)|(key & ->)];
        unfold replay_record, SET_record, DEL_record in He;
        [|discriminate].
      assert (key = k) as -> by (simpl in Hk; congruence).
      destruct ((exp =? 0) || _); [|left; auto].
      injection He as <-. right. apply list_elem_of_singleton. reflexivity. }
    exists w'. simpl. unfold mbind, M_bind. rewrite Hrun0.
    split; [exact Hrun|]. intros k e He.
    specialize (Hfrom k e He). rewrite <- app_assoc in Hfrom. exact Hfrom.
Qed.

(** C4, as the code has it.  Recovery from a log of written records
    returns, and the entry it leaves for a key is decided by the last
    record of that key and by the second [now] that the clock shows when
    that record is replayed: no record, or a last record that is a DEL,
    leaves no entry; a last record [["SET", key, value, exp]] leaves
    [value] with [expires_at = exp] exactly when [exp = 0] or [exp > now],
    and otherwise the entry that the records before it had built.  Every
    entry comes from a SET record of its key, sits in the shard of the key,
    and has [expires_at = 0] or [expires_at] later than one of the seconds
    read during recovery.  Under a clock that does not go backwards every
    entry has [expires_at = 0] or [expires_at] later than the second at
    which recovery started; so if recovery ends within the second in which
    it started, no entry has [0 < expires_at <= now()]. *)
Theorem recovery_applies_records clk cmds :
  Forall written cmds →
  ∃ w,
    NewGoCacheUsecase clk (Some (map Encoded cmds)) = Done tt w
    ∧ wf w ∧ keys_at_home w
    ∧ (∀ k, records_of k cmds = [] → entry_of w k = None)
    ∧ (∀ k pre post,
         cmds = pre ++ DEL_record k :: post → records_of k post = [] →
         entry_of w k = None)
    ∧ (∀ k value exp pre post,
         cmds = pre ++ SET_record k value exp :: post → records_of k post = [] →
         ∃ w_pre,
           NewGoCacheUsecase clk (Some (map Encoded pre)) = Done tt w_pre
           ∧ (reads w_pre <= reads w)%nat
           ∧ let now := Unix (clk (reads w_pre)) in
             (exp = 0 ∨ now < exp →
              entry_of w k = Some (mkCacheItem value exp))
             ∧ (0 < exp <= now → entry_of w k = entry_of w_pre k))
    ∧ (∀ k e, entry_of w k = Some e →
         SET_record k (Value e) (ExpiresAt e) ∈ cmds
         ∧ (ExpiresAt e = 0
            ∨ ∃ n, (n < reads w)%nat ∧ Unix (clk n) < ExpiresAt e))
    ∧ (monotone clk →
       ∀ k e, entry_of w k = Some e →
         (ExpiresAt e = 0 ∨ Unix (clk 0%nat) < ExpiresAt e)
         ∧ (Unix (clk (reads w)) = Unix (clk 0%nat) →
            ¬ (0 < ExpiresAt e ∧ ExpiresAt e <= Unix (clk (reads w))))).
Proof.
  intros Hall.
  destruct (loadFromDisk_loop_written (fresh clk) cmds (wf_fresh clk) Hall)
    as (w & Hrun & Hwf).
  assert (Hlive : ∀ k e, entry_of w k = Some e →
                    ExpiresAt e = 0
                    ∨ ∃ n, (n < reads w)%nat ∧ Unix (clk n) < ExpiresAt e).
  { intros k e He.
    pose proof (replayed_live_recovery clk (Some (map Encoded cmds))) as [_ Hl].
    unfold NewGoCacheUsecase, loadFromDisk in Hl. rewrite Hrun in Hl. simpl in Hl.
    unfold entry_of in He.
    destruct (shards w !! getShard k) as [data|] eqn:Hdata; [|discriminate].
    simpl in He. exact (Hl _ _ _ _ Hdata He). }
  exists w. split; [exact Hrun|]. split; [exact Hwf|]. split.
  { pose proof (keys_at_home_lifetime clk (Some (map Encoded cmds)) []) as Hhome.
    unfold lifetime, loadFromDisk, mbind, M_bind in Hhome.
    rewrite Hrun in Hhome. exact Hhome. }
  split.
  { intros k Hk.
    destruct (loadFromDisk_loop_frame k (fresh clk) cmds (wf_fresh clk) Hall Hk)
      as (w' & Hrun' & _ & _ & _ & Hentry).
    assert (w' = w) as -> by congruence.
    rewrite Hentry. apply entry_of_fresh. }
  split.
  { intros k pre post -> Hpost.
    destruct (loadFromDisk_loop_last k (fresh clk) pre (DEL_record k) post
                (wf_fresh clk) Hall eq_refl Hpost)
      as (w_pre & w' & _ & Hrun' & _ & _ & Hentry).
    assert (w' = w) as -> by congruence.
    rewrite Hentry. reflexivity. }
  split.
  { intros k value exp pre post -> Hpost.
    destruct (loadFromDisk_loop_last k (fresh clk) pre (SET_record k value exp) post
                (wf_fresh clk) Hall eq_refl Hpost)
      as (w_pre & w' & Hrun_pre & Hrun' & _ & Hreads & Hentry).
    assert (w' = w) as -> by congruence.
    exists w_pre. split; [exact Hrun_pre|]. split; [exact Hreads|].
    cbn [fresh clock] in Hentry. cbv zeta.
    unfold replay_record, SET_record in Hentry. split.
    - intros Hnow. rewrite Hentry.
      assert (Hb : (exp =? 0) || (Unix (clk (reads w_pre)) <? exp) = true)
        by (apply orb_true_iff; rewrite Z.eqb_eq, Z.ltb_lt; exact Hnow).
      rewrite Hb. reflexivity.
    - intros Hnow. rewrite Hentry.
      assert (Hb : (exp =? 0) || (Unix (clk (reads w_pre)) <? exp) = false).
      { apply not_true_is_false. rewrite orb_true_iff, Z.eqb_eq, Z.ltb_lt. lia. }
      rewrite Hb. reflexivity. }
  split.
  { intros k e He. split; [|apply Hlive with k; exact He].
    destruct (loadFromDisk_loop_provenance (fresh clk) [] cmds (wf_fresh clk) Hall)
      as (w' & Hrun' & Hfrom).
    { intros k' e' He'. rewrite entry_of_fresh in He'. discriminate. }
    assert (w' = w) as -> by congruence.
    apply (Hfrom k e He). }
  intros Hmono k e He.
  assert (Hstart : ExpiresAt e = 0 ∨ Unix (clk 0%nat) < ExpiresAt e).
  { destruct (Hlive k e He) as [?|(n & _ & Hn)]; [left; assumption|].
    right. assert (Unix (clk 0%nat) <= Unix (clk n)); [|lia].
    apply Unix_mono, Hmono. lia. }
  split; [exact Hstart|].
  intros Hsame [Hpos Hle]. destruct Hstart; lia.
Qed.

(** Under a clock that moves on by a second with every reading: the DEL
    record of "b" removes it, the last SET record of "a" had expired and
    leaves the older value, and "c" is stored although second 1003, at
    which its record is read, is past the start of recovery. *)
Lemma recovery_applies_records_witness :
  ∃ w,
    NewGoCacheUsecase ticking
      (Some (map Encoded [SET_record "a" "old" 0; SET_record "b" "2" 0;
                          SET_record "a" "new" 900; DEL_record "b";
                          SET_record "c" "3" 2000])) = Done tt w
    ∧ entry_of w "a" = Some (mkCacheItem "old" 0)
    ∧ entry_of w "b" = None
    ∧ entry_of w "c" = Some (mkCacheItem "3" 2000).
Proof.
  destruct (recovery_applies_records ticking
              [SET_record "a" "old" 0; SET_record "b" "2" 0;
               SET_record "a" "new" 900; DEL_record "b"; SET_record "c" "3" 2000])
    as (w & Hrun & _ & _ & _ & HDEL & HSET & _).
  - repeat (constructor; [first [left; do 3 eexists; reflexivity
                                |right; eexists; reflexivity]|]).
    constructor.
  - exists w. split; [exact Hrun|]. split; [|split].
    + destruct (HSET "a" "new" 900 [SET_record "a" "old" 0; SET_record "b" "2" 0]
                  [DEL_record "b"; SET_record "c" "3" 2000] eq_refl eq_refl)
        as (w_pre & Hpre & _ & _ & Hdead).
      assert (Hw : w_pre = world_of (NewGoCacheUsecase ticking
                      (Some (map Encoded [SET_record "a" "old" 0; SET_record "b" "2" 0]))))
        by (rewrite Hpre; reflexivity).
      rewrite Hdead; rewrite Hw; vm_compute; [reflexivity|].
      split; [reflexivity|discriminate].
    + apply (HDEL "b" [SET_record "a" "old" 0; SET_record "b" "2" 0;
                       SET_record "a" "new" 900] [SET_record "c" "3" 2000]);
        reflexivity.
    + destruct (HSET "c" "3" 2000
                  [SET_record "a" "old" 0; SET_record "b" "2" 0;
                   SET_record "a" "new" 900; DEL_record "b"] [] eq_refl eq_refl)
        as (w_pre & Hpre & _ & Hlive & _).
      apply Hlive. right.
      assert (Hw : w_pre = world_of (NewGoCacheUsecase ticking
                      (Some (map Encoded [SET_record "a" "old" 0; SET_record "b" "2" 0;
                                          SET_record "a" "new" 900; DEL_record "b"]))))
        by (rewrite Hpre; reflexivity).
      rewrite Hw. vm_compute. reflexivity.
Defined.

(** C4 as stated fails when the clock moves on during recovery.  The
    record of "a" expires at second 1001 and is replayed at second 1000,
    so it is stored; the test is not made again, and when recovery is over,
    at second 1002, the cache holds an entry with
    [0 < expires_at <= now()]. *)
Lemma recovery_keeps_entry_expiring_meanwhile :
  ∃ w,
    NewGoCacheUsecase ticking (Some [Encoded (SET_record "a" "1" 1001)]) = Done tt w
    ∧ entry_of w "a" = Some (mkCacheItem "1" 1001)
    ∧ Unix (clock w (reads w)) = 1002
    ∧ 0 < 1001 <= Unix (clock w (reads w)).
Proof.
  eexists. split; [vm_compute; reflexivity|].
  split; [vm_compute; reflexivity|].
  split; [vm_compute; reflexivity|].
  vm_compute. split; [reflexivity|discriminate].
Qed.

(** C5, as the code has it.  A stretch of the log that the decoder rejects
    (garbage, or a record cut short) ends replay as the end of the file
    would: recovery returns with exactly the state built from what came
    before, and it does return when what came before are written records.
    A command that decodes but is neither a 4-element SET nor a 2-element
    DEL does not end replay: it is passed over and the records after it are
    applied. *)
Theorem decode_error_stops_replay :
  stops_replay Undecodable
  ∧ (∀ clk cmds rest,
       Forall written cmds →
       ∃ w,
         NewGoCacheUsecase clk (Some (map Encoded cmds ++ Undecodable :: rest))
         = Done tt w
         ∧ NewGoCacheUsecase clk (Some (map Encoded cmds)) = Done tt w
         ∧ wf w)
  ∧ (∀ cmd,
       unrecognized cmd →
       ∀ clk pre rest,
         NewGoCacheUsecase clk (Some (pre ++ Encoded cmd :: rest))
         = NewGoCacheUsecase clk (Some (pre ++ rest))).
Proof.
  split; [|split].
  - intros clk pre rest. unfold NewGoCacheUsecase, loadFromDisk.
    rewrite loadFromDisk_loop_Undecodable. reflexivity.
  - intros clk cmds rest Hall. unfold NewGoCacheUsecase, loadFromDisk.
    rewrite loadFromDisk_loop_Undecodable.
    destruct (loadFromDisk_loop_written (fresh clk) cmds (wf_fresh clk) Hall)
      as (w & Hrun & Hwf).
    exists w. auto.
  - intros cmd Hcmd clk pre rest. unfold NewGoCacheUsecase, loadFromDisk.
    apply loadFromDisk_loop_unrecognized, Hcmd.
Qed.

Lemma decode_error_stops_replay_witness :
  ∃ w,
    NewGoCacheUsecase frozen
      (Some (map Encoded [SET_record "a" "1" 0; DEL_record "b"]
             ++ Undecodable :: [Encoded (SET_record "c" "3" 0)]))
    = Done tt w
    ∧ entry_of w "a" = Some (mkCacheItem "1" 0)
    ∧ entry_of w "c" = None.
Proof.
  destruct decode_error_stops_replay as (_ & Hdone & _).
  destruct (Hdone frozen [SET_record "a" "1" 0; DEL_record "b"]
              [Encoded (SET_record "c" "3" 0)]) as (w & Hrun & Hsame & _).
  - constructor; [left; exists "a", "1", 0; reflexivity|].
    constructor; [right; exists "b"; reflexivity|]. constructor.
  - exists w. split; [exact Hrun|].
    assert (Hw : w = world_of (NewGoCacheUsecase frozen
                   (Some (map Encoded [SET_record "a" "1" 0; DEL_record "b"]))))
      by (rewrite Hsame; reflexivity).
    rewrite Hw. split; vm_compute; reflexivity.
Defined.

(** C5 as stated fails for commands that decode: after the unrecognized
    command [["PING"]] replay goes on, and the SET record behind it is
    applied. *)
Lemma unrecognized_record_does_not_stop_replay :
  unrecognized [VString "PING"]
  ∧ ¬ stops_replay (Encoded [VString "PING"]).
Proof.
  split; [exact I|].
  intros Hstop.
  specialize (Hstop frozen [] [Encoded (SET_record "a" "1" 0)]).
  apply (f_equal (λ o, entry_of (world_of o) "a")) in Hstop.
  vm_compute in Hstop. discriminate.
Qed.

(** * Further properties of the code *)

(** ** Foreground path *)

(** X1.  After [Delete] the key is gone: on a well-formed state [Delete]
    returns nil, and the [Get] that follows answers [ErrKeyNotFound]
    without reading the clock or changing anything. *)
Theorem Get_after_Delete w key :
  wf w →
  ∃ w1,
    Delete key w = Done err_nil w1
    ∧ entry_of w1 key = None
    ∧ Get key w1 = Done ("", ErrKeyNotFound) w1.
Proof.
  intros Hwf.
  destruct (wf_shard_Some w key Hwf) as [data Hdata].
  assert (Hlt : (getShard key < length (shards w))%nat)
    by (eapply lookup_lt_Some; eauto).
  eexists. split; [apply Delete_run, Hdata|].
  assert (Hsh : shards (set_repo (repo w ++ [DEL_record key])
                          (set_shards (<[getShard key := delete key data]> (shards w)) w))
                !! getShard key = Some (delete key data)).
  { cbn [shards set_repo set_shards]. apply list_lookup_insert_eq, Hlt. }
  split.
  - unfold entry_of. rewrite Hsh. simpl. apply lookup_delete_eq.
  - unfold Get. unfold_M. rewrite Hsh. rewrite lookup_delete_eq. reflexivity.
Qed.

Lemma Get_after_Delete_witness :
  ∃ w1,
    Delete "a" (world_of (Set_ "a" "1" (5 * Second) (fresh frozen))) = Done err_nil w1
    ∧ entry_of w1 "a" = None
    ∧ Get "a" w1 = Done ("", ErrKeyNotFound) w1.
Proof.
  apply (Get_after_Delete (world_of (Set_ "a" "1" (5 * Second) (fresh frozen))) "a").
  apply (wf_same_shape _ _ (wf_fresh frozen)); vm_compute; reflexivity.
Defined.

(** X2.  [Get] is a read with one side effect only, the removal of the
    entry it finds expired: it never writes to the log, never touches the
    wheel or the entry of another key; and when it returns a value, that
    value is the stored one, its expiry second is not before the second
    read from the clock, and no shard has changed. *)
Theorem Get_frame w key :
  repo (world_of (Get key w)) = repo w
  ∧ timeWheel (world_of (Get key w)) = timeWheel w
  ∧ (∀ k, k ≠ key → entry_of (world_of (Get key w)) k = entry_of w k)
  ∧ (∀ v w', Get key w = Done (v, err_nil) w' →
       shards w' = shards w
       ∧ ∃ e, entry_of w key = Some e ∧ Value e = v
              ∧ Unix (clock w (reads w)) <= ExpiresAt e).
Proof.
  unfold Get. unfold_M.
  destruct (shards w !! getShard key) as [data|] eqn:Hdata;
    [|repeat split; try reflexivity; discriminate].
  destruct (data !! key) as [e|] eqn:He;
    [|repeat split; try reflexivity; discriminate].
  destruct (Z.ltb_spec (ExpiresAt e) (Unix (clock w (reads w)))) as [Hlt|Hge].
  - repeat split; try reflexivity; try discriminate.
    intros k Hk. unfold entry_of. cbn [world_of shards set_shards set_reads].
    eapply entry_of_store_ne; [exact Hdata|].
    apply lookup_delete_ne. congruence.
  - repeat split; try reflexivity.
    + injection H as <- <-. reflexivity.
    + injection H as <- <-. exists e. unfold entry_of. rewrite Hdata. simpl.
      rewrite He. auto.
Qed.

Lemma Get_frame_witness :
  ∃ w', Get "a" (world_of (Set_ "a" "1" (5 * Second) (fresh frozen)))
        = Done ("1", err_nil) w'
        ∧ shards w' = shards (world_of (Set_ "a" "1" (5 * Second) (fresh frozen))).
Proof.
  destruct (Get_frame (world_of (Set_ "a" "1" (5 * Second) (fresh frozen))) "a")
    as (_ & _ & _ & H).
  eexists. split; [vm_compute; reflexivity|].
  eapply H. vm_compute. reflexivity.
Defined.

Lemma Get_after_Set_with_ttl_witness :
  ∃ w1,
    Set_ "a" "1" (5 * Second) (fresh ticking) = Done err_nil w1
    ∧ ∃ w2, Get "a" w1 = Done ("1", err_nil) w2.
Proof.
  destruct (Get_after_Set_with_ttl (fresh ticking) "a" "1" (5 * Second))
    as (w1 & Hset & w2 & Hget).
  - apply wf_fresh.
  - vm_compute. reflexivity.
  - exists w1. split; [exact Hset|]. exists w2. exact Hget.
Defined.

(** ** Recovery and compaction on damaged or foreign logs *)

(** X4.  A decoded 4-element command tagged SET whose key or value is not
    a string, or whose expiry is not an int64, makes recovery panic at that
    command: nothing of it is applied and the state is the one built from
    the commands before it. *)
Theorem loadFromDisk_ill_typed_SET c1 c2 c3 pre rest w :
  (∀ key value exp, (c1, c2, c3) ≠ (VString key, VString value, VInt64 exp)) →
  loadFromDisk_apply [VString "SET"; c1; c2; c3] w = Panic w
  ∧ (∀ w', loadFromDisk_loop (map Encoded pre) w = Done tt w' →
       loadFromDisk_loop (map Encoded pre ++ Encoded [VString "SET"; c1; c2; c3] :: rest) w
       = Panic w').
Proof.
  intros Hbad.
  assert (Happly : ∀ w0, loadFromDisk_apply [VString "SET"; c1; c2; c3] w0 = Panic w0).
  { intros w0. unfold loadFromDisk_apply.
    change (iface_eq_string (VString "SET") "SET") with true. cbv iota.
    destruct c1 as [key| |], c2 as [value| |], c3 as [|exp|]; try reflexivity.
    exfalso. apply (Hbad key value exp). reflexivity. }
  split; [apply Happly|].
  revert w. induction pre as [|cmd pre IH]; intros w w' Hrun; simpl in *.
  - injection Hrun as <-. unfold mbind, M_bind. rewrite Happly. reflexivity.
  - unfold mbind, M_bind in *.
    destruct (loadFromDisk_apply cmd w) as [[] w1|w1]; [|discriminate].
    apply IH, Hrun.
Qed.

Lemma loadFromDisk_ill_typed_SET_witness :
  NewGoCacheUsecase frozen
    (Some [Encoded (SET_record "a" "1" 0);
           Encoded [VString "SET"; VString "b"; VString "2"; VString "never"];
           Encoded (SET_record "c" "3" 0)])
  = Panic (world_of (NewGoCacheUsecase frozen (Some [Encoded (SET_record "a" "1" 0)]))).
Proof.
  destruct (loadFromDisk_ill_typed_SET (VString "b") (VString "2") (VString "never")
              [SET_record "a" "1" 0] [Encoded (SET_record "c" "3" 0)] (fresh frozen))
    as [_ H].
  - intros key value exp. discriminate.
  - apply H. vm_compute. reflexivity.
Defined.

Lemma filter_kept_written expiredKeys cmds :
  Forall written cmds →
  filter (λ cmd, kept (mkExpiredKeySet expiredKeys) cmd = true) cmds
  = filter (λ cmd, ¬ record_expired expiredKeys cmd) cmds.
Proof.
  induction 1 as [|cmd cmds Hcmd _ IH]; [reflexivity|].
  assert (Hiff : kept (mkExpiredKeySet expiredKeys) cmd = true
                 ↔ ¬ record_expired expiredKeys cmd).
  { unfold kept, record_expired.
    destruct Hcmd as [(key & value & exp & ->)|(key & ->)]; simpl;
      rewrite negb_true_iff, <- not_true_iff_false, expired_mkExpiredKeySet;
      reflexivity. }
  destruct (decide (record_expired expiredKeys cmd)) as [He|He].
  - rewrite filter_cons_False by (rewrite Hiff; tauto).
    rewrite (filter_cons_False (λ cmd, ¬ record_expired expiredKeys cmd)) by tauto.
    exact IH.
  - rewrite filter_cons_True by (rewrite Hiff; exact He).
    rewrite (filter_cons_True (λ cmd, ¬ record_expired expiredKeys cmd)) by exact He.
    rewrite IH. reflexivity.
Qed.

(** On a log of written records, if the calls up to the copy loop
    succeed, [CleanupAOF] gets as far as the swap, with a temporary file
    that holds the log without the records of the expired keys. *)
Lemma CleanupAOF_on_written fs expiredKeys cmds :
  Forall written cmds →
  fs CreateTemp = true → fs SeekStart = true → fs EncodeTemp = true →
  CleanupAOF fs expiredKeys (LogOpen (map Encoded cmds))
  = CleanupAOF_swap fs (map Encoded cmds)
      (map Encoded (filter (λ cmd, ¬ record_expired expiredKeys cmd) cmds)).
Proof.
  intros Hall H1 H2 H3. rewrite CleanupAOF_open, H1, H2, H3. cbn [negb].
  rewrite CleanupAOF_loop_written by exact Hall.
  rewrite decodable_Encoded, filter_kept_written by exact Hall.
  reflexivity.
Qed.

(** X5.  On a log made of the records that [Set_] and [Delete] write, and
    with every call into the file system succeeding, [CleanupAOF] returns
    nil and the new log is exactly the old one without the records of the
    expired keys, the rest in its order; with no expired key the log is
    unchanged.  If the rename of the temporary file is the one call that
    fails, [CleanupAOF] returns its error and no log is left. *)
Theorem CleanupAOF_written fs expiredKeys cmds :
  Forall written cmds →
  ((∀ c, fs c = true) →
   CleanupAOF fs expiredKeys (LogOpen (map Encoded cmds))
   = (CleanupDone,
      LogOpen (map Encoded (filter (λ cmd, ¬ record_expired expiredKeys cmd) cmds)))
   ∧ (expiredKeys = [] →
      CleanupAOF fs expiredKeys (LogOpen (map Encoded cmds))
      = (CleanupDone, LogOpen (map Encoded cmds))))
  ∧ ((∀ c, fs c = cross_device c) →
     CleanupAOF fs expiredKeys (LogOpen (map Encoded cmds))
     = (CleanupIOError RenameTemp, LogGone)).
Proof.
  intros Hall. split.
  - intros Hfs.
    assert (H1 : CleanupAOF fs expiredKeys (LogOpen (map Encoded cmds))
                 = (CleanupDone,
                    LogOpen (map Encoded
                      (filter (λ cmd, ¬ record_expired expiredKeys cmd) cmds)))).
    { rewrite CleanupAOF_on_written by auto.
      unfold CleanupAOF_swap. rewrite !Hfs. reflexivity. }
    split; [exact H1|].
    intros ->. rewrite H1. do 3 f_equal.
    clear H1. induction Hall as [|cmd cmds Hcmd _ IH]; [reflexivity|].
    rewrite filter_cons_True, IH; [reflexivity|].
    unfold record_expired. destruct (record_key cmd); [apply not_elem_of_nil|tauto].
  - intros Hfs.
    rewrite CleanupAOF_on_written by (try exact Hall; rewrite Hfs; reflexivity).
    unfold CleanupAOF_swap. rewrite !Hfs. reflexivity.
Qed.

Lemma CleanupAOF_written_witness :
  CleanupAOF healthy ["b"]
    (LogOpen (map Encoded [SET_record "a" "1" 0; SET_record "b" "2" 1001;
                           DEL_record "b"; DEL_record "a"]))
  = (CleanupDone, LogOpen (map Encoded [SET_record "a" "1" 0; DEL_record "a"])).
Proof.
  destruct (CleanupAOF_written healthy ["b"]
              [SET_record "a" "1" 0; SET_record "b" "2" 1001;
               DEL_record "b"; DEL_record "a"]) as [H _].
  - repeat (constructor; [first [left; do 3 eexists; reflexivity
                                |right; eexists; reflexivity]|]).
    constructor.
  - destruct H as [H _]; [reflexivity|].
    rewrite H. vm_compute. reflexivity.
Defined.

Lemma CleanupAOF_loop_damaged ok set cmds rest temp :
  Forall written cmds →
  fst (CleanupAOF_loop ok set (map Encoded cmds ++ Undecodable :: rest) temp)
  ∈ [CleanupError; CleanupIOError EncodeTemp]
  ∧ (ok = true →
     fst (CleanupAOF_loop ok set (map Encoded cmds ++ Undecodable :: rest) temp)
     = CleanupError).
Proof.
  intros Hall. revert temp.
  induction Hall as [|cmd cmds Hcmd _ IH]; intros temp.
  - simpl. split; [left|reflexivity].
  - cbn [map app]. rewrite CleanupAOF_loop_cons.
    pose proof (classify_written set cmd Hcmd).
    destruct (classify set cmd); [destruct ok| |congruence]; try apply IH.
    split; [right; left|discriminate].
Qed.

(** X6.  Compaction gives up on a damaged log: if an undecodable stretch
    follows the written records, for instance a record cut short by a crash,
    [CleanupAOF] returns an error, the decoder's unless a call into the
    file system has failed before, and leaves the log as it was, records of
    expired keys included, however often it is called. *)
Theorem CleanupAOF_damaged fs expiredKeys cmds rest :
  Forall written cmds →
  let damaged := map Encoded cmds ++ Undecodable :: rest in
  snd (CleanupAOF fs expiredKeys (LogOpen damaged)) = LogOpen damaged
  ∧ fst (CleanupAOF fs expiredKeys (LogOpen damaged)) ≠ CleanupDone
  ∧ (fs CreateTemp = true → fs SeekStart = true → fs EncodeTemp = true →
     CleanupAOF fs expiredKeys (LogOpen damaged) = (CleanupError, LogOpen damaged)).
Proof.
  intros Hall damaged. rewrite CleanupAOF_open.
  destruct (CleanupAOF_loop_damaged (fs EncodeTemp) (mkExpiredKeySet expiredKeys)
              cmds rest [] Hall) as [Hin Hok].
  fold damaged in Hin, Hok.
  destruct (fs CreateTemp); cbn [negb];
    [|split; [reflexivity|split; [discriminate|discriminate]]].
  destruct (fs SeekStart); cbn [negb];
    [|split; [reflexivity|split; [discriminate|discriminate]]].
  apply elem_of_cons in Hin as [Hin|Hin].
  - rewrite Hin. split; [reflexivity|]. split; [discriminate|reflexivity].
  - apply list_elem_of_singleton in Hin. rewrite Hin.
    split; [reflexivity|]. split; [discriminate|].
    intros _ _ Henc. specialize (Hok Henc). congruence.
Qed.

Lemma CleanupAOF_damaged_witness :
  CleanupAOF healthy ["b"]
    (LogOpen (map Encoded [SET_record "b" "2" 1001] ++ Undecodable :: []))
  = (CleanupError, LogOpen (map Encoded [SET_record "b" "2" 1001] ++ Undecodable :: [])).
Proof.
  destruct (CleanupAOF_damaged healthy ["b"] [SET_record "b" "2" 1001] [])
    as (_ & _ & H).
  - constructor; [left; do 3 eexists; reflexivity|constructor].
  - apply H; reflexivity.
Defined.

(** ** RPC adapter *)

(** The entry that [Set_] stores for a positive TTL. *)
Lemma Set_stores_and_logs_aux w key value ttl :
  wf w → 0 < ttl →
  ∃ w1,
    Set_ key value ttl w = Done err_nil w1
    ∧ entry_of w1 key = Some (mkCacheItem value (Unix (clock w (reads w) + ttl))).
Proof.
  intros Hwf Httl.
  destruct (Set_run w key value ttl Hwf ltac:(lia)) as (data & slot & Hdata & _ & Hrun).
  destruct (Z.ltb_spec 0 ttl) as [_|?]; [|lia].
  eexists. split; [exact Hrun|].
  unfold entry_of; cbn [shards].
  rewrite list_lookup_insert_eq by (eapply lookup_lt_Some; eauto). simpl.
  apply lookup_insert_eq.
Qed.

Lemma int64_small z : - 2 ^ 63 <= z < 2 ^ 63 → int64 z = z.
Proof. intros H. unfold int64. rewrite Z.mod_small; lia. Qed.

Lemma Unix_add_seconds t s : Unix (t + s * Second) = Unix t + s.
Proof. unfold Unix. apply Z.div_add. unfold Second. lia. Qed.

(** X7.  Through the RPC adapter TTLs are whole seconds: for
    [1 <= TtlSeconds <= 9223372036] the multiplication by [time.Second]
    does not overflow, [SetString] stores the value with
    [expires_at = now.Unix() + TtlSeconds], and the [GetString] that
    follows returns the value if the second it reads is at most
    [expires_at], and a nil response with [ErrKeyNotFound] otherwise. *)
Theorem SetString_GetString w Key Value_ TtlSeconds :
  wf w → 1 <= TtlSeconds <= 9223372036 →
  let expires_at := Unix (clock w (reads w)) + TtlSeconds in
  let now := Unix (clock w (S (S (reads w)))) in
  ∃ w1 w2,
    SetString Key Value_ TtlSeconds w = Done err_nil w1
    ∧ entry_of w1 Key = Some (mkCacheItem Value_ expires_at)
    ∧ GetString Key w1 =
      Done (if now <=? expires_at then (Some Value_, err_nil)
            else (None, ErrKeyNotFound)) w2.
Proof.
  intros Hwf Hs expires_at now.
  assert (Httl : int64 (int64 TtlSeconds * Second) = TtlSeconds * Second).
  { rewrite (int64_small TtlSeconds) by lia.
    apply int64_small. unfold Second. lia. }
  assert (Hpos : 0 < TtlSeconds * Second) by (unfold Second; lia).
  unfold SetString. cbv zeta. rewrite Httl.
  destruct (Set_stores_and_logs_aux w Key Value_ (TtlSeconds * Second) Hwf Hpos)
    as (w1 & Hset & Hentry).
  destruct (Set_then_Get w Key Value_ (TtlSeconds * Second) Hwf Hpos)
    as (w1' & Hset' & w2 & Hget).
  assert (w1' = w1) as -> by congruence.
  rewrite Unix_add_seconds in Hentry, Hget. fold expires_at now in Hentry, Hget.
  exists w1. eexists. split; [exact Hset|]. split; [exact Hentry|].
  unfold GetString, mbind, M_bind. rewrite Hget.
  destruct (Z.ltb_spec expires_at now) as [Hlt|Hge];
    destruct (Z.leb_spec now expires_at) as [Hle|Hgt]; try lia; reflexivity.
Qed.

Lemma SetString_GetString_witness :
  ∃ w1 w2,
    SetString "a" "1" 5 (fresh ticking) = Done err_nil w1
    ∧ entry_of w1 "a" = Some (mkCacheItem "1" 1005)
    ∧ GetString "a" w1 = Done (Some "1", err_nil) w2.
Proof.
  apply (SetString_GetString (fresh ticking) "a" "1" 5).
  - apply wf_fresh.
  - lia.
Defined.

(** ** No panic on well-formed states *)

Lemma returns_ret {A} (a : A) : returns (mret a).
Proof. intros w Hw. exists a, w. auto. Qed.

Lemma returns_bind {A B} (m : M A) (k : A → M B) :
  returns m → (∀ a, returns (k a)) → returns (m ≫= k).
Proof.
  intros Hm Hk w Hw. destruct (Hm w Hw) as (a & w1 & Hrun & Hw1).
  unfold mbind, M_bind. rewrite Hrun. apply Hk, Hw1.
Qed.

Lemma returns_forM_ {A} (xs : list A) (body : A → M unit) :
  (∀ x, returns (body x)) → returns (forM_ xs body).
Proof.
  intros Hbody. induction xs as [|x xs IH]; simpl.
  - apply returns_ret.
  - apply returns_bind; auto.
Qed.

Lemma returns_foldM {A B} (body : B → A → M B) (xs : list A) (acc : B) :
  (∀ b x, returns (body b x)) → returns (foldM body xs acc).
Proof.
  intros Hbody. revert acc. induction xs as [|x xs IH]; intros acc; simpl.
  - apply returns_ret.
  - apply returns_bind; auto.
Qed.

Lemma returns_time_Now : returns time_Now.
Proof. intros w Hw. eexists _, _. split; [reflexivity|]. apply wf_set_reads, Hw. Qed.

Lemma returns_repo_Write cmd : returns (repo_Write cmd).
Proof. intros w Hw. eexists _, _. split; [reflexivity|]. apply wf_set_repo, Hw. Qed.

Lemma returns_get_world : returns get_world.
Proof. intros w Hw. eexists _, _. split; [reflexivity|exact Hw]. Qed.

Lemma returns_shard_Data key : returns (shard_Data (getShard key)).
Proof.
  intros w Hw. destruct (wf_shard_Some w key Hw) as [data Hdata].
  exists data, w. unfold shard_Data. rewrite Hdata. auto.
Qed.

Lemma returns_shard_store i data : returns (shard_store i data).
Proof. intros w Hw. eexists _, _. split; [reflexivity|]. apply wf_set_shards, Hw. Qed.

Lemma returns_wheel_slot i : 0 <= i < 60 → returns (wheel_slot i).
Proof.
  intros Hi w Hw.
  destruct (lookup_lt_is_Some_2 (slots (timeWheel w)) (Z.to_nat i)) as [slot Hslot].
  { rewrite (wf_slots _ Hw). lia. }
  exists slot, w. unfold wheel_slot.
  destruct (Z.ltb_spec i 0); [lia|]. rewrite Hslot. auto.
Qed.

Lemma returns_set_slot i slot :
  returns (modify (λ w, set_timeWheel (set_slot i slot (timeWheel w)) w)).
Proof. intros w Hw. eexists _, _. split; [reflexivity|]. apply wf_set_slot, Hw. Qed.

Lemma returns_TimeWheel_Add key ttl : 0 <= ttl → returns (TimeWheel_Add key ttl).
Proof.
  intros Httl w Hw.
  destruct (TimeWheel_Add_run w key ttl Hw Httl) as (slot & _ & Hrun).
  eexists _, _. split; [exact Hrun|]. same_shape Hw.
Qed.

Lemma returns_Set_ key value ttl : 0 <= ttl → returns (Set_ key value ttl).
Proof.
  intros Httl w Hw.
  destruct (Set_run w key value ttl Hw Httl) as (data & slot & _ & _ & Hrun).
  eexists _, _. split; [exact Hrun|]. same_shape Hw.
Qed.

Lemma returns_Delete key : returns (Delete key).
Proof.
  unfold Delete.
  apply returns_bind; [apply returns_shard_Data|]. intros data.
  apply returns_bind; [apply returns_shard_store|]. intros _.
  apply returns_bind; [apply returns_repo_Write|]. intros _.
  apply returns_ret.
Qed.

Lemma returns_Get key : returns (Get key).
Proof.
  unfold Get.
  apply returns_bind; [apply returns_shard_Data|]. intros data.
  destruct (data !! key) as [e|]; [|apply returns_ret].
  apply returns_bind; [apply returns_time_Now|]. intros now.
  destruct (_ <? _); [|apply returns_ret].
  apply returns_bind; [apply returns_shard_store|]. intros _.
  apply returns_ret.
Qed.

Lemma returns_TimeWheel_run_tick : returns TimeWheel_run_tick.
Proof.
  intros w Hw. unfold TimeWheel_run_tick.
  unfold mbind at 1, M_bind at 1, get_world.
  rewrite (wf_slots _ Hw). change (Z.of_nat 60 =? 0) with false. cbv iota.
  pose proof (wf_index _ Hw) as Hidx.
  assert (Hi : 0 <= Z.rem (index (timeWheel w) + 1) (Z.of_nat 60) < 60)
    by (change (Z.of_nat 60) with 60; apply Z.rem_bound_pos; lia).
  unfold mbind at 1, M_bind at 1, modify at 1.
  set (i := Z.rem (index (timeWheel w) + 1) (Z.of_nat 60)) in *.
  assert (Hw1 : wf (set_timeWheel (set_index i (timeWheel w)) w))
    by (apply wf_set_index; assumption).
  revert Hw1. generalize (set_timeWheel (set_index i (timeWheel w)) w).
  change (returns
    (t ← time_Now;
     slot ← wheel_slot i;
     forM_ (map_to_list slot) (fun '(key, expiresAt) =>
       if expiresAt <? Unix t
       then
         cur ← wheel_slot i;
         modify (fun w => set_timeWheel
                   (set_slot (Z.to_nat i) (delete key cur) (timeWheel w)) w);;
         Delete key;;
         mret tt
       else mret tt))).
  apply returns_bind; [apply returns_time_Now|]. intros t.
  apply returns_bind; [apply returns_wheel_slot, Hi|]. intros slot.
  apply returns_forM_. intros [key expiresAt].
  destruct (_ <? _); [|apply returns_ret].
  apply returns_bind; [apply returns_wheel_slot, Hi|]. intros cur.
  apply returns_bind; [apply returns_set_slot|]. intros _.
  apply returns_bind; [apply returns_Delete|]. intros _.
  apply returns_ret.
Qed.

Lemma returns_collectExpiredKeys : returns collectExpiredKeys.
Proof.
  unfold collectExpiredKeys.
  apply returns_bind; [apply returns_get_world|]. intros w.
  apply returns_foldM. intros acc data.
  apply returns_foldM. intros acc' [key entry].
  destruct (0 <? ExpiresAt entry); [|apply returns_ret].
  apply returns_bind; [apply returns_time_Now|]. intros now.
  destruct (_ <? _); apply returns_ret.
Qed.

Lemma returns_cleanupMemory keys : returns (cleanupMemory keys).
Proof.
  unfold cleanupMemory. apply returns_forM_. intros key.
  apply returns_bind; [apply returns_shard_Data|]. intros data.
  apply returns_shard_store.
Qed.

Lemma returns_startExpirationChecker_tick : returns startExpirationChecker_tick.
Proof.
  unfold startExpirationChecker_tick.
  apply returns_bind; [apply returns_collectExpiredKeys|].
  intros [|key keys]; [apply returns_ret|].
  apply returns_bind; [apply returns_cleanupMemory|].
  intros _; apply returns_ret.
Qed.

Lemma returns_perform c : nonneg_ttl c → returns (perform c).
Proof.
  destruct c; simpl; intros Hc.
  - apply returns_bind; [apply returns_Set_, Hc|intros; apply returns_ret].
  - apply returns_bind; [apply returns_Get|intros; apply returns_ret].
  - apply returns_bind; [apply returns_Delete|intros; apply returns_ret].
  - apply returns_TimeWheel_run_tick.
  - apply returns_bind;
      [apply returns_startExpirationChecker_tick|intros; apply returns_ret].
Qed.

(** X8.  The cache does not panic in normal use: started on a log of
    written records, and through any sequence of [Get], [Delete], [Set]
    with a non-negative TTL, wheel ticks and sweeper passes, under any
    clock, every call returns, and the state keeps its shape (32 shards,
    60 wheel slots, the wheel index within [0, 60)). *)
Theorem lifetime_returns clk cmds calls :
  Forall written cmds → Forall nonneg_ttl calls →
  ∃ w, lifetime clk (Some (map Encoded cmds)) calls = Done tt w ∧ wf w.
Proof.
  intros Hcmds Hcalls. unfold lifetime, loadFromDisk.
  destruct (loadFromDisk_loop_written (fresh clk) cmds (wf_fresh clk) Hcmds)
    as (w0 & Hrun & Hw0).
  unfold mbind at 1, M_bind at 1. rewrite Hrun.
  assert (H : returns (forM_ calls perform)).
  { induction Hcalls as [|c calls Hc _ IH]; simpl.
    - apply returns_ret.
    - apply returns_bind; [apply returns_perform, Hc|intros _; exact IH]. }
  destruct (H w0 Hw0) as ([] & w & Hdone & Hw). eauto.
Qed.

Lemma lifetime_returns_witness :
  ∃ w, lifetime ticking (Some (map Encoded [SET_record "a" "1" 0; DEL_record "b"]))
         [CallSet "b" "2" (90 * Second); CallGet "a"; WheelTick; ExpirationTick;
          CallDelete "c"] = Done tt w
       ∧ wf w.
Proof.
  apply lifetime_returns.
  - constructor; [left; do 3 eexists; reflexivity|].
    constructor; [right; eexists; reflexivity|constructor].
  - repeat constructor. vm_compute. discriminate.
Defined.

(** ** The log is append-only and well formed *)

Lemma Get_frame_repo w key : repo (world_of (Get key w)) = repo w.
Proof.
  unfold Get. unfold_M.
  destruct (shards w !! getShard key) as [data|]; [|reflexivity].
  destruct (data !! key) as [e|]; [|reflexivity].
  destruct (_ <? _); reflexivity.
Qed.

Lemma log_grows_same w w' : repo w' = repo w → log_grows w w'.
Proof. intros H. exists []. split; [constructor|]. rewrite app_nil_r. exact H. Qed.

Lemma log_grows_trans w1 w2 w3 :
  log_grows w1 w2 → log_grows w2 w3 → log_grows w1 w3.
Proof.
  intros (c1 & H1 & E1) (c2 & H2 & E2). exists (c1 ++ c2). split.
  - apply Forall_app; auto.
  - rewrite E2, E1, app_assoc. reflexivity.
Qed.

Lemma appends_ret {A} (a : A) : appends_written (mret a).
Proof. intros w. apply log_grows_same. reflexivity. Qed.

Lemma appends_panic {A} : appends_written (@panic A).
Proof. intros w. apply log_grows_same. reflexivity. Qed.

Lemma appends_bind {A B} (m : M A) (k : A → M B) :
  appends_written m → (∀ a, appends_written (k a)) → appends_written (m ≫= k).
Proof.
  intros Hm Hk w. specialize (Hm w). unfold mbind, M_bind.
  destruct (m w) as [a w1|w1]; simpl in *.
  - eapply log_grows_trans; [exact Hm|apply Hk].
  - exact Hm.
Qed.

Lemma appends_forM_ {A} (xs : list A) (body : A → M unit) :
  (∀ x, appends_written (body x)) → appends_written (forM_ xs body).
Proof.
  intros Hbody. induction xs as [|x xs IH]; simpl.
  - apply appends_ret.
  - apply appends_bind; auto.
Qed.

Lemma appends_foldM {A B} (body : B → A → M B) (xs : list A) (acc : B) :
  (∀ b x, appends_written (body b x)) → appends_written (foldM body xs acc).
Proof.
  intros Hbody. revert acc. induction xs as [|x xs IH]; intros acc; simpl.
  - apply appends_ret.
  - apply appends_bind; auto.
Qed.

(** The elementary steps that leave the log alone. *)
Lemma appends_quiet {A} (m : M A) :
  (∀ w, repo (world_of (m w)) = repo w) → appends_written m.
Proof. intros H w. apply log_grows_same, H. Qed.

Lemma appends_time_Now : appends_written time_Now.
Proof. apply appends_quiet. reflexivity. Qed.

Lemma appends_get_world : appends_written get_world.
Proof. apply appends_quiet. reflexivity. Qed.

Lemma appends_shard_Data i : appends_written (shard_Data i).
Proof.
  apply appends_quiet. intros w. unfold shard_Data.
  destruct (shards w !! i); reflexivity.
Qed.

Lemma appends_shard_store i data : appends_written (shard_store i data).
Proof. apply appends_quiet. reflexivity. Qed.

Lemma appends_wheel_slot i : appends_written (wheel_slot i).
Proof.
  apply appends_quiet. intros w. unfold wheel_slot.
  destruct (i <? 0); [reflexivity|].
  destruct (slots (timeWheel w) !! Z.to_nat i); reflexivity.
Qed.

Lemma appends_set_timeWheel (f : World → TimeWheel) :
  appends_written (modify (λ w, set_timeWheel (f w) w)).
Proof. apply appends_quiet. reflexivity. Qed.

Lemma appends_repo_Write cmd : written cmd → appends_written (repo_Write cmd).
Proof.
  intros Hcmd w. exists [cmd]. split; [|reflexivity].
  constructor; [exact Hcmd|constructor].
Qed.

Lemma appends_TimeWheel_Add key ttl : appends_written (TimeWheel_Add key ttl).
Proof.
  unfold TimeWheel_Add.
  apply appends_bind; [apply appends_get_world|]. intros w.
  destruct (_ || _); [apply appends_panic|].
  apply appends_bind; [apply appends_wheel_slot|]. intros slot.
  apply appends_bind; [apply appends_time_Now|]. intros now.
  apply (appends_set_timeWheel (λ w, set_slot _ _ (timeWheel w))).
Qed.

Lemma appends_Set_ key value ttl : appends_written (Set_ key value ttl).
Proof.
  unfold Set_.
  apply appends_bind.
  { destruct (0 <? ttl); [|apply appends_ret].
    apply appends_bind; [apply appends_time_Now|intros; apply appends_ret]. }
  intros expiresAt.
  apply appends_bind; [apply appends_shard_Data|]. intros data.
  apply appends_bind; [apply appends_shard_store|]. intros _.
  apply appends_bind; [apply appends_TimeWheel_Add|]. intros _.
  apply appends_bind; [|intros; apply appends_ret].
  apply appends_repo_Write. left. do 3 eexists. reflexivity.
Qed.

Lemma appends_Delete key : appends_written (Delete key).
Proof.
  unfold Delete.
  apply appends_bind; [apply appends_shard_Data|]. intros data.
  apply appends_bind; [apply appends_shard_store|]. intros _.
  apply appends_bind; [|intros; apply appends_ret].
  apply appends_repo_Write. right. eexists. reflexivity.
Qed.

Lemma appends_Get key : appends_written (Get key).
Proof.
  apply appends_quiet. intros w. apply (Get_frame_repo w key).
Qed.

Lemma appends_TimeWheel_run_tick : appends_written TimeWheel_run_tick.
Proof.
  unfold TimeWheel_run_tick.
  apply appends_bind; [apply appends_get_world|]. intros w.
  destruct (_ =? 0); [apply appends_panic|].
  apply appends_bind;
    [apply (appends_set_timeWheel (λ w, set_index _ (timeWheel w)))|]. intros _.
  apply appends_bind; [apply appends_time_Now|]. intros t.
  apply appends_bind; [apply appends_wheel_slot|]. intros slot.
  apply appends_forM_. intros [key expiresAt].
  destruct (_ <? _); [|apply appends_ret].
  apply appends_bind; [apply appends_wheel_slot|]. intros cur.
  apply appends_bind;
    [apply (appends_set_timeWheel (λ w, set_slot _ _ (timeWheel w)))|]. intros _.
  apply appends_bind; [apply appends_Delete|]. intros _.
  apply appends_ret.
Qed.

Lemma appends_loadFromDisk file : appends_written (loadFromDisk file).
Proof.
  destruct file as [file|]; [|apply appends_ret]. simpl.
  induction file as [|[cmd|] rest IH]; simpl; try apply appends_ret.
  apply appends_bind; [|intros _; exact IH].
  unfold loadFromDisk_apply.
  destruct cmd as [|c0 [|c1 [|c2 [|c3 [|c4 cmd]]]]]; try apply appends_ret.
  - destruct (iface_eq_string c0 "DEL"); [|apply appends_ret].
    destruct c1 as [key| |]; try apply appends_panic.
    apply appends_bind; [apply appends_shard_Data|]. intros data.
    apply appends_shard_store.
  - destruct (iface_eq_string c0 "SET"); [|apply appends_ret].
    destruct c1 as [key| |], c2 as [value| |], c3 as [|expiresAt|];
      try apply appends_panic.
    apply appends_bind.
    { destruct (expiresAt =? 0); [apply appends_ret|].
      apply appends_bind; [apply appends_time_Now|intros; apply appends_ret]. }
    intros [|]; [|apply appends_ret].
    apply appends_bind; [apply appends_shard_Data|]. intros data.
    apply appends_bind; [apply appends_shard_store|]. intros _.
    apply appends_TimeWheel_Add.
Qed.

Lemma appends_startExpirationChecker_tick :
  appends_written startExpirationChecker_tick.
Proof.
  unfold startExpirationChecker_tick.
  apply appends_bind.
  { unfold collectExpiredKeys.
    apply appends_bind; [apply appends_get_world|]. intros w.
    apply appends_foldM. intros acc data.
    apply appends_foldM. intros acc' [key entry].
    destruct (0 <? ExpiresAt entry); [|apply appends_ret].
    apply appends_bind; [apply appends_time_Now|]. intros now.
    destruct (_ <? _); apply appends_ret. }
  intros [|key keys]; [apply appends_ret|].
  apply appends_bind; [|intros; apply appends_ret].
  unfold cleanupMemory. apply appends_forM_. intros k.
  apply appends_bind; [apply appends_shard_Data|]. intros data.
  apply appends_shard_store.
Qed.

Lemma appends_perform c : appends_written (perform c).
Proof.
  destruct c; simpl.
  - apply appends_bind; [apply appends_Set_|intros; apply appends_ret].
  - apply appends_bind; [apply appends_Get|intros; apply appends_ret].
  - apply appends_bind; [apply appends_Delete|intros; apply appends_ret].
  - apply appends_TimeWheel_run_tick.
  - apply appends_bind;
      [apply appends_startExpirationChecker_tick|intros; apply appends_ret].
Qed.

Lemma loadFromDisk_apply_quiet cmd w :
  repo (world_of (loadFromDisk_apply cmd w)) = repo w.
Proof.
  unfold loadFromDisk_apply, TimeWheel_Add. unfold_M.
  repeat case_match; simplify_eq; reflexivity.
Qed.

Lemma log_append_only_recovery file w :
  repo (world_of (loadFromDisk file w)) = repo w.
Proof.
  destruct file as [file|]; [|reflexivity]. simpl.
  revert w. induction file as [|[cmd|] rest IH]; intros w; simpl; try reflexivity.
  unfold mbind, M_bind.
  pose proof (loadFromDisk_apply_quiet cmd w) as Hq.
  destruct (loadFromDisk_apply cmd w) as [[] w1|w1]; simpl in Hq.
  - rewrite IH. exact Hq.
  - exact Hq.
Qed.

(** ** The writer and the file *)

Lemma session_started contents cmds : session true contents cmds = map Encoded cmds.
Proof. destruct cmds; reflexivity. Qed.

Lemma session_empty_file cmds : session false [] cmds = map Encoded cmds.
Proof. destruct cmds; reflexivity. Qed.

Lemma session_after_contents item contents cmd cmds :
  session false (item :: contents) (cmd :: cmds)
  = Undecodable :: map Encoded (cmd :: cmds).
Proof. reflexivity. Qed.

Lemma session_app started contents l1 l2 :
  session started contents (l1 ++ l2)
  = session started contents l1
    ++ session (match l1 with [] => started | _ :: _ => true end)
               (contents ++ session started contents l1) l2.
Proof.
  destruct l1 as [|cmd l1]; simpl.
  - rewrite app_nil_r. reflexivity.
  - rewrite session_started, map_app, app_assoc. reflexivity.
Qed.

(** The writer while its encoder's file is open: the queue goes to the file
    as one more stretch of the encoder's session. *)
Lemma writeLoop_drain_live r contents :
  log r = LogOpen contents → encoder_file r = file r →
  writeLoop_drain r
  = mkCacheRepo
      (LogOpen (contents ++ session (encoder_started r) contents (queue r)))
      (file r) [] (writer_file r) (encoder_file r)
      (match queue r with [] => encoder_started r | _ :: _ => true end).
Proof.
  unfold writeLoop_drain. destruct r as [l f q wf' ef st].
  cbn [log file queue writer_file encoder_file encoder_started].
  intros -> ->. revert contents st.
  induction q as [|cmd q IH]; intros contents st.
  - simpl. rewrite app_nil_r. reflexivity.
  - cbn [length]. rewrite Nat.iter_succ_r. unfold writeLoop_step at 2.
    cbn [log file queue writer_file encoder_file encoder_started].
    rewrite Nat.eqb_refl, IH. cbn [session]. rewrite session_started, <- app_assoc.
    destruct q; reflexivity.
Qed.

(** The writer once its encoder's file is closed: the queue is emptied and
    the file stays as it is. *)
Lemma writeLoop_drain_dead r :
  (∀ contents, log r = LogOpen contents → encoder_file r ≠ file r) →
  writeLoop_drain r
  = mkCacheRepo (log r) (file r) [] (writer_file r) (encoder_file r)
                (encoder_started r).
Proof.
  unfold writeLoop_drain. destruct r as [l f q wf' ef st].
  cbn [log file queue writer_file encoder_file encoder_started].
  intros Hdead. induction q as [|cmd q IH]; [reflexivity|].
  cbn [length]. rewrite Nat.iter_succ_r. unfold writeLoop_step at 2.
  cbn [log file queue writer_file encoder_file encoder_started].
  destruct l as [contents| |]; [|exact IH|exact IH].
  specialize (Hdead contents eq_refl). apply Nat.eqb_neq in Hdead.
  rewrite Hdead. exact IH.
Qed.

Lemma repo_run_cons op ops r :
  repo_run (op :: ops) r = repo_run ops (repo_perform op r).
Proof. reflexivity. Qed.

(** Senders and writer turns, in any order, while the encoder's file is
    open. *)
Lemma repo_run_live ops r contents :
  log r = LogOpen contents → encoder_file r = file r →
  Forall (λ op, ¬ is_cleanup op) ops →
  ∃ done,
    queue r ++ accepted ops r = done ++ queue (repo_run ops r)
    ∧ log (repo_run ops r)
      = LogOpen (contents ++ session (encoder_started r) contents done)
    ∧ encoder_file (repo_run ops r) = file (repo_run ops r)
    ∧ encoder_started (repo_run ops r)
      = match done with [] => encoder_started r | _ :: _ => true end.
Proof.
  intros Hlog Henc Hops. revert r contents Hlog Henc.
  induction Hops as [|op ops Hop _ IH]; intros r contents Hlog Henc.
  - exists []. cbn. rewrite !app_nil_r. auto.
  - rewrite repo_run_cons.
    destruct op as [cmd| |fs E]; [| |contradiction Hop; exact I].
    + cbn [accepted repo_perform]. unfold aofWriter_Write.
      destruct (length (queue r) <? 1000)%nat.
      * change (default r (Some ?x)) with x.
        destruct (IH (mkCacheRepo (log r) (file r) (queue r ++ [cmd])
                        (writer_file r) (encoder_file r) (encoder_started r))
                     contents Hlog Henc) as (done & Hq & Hl & He & Hs).
        exists done. cbn [queue encoder_started] in Hq, Hl, Hs.
        rewrite <- app_assoc in Hq. auto.
      * change (default r None) with r. apply IH; assumption.
    + cbn [accepted repo_perform]. unfold writeLoop_step.
      destruct (queue r) as [|cmd rest] eqn:Hq0.
      * destruct (IH r contents Hlog Henc) as (done & Hq & Hl & He & Hs).
        rewrite Hq0 in Hq. exists done. auto.
      * rewrite Hlog.
        replace (encoder_file r =? file r)%nat with true
          by (symmetry; apply Nat.eqb_eq, Henc).
        destruct (IH (mkCacheRepo
                        (LogOpen (contents ++ gob_message (encoder_started r) contents cmd))
                        (file r) rest (writer_file r) (encoder_file r) true)
                     _ eq_refl Henc) as (done & Hq & Hl & He & Hs).
        cbn [queue encoder_started] in Hq, Hl, Hs.
        exists (cmd :: done). cbn [app]. rewrite Hq.
        split; [reflexivity|].
        split; [|split; [exact He|rewrite Hs; destruct done; reflexivity]].
        rewrite Hl, session_started. cbn [session].
        rewrite <- !app_assoc. reflexivity.
Qed.

(** The same, with the queue written out at the end. *)
Lemma repo_run_drained ops r contents :
  log r = LogOpen contents → encoder_file r = file r →
  Forall (λ op, ¬ is_cleanup op) ops →
  log (writeLoop_drain (repo_run ops r))
  = LogOpen (contents
             ++ session (encoder_started r) contents (queue r ++ accepted ops r))
  ∧ queue (writeLoop_drain (repo_run ops r)) = [].
Proof.
  intros Hlog Henc Hops.
  destruct (repo_run_live ops r contents Hlog Henc Hops) as (done & Hq & Hl & He & Hs).
  rewrite (writeLoop_drain_live _ _ Hl He). cbn [log queue].
  split; [|reflexivity].
  rewrite Hq, session_app, Hs, <- app_assoc. reflexivity.
Qed.


(** A file is its readable part, followed by nothing or by a stretch that
    the decoder rejects. *)
Lemma decodable_split contents :
  contents = map Encoded (decodable contents)
  ∨ ∃ rest, contents = map Encoded (decodable contents) ++ Undecodable :: rest.
Proof.
  induction contents as [|[cmd|] contents IH]; simpl.
  - left. reflexivity.
  - destruct IH as [IH|(rest & IH)].
    + left. rewrite <- IH. reflexivity.
    + right. exists rest. rewrite <- IH. reflexivity.
  - right. exists contents. reflexivity.
Qed.

Lemma elem_of_decodable c contents : c ∈ decodable contents → Encoded c ∈ contents.
Proof.
  induction contents as [|[c'|] rest IH]; simpl; intros H.
  - inversion H.
  - apply elem_of_cons in H as [->|H]; [left|right; auto].
  - inversion H.
Qed.

Lemma decodable_app_elem c l1 l2 :
  c ∈ decodable (l1 ++ l2) → c ∈ decodable l1 ∨ c ∈ decodable l2.
Proof.
  induction l1 as [|[c'|] l1 IH]; simpl; intros H.
  - right. exact H.
  - apply elem_of_cons in H as [->|H]; [left; left|].
    destruct (IH H); [left; right; assumption|right; assumption].
  - inversion H.
Qed.



(** Compaction adds nothing to the file. *)
Lemma CleanupAOF_subset fs expiredKeys l contents' :
  on_disk (snd (CleanupAOF fs expiredKeys l)) = Some contents' →
  ∃ contents, on_disk l = Some contents
              ∧ (∀ x, x ∈ contents' → x ∈ contents)
              ∧ (∀ c, c ∈ decodable contents' → c ∈ decodable contents).
Proof.
  destruct l as [file|file|].
  - destruct (CleanupAOF_cases fs expiredKeys file)
      as [(_ & Hout & _)|(_ & [Hout|[Hout|[Hout|Hout]]])];
      rewrite Hout; simpl; intros [= <-]; exists file;
      (split; [reflexivity|]); try (split; auto; fail).
    + split.
      * intros x (c & -> & Hc)%list_elem_of_fmap.
        apply list_elem_of_filter in Hc as [_ Hc]. apply elem_of_decodable, Hc.
      * intros c. rewrite decodable_Encoded.
        intros [_ Hc]%list_elem_of_filter. exact Hc.
    + split.
      * intros x (c & -> & Hc)%list_elem_of_fmap.
        apply list_elem_of_filter in Hc as [_ Hc]. apply elem_of_decodable, Hc.
      * intros c. rewrite decodable_Encoded.
        intros [_ Hc]%list_elem_of_filter. exact Hc.
  - destruct (CleanupAOF_not_open fs expiredKeys (LogClosed file)) as [-> _];
      [intros; discriminate|].
    simpl. intros [= <-]. exists file. auto.
  - destruct (CleanupAOF_not_open fs expiredKeys LogGone) as [-> _];
      [intros; discriminate|].
    discriminate.
Qed.

(** Once the encoder's file is behind the repository's, it stays behind,
    and the writer and its senders leave [cache.aof] alone. *)
Lemma repo_perform_stale op r :
  (encoder_file r < file r)%nat →
  (encoder_file (repo_perform op r) < file (repo_perform op r))%nat
  ∧ (∀ contents', on_disk (log (repo_perform op r)) = Some contents' →
       ∃ contents, on_disk (log r) = Some contents
                   ∧ ∀ x, x ∈ contents' → x ∈ contents)
  ∧ (¬ is_cleanup op → log (repo_perform op r) = log r).
Proof.
  intros Hlt.
  assert (Hsame : ∀ r', log r' = log r → file r' = file r →
                    encoder_file r' = encoder_file r →
            (encoder_file r' < file r')%nat
            ∧ (∀ contents', on_disk (log r') = Some contents' →
                 ∃ contents, on_disk (log r) = Some contents
                             ∧ ∀ x, x ∈ contents' → x ∈ contents)
            ∧ (¬ is_cleanup op → log r' = log r)).
  { intros r' -> -> ->. split; [exact Hlt|]. split; [eauto|auto]. }
  destruct op as [cmd| |fs E].
  - unfold repo_perform, aofWriter_Write.
    destruct (length (queue r) <? 1000)%nat; apply Hsame; reflexivity.
  - cbn [repo_perform]. unfold writeLoop_step.
    destruct (queue r) as [|cmd rest]; [apply Hsame; reflexivity|].
    replace (encoder_file r =? file r)%nat with false
      by (symmetry; apply Nat.eqb_neq; lia).
    destruct (log r) as [contents| |] eqn:Hlog; apply Hsame; cbn; auto.
  - cbn [repo_perform]. unfold repo_CleanupAOF.
    pose proof (CleanupAOF_subset fs E (log r)) as Hsub.
    destruct (CleanupAOF fs E (log r)) as [[] l]; cbn in *;
      (split; [lia|split; [|intros []; exact I]]);
      intros contents' Hc; destruct (Hsub contents' Hc) as (contents & ? & ? & _);
      eauto.
Qed.

Lemma repo_run_stale ops r :
  (encoder_file r < file r)%nat →
  (encoder_file (repo_run ops r) < file (repo_run ops r))%nat
  ∧ (∀ contents', on_disk (log (repo_run ops r)) = Some contents' →
       ∃ contents, on_disk (log r) = Some contents
                   ∧ ∀ x, x ∈ contents' → x ∈ contents)
  ∧ (Forall (λ op, ¬ is_cleanup op) ops → log (repo_run ops r) = log r).
Proof.
  revert r. induction ops as [|op ops IH]; intros r Hlt.
  - cbn. eauto 6.
  - rewrite repo_run_cons.
    destruct (repo_perform_stale op r Hlt) as (H1 & H2 & H3).
    destruct (IH _ H1) as (I1 & I2 & I3).
    split; [exact I1|]. split.
    + intros c2 Hc2. destruct (I2 c2 Hc2) as (c1 & Hc1 & Hsub1).
      destruct (H2 c1 Hc1) as (c0 & Hc0 & Hsub0). eauto.
    + intros Hall. inversion Hall; subst. rewrite I3, H3; auto.
Qed.

(** X19.  After the first compaction that succeeds, nothing the cache
    writes reaches the log any more.  [CleanupAOF] closes the file the
    writer's encoder was created on and hands the writer a new file, but
    the encoder keeps the old one.  From then on, whatever is sent, written
    or compacted, and whatever the file system does, every queued command
    is taken off the queue and lost on a failed write: [cache.aof] never
    holds a record that the first compacted log did not hold, and between
    compactions it does not change at all. *)
Theorem writes_lost_after_CleanupAOF fs expiredKeys r r1 ops :
  encoder_file r = file r →
  repo_CleanupAOF fs expiredKeys r = (CleanupDone, r1) →
  let r2 := repo_run ops r1 in
  log r1 = snd (CleanupAOF fs expiredKeys (log r))
  ∧ encoder_file r2 ≠ file r2
  ∧ (∀ contents2, on_disk (log r2) = Some contents2 →
       ∃ contents1, on_disk (log r1) = Some contents1
                    ∧ ∀ x, x ∈ contents2 → x ∈ contents1)
  ∧ (Forall (λ op, ¬ is_cleanup op) ops → log r2 = log r1)
  ∧ log (writeLoop_drain r2) = log r2
  ∧ queue (writeLoop_drain r2) = [].
Proof.
  intros Henc Hclean r2.
  unfold repo_CleanupAOF in Hclean.
  destruct (CleanupAOF fs expiredKeys (log r)) as [res l] eqn:Hc.
  destruct res; try discriminate. injection Hclean as <-.
  split; [reflexivity|].
  destruct (repo_run_stale ops
              (mkCacheRepo l (S (file r)) (queue r) (S (file r)) (encoder_file r)
                           (encoder_started r)))
    as (H1 & H2 & H3); [cbn; lia|].
  fold r2 in H1, H2, H3.
  split; [lia|]. split; [exact H2|]. split; [exact H3|].
  rewrite writeLoop_drain_dead by (intros; lia). auto.
Qed.

Lemma writes_lost_after_CleanupAOF_witness :
  log (writeLoop_drain
         (repo_run [OpWrite (SET_record "c" "3" 0)]
            (snd (repo_CleanupAOF healthy ["b"]
                    (NewCacheRepo (Some (map Encoded [SET_record "a" "1" 0;
                                                      SET_record "b" "2" 1001])))))))
  = LogOpen (map Encoded [SET_record "a" "1" 0]).
Proof.
  destruct (writes_lost_after_CleanupAOF healthy ["b"]
              (NewCacheRepo (Some (map Encoded [SET_record "a" "1" 0;
                                                SET_record "b" "2" 1001])))
              (snd (repo_CleanupAOF healthy ["b"]
                      (NewCacheRepo (Some (map Encoded [SET_record "a" "1" 0;
                                                        SET_record "b" "2" 1001])))))
              [OpWrite (SET_record "c" "3" 0)]) as (_ & _ & _ & H & Hd & _).
  - reflexivity.
  - vm_compute. reflexivity.
  - rewrite Hd, H.
    + vm_compute. reflexivity.
    + repeat constructor; simpl; tauto.
Defined.

(** A log that is closed stays closed, and nothing touches it. *)
Lemma repo_perform_closed op r :
  (∀ contents, log r ≠ LogOpen contents) → log (repo_perform op r) = log r.
Proof.
  intros Hclosed. destruct op as [cmd| |fs E].
  - unfold repo_perform, aofWriter_Write.
    destruct (length (queue r) <? 1000)%nat; reflexivity.
  - cbn [repo_perform]. unfold writeLoop_step.
    destruct (queue r) as [|cmd rest]; [reflexivity|].
    destruct (log r) as [contents| |] eqn:Hlog; [|cbn; auto..].
    destruct (Hclosed contents); reflexivity.
  - cbn [repo_perform]. unfold repo_CleanupAOF.
    destruct (CleanupAOF_not_open fs E (log r) Hclosed) as [Hsnd Hfst].
    destruct (CleanupAOF fs E (log r)) as [[] l]; cbn in *; congruence.
Qed.

Ltac not_among H :=
  solve [exfalso;
         repeat (apply elem_of_cons in H as [H|H]; [discriminate|]); inversion H].

Lemma repo_CleanupAOF_fst_snd fs expiredKeys r :
  fst (repo_CleanupAOF fs expiredKeys r) = fst (CleanupAOF fs expiredKeys (log r))
  ∧ log (snd (repo_CleanupAOF fs expiredKeys r))
    = snd (CleanupAOF fs expiredKeys (log r)).
Proof.
  unfold repo_CleanupAOF.
  destruct (CleanupAOF fs expiredKeys (log r)) as [[] l]; split; reflexivity.
Qed.

(** A swap that fails leaves the log closed. *)
Lemma CleanupAOF_failed_swap_closes fs expiredKeys l :
  fst (CleanupAOF fs expiredKeys l)
  ∈ [CleanupIOError CloseLog; CleanupIOError RemoveLog;
     CleanupIOError RenameTemp; CleanupIOError ReopenLog] →
  ∀ contents, snd (CleanupAOF fs expiredKeys l) ≠ LogOpen contents.
Proof.
  destruct l as [file|file|].
  - rewrite CleanupAOF_open.
    pose proof (CleanupAOF_loop_ends (fs EncodeTemp) (mkExpiredKeySet expiredKeys)
                  file []) as Hends.
    destruct (fs CreateTemp); cbn [negb]; [|intros H; not_among H].
    destruct (fs SeekStart); cbn [negb]; [|intros H; not_among H].
    destruct (fst (CleanupAOF_loop _ _ file [])) as [| | |c]; cbn [fst snd];
      try (intros H; not_among H).
    + unfold CleanupAOF_swap.
      destruct (fs CloseLog); cbn [negb fst snd]; [|intros; discriminate].
      destruct (fs RemoveLog); cbn [negb fst snd]; [|intros; discriminate].
      destruct (fs RenameTemp); cbn [negb fst snd]; [|intros; discriminate].
      destruct (fs ReopenLog); cbn [negb fst snd];
        [intros H; not_among H|intros; discriminate].
    + assert (c = EncodeTemp) as ->.
      { repeat (apply elem_of_cons in Hends as [Hends|Hends];
                [first [discriminate|congruence]|]).
        inversion Hends. }
      intros H. not_among H.
  - intros _ contents.
    destruct (CleanupAOF_not_open fs expiredKeys (LogClosed file)) as [-> _];
      intros; discriminate.
  - intros _ contents.
    destruct (CleanupAOF_not_open fs expiredKeys LogGone) as [-> _];
      intros; discriminate.
Qed.

Lemma repo_run_closed ops r :
  (∀ contents, log r ≠ LogOpen contents) → log (repo_run ops r) = log r.
Proof.
  revert r. induction ops as [|op ops IH]; intros r Hr; [reflexivity|].
  rewrite repo_run_cons, IH; [apply repo_perform_closed, Hr|].
  rewrite repo_perform_closed by exact Hr. exact Hr.
Qed.

(** X20.  A compaction that fails once it has closed the log ends
    persistence for the rest of the process.  [r.file] stays closed: every
    later [CleanupAOF] fails at its [Seek], and every command the writer
    takes off the queue is lost, so whatever the failed call left under
    the name [cache.aof], which is nothing at all after a failed rename,
    is what the next process finds. *)
Theorem log_dead_after_failed_swap fs expiredKeys r ops :
  fst (repo_CleanupAOF fs expiredKeys r)
  ∈ [CleanupIOError CloseLog; CleanupIOError RemoveLog;
     CleanupIOError RenameTemp; CleanupIOError ReopenLog] →
  let r1 := snd (repo_CleanupAOF fs expiredKeys r) in
  let r2 := repo_run ops r1 in
  (∀ contents, log r1 ≠ LogOpen contents)
  ∧ log r2 = log r1
  ∧ log (writeLoop_drain r2) = log r1
  ∧ queue (writeLoop_drain r2) = []
  ∧ (∀ fs' expiredKeys',
       CleanupAOF fs' expiredKeys' (log r2)
       = (CleanupIOError (if fs' CreateTemp then SeekStart else CreateTemp), log r1)).
Proof.
  intros Hres r1 r2.
  destruct (repo_CleanupAOF_fst_snd fs expiredKeys r) as [Hfst Hsnd].
  assert (Hclosed : ∀ contents, log r1 ≠ LogOpen contents).
  { subst r1. rewrite Hsnd. apply CleanupAOF_failed_swap_closes.
    rewrite <- Hfst. exact Hres. }
  pose proof (repo_run_closed ops r1 Hclosed) as Hrun. fold r2 in Hrun.
  split; [exact Hclosed|]. split; [exact Hrun|].
  rewrite writeLoop_drain_dead.
  - split; [exact Hrun|]. split; [reflexivity|].
    intros fs' E'. rewrite Hrun. unfold CleanupAOF.
    destruct (fs' CreateTemp); cbn [negb]; [|reflexivity].
    destruct (log r1) as [contents| |]; [destruct (Hclosed contents)|..]; reflexivity.
  - intros contents Hc. rewrite Hrun in Hc. destruct (Hclosed contents Hc).
Qed.

Lemma log_dead_after_failed_swap_witness :
  log (writeLoop_drain
         (repo_run [OpWrite (SET_record "c" "3" 0); OpCleanup healthy []]
            (snd (repo_CleanupAOF cross_device ["b"]
                    (NewCacheRepo (Some (map Encoded [SET_record "a" "1" 0])))))))
  = LogGone.
Proof.
  destruct (log_dead_after_failed_swap cross_device ["b"]
              (NewCacheRepo (Some (map Encoded [SET_record "a" "1" 0])))
              [OpWrite (SET_record "c" "3" 0); OpCleanup healthy []])
    as (_ & _ & H & _).
  - vm_compute. right. right. left.
  - rewrite H. vm_compute. reflexivity.
Defined.

(** A log whose readable part is written records replays without a panic. *)
Lemma loadFromDisk_loop_sound w contents :
  wf w → sound contents →
  ∃ w', loadFromDisk_loop contents w = Done tt w' ∧ wf w'.
Proof.
  intros Hwf Hsound.
  destruct (decodable_split contents) as [H|(rest & H)]; rewrite H.
  - apply loadFromDisk_loop_written; [exact Hwf|exact Hsound].
  - rewrite loadFromDisk_loop_Undecodable.
    apply loadFromDisk_loop_written; [exact Hwf|exact Hsound].
Qed.

(** Whatever the repository does with written records, the log stays
    sound. *)
Lemma repo_perform_sound op r :
  (∀ cmd, op = OpWrite cmd → written cmd) →
  (∀ contents, on_disk (log r) = Some contents → sound contents) →
  Forall written (queue r) →
  (∀ contents, on_disk (log (repo_perform op r)) = Some contents → sound contents)
  ∧ Forall written (queue (repo_perform op r)).
Proof.
  intros Hop Hlog Hqueue. destruct op as [cmd| |fs E].
  - unfold repo_perform, aofWriter_Write.
    destruct (length (queue r) <? 1000)%nat; cbn; [|auto].
    split; [exact Hlog|]. apply Forall_app. split; [exact Hqueue|].
    constructor; [apply Hop; reflexivity|constructor].
  - cbn [repo_perform]. unfold writeLoop_step.
    destruct (queue r) as [|cmd rest] eqn:Hq; [rewrite Hq; auto|].
    apply Forall_cons in Hqueue as [Hcmd Hrest].
    destruct (log r) as [contents| |] eqn:Hl; cbn; rewrite ?Hl; [|auto..].
    destruct (encoder_file r =? file r)%nat; cbn; rewrite ?Hl; [|auto].
    split; [|exact Hrest].
    intros c' [= <-]. unfold sound. apply Forall_forall. intros c Hc.
    apply decodable_app_elem in Hc as [Hc|Hc].
    + specialize (Hlog contents eq_refl). unfold sound in Hlog.
      rewrite Forall_forall in Hlog. apply Hlog, Hc.
    + unfold gob_message in Hc.
      destruct (encoder_started r); [|destruct contents]; simpl in Hc;
        try (apply list_elem_of_singleton in Hc as ->; exact Hcmd);
        inversion Hc.
  - cbn [repo_perform]. unfold repo_CleanupAOF.
    pose proof (CleanupAOF_subset fs E (log r)) as Hsub.
    assert (Hl : ∀ contents, on_disk (snd (CleanupAOF fs E (log r))) = Some contents →
                   sound contents).
    { intros contents' Hc. destruct (Hsub contents' Hc) as (contents & Hd & _ & Hdec).
      specialize (Hlog contents Hd). unfold sound in *.
      rewrite Forall_forall in *. auto. }
    destruct (CleanupAOF fs E (log r)) as [[] l]; cbn in *; auto.
Qed.

Lemma repo_run_sound ops r :
  Forall (λ op, ∀ cmd, op = OpWrite cmd → written cmd) ops →
  (∀ contents, on_disk (log r) = Some contents → sound contents) →
  Forall written (queue r) →
  ∀ contents, on_disk (log (repo_run ops r)) = Some contents → sound contents.
Proof.
  intros Hops. revert r.
  induction Hops as [|op ops Hop _ IH]; intros r Hlog Hqueue; [exact Hlog|].
  rewrite repo_run_cons.
  destruct (repo_perform_sound op r Hop Hlog Hqueue) as [Hlog' Hqueue'].
  apply IH; assumption.
Qed.

(** X9.  The log is append-only and holds nothing but SET and DEL records:
    no call and no background firing removes or rewrites what was handed to
    the writer, each one only appends records of the two written shapes
    (recovery, [Get] and the sweeper append nothing).  So whatever the
    writer and compaction make of these records on a log that was sound
    when the process opened it, under any schedule and any failures of
    the file system, the log stays sound: its readable part holds written
    records only, and the next process replays it without a panic. *)
Theorem log_append_only clk disk calls :
  let file := GetFile (NewCacheRepo disk) in
  let handed := repo (world_of (lifetime clk file calls)) in
  (∀ c w, log_grows w (world_of (perform c w)))
  ∧ (∀ w, repo (world_of (loadFromDisk file w)) = repo w)
  ∧ Forall written handed
  ∧ (∀ ops,
       sound (default [] disk) →
       Forall (λ op, ∀ cmd, op = OpWrite cmd → cmd ∈ handed) ops →
       let r := repo_run ops (NewCacheRepo disk) in
       (∀ contents, on_disk (log r) = Some contents → sound contents)
       ∧ ∀ clk', ∃ w', restart clk' (log r) = Done tt w' ∧ wf w').
Proof.
  intros file handed.
  assert (Hlog : Forall written handed).
  { assert (H : appends_written (loadFromDisk file;; forM_ calls perform)).
    { apply appends_bind; [apply appends_loadFromDisk|]. intros _.
      apply appends_forM_, appends_perform. }
    destruct (H (fresh clk)) as (cmds & Hcmds & Heq).
    unfold handed, lifetime. rewrite Heq. exact Hcmds. }
  split; [intros c w; apply appends_perform|].
  split; [intros w; apply log_append_only_recovery|].
  split; [exact Hlog|].
  intros ops Hdisk Hops r.
  assert (Hsound : ∀ contents, on_disk (log r) = Some contents → sound contents).
  { apply repo_run_sound.
    - eapply Forall_impl; [exact Hops|]. intros op Hop cmd Hcmd.
      rewrite Forall_forall in Hlog. apply Hlog, (Hop cmd Hcmd).
    - intros contents [= <-]. exact Hdisk.
    - constructor. }
  split; [exact Hsound|].
  intros clk'. unfold restart, GetFile, NewCacheRepo. cbn [log on_disk].
  unfold NewGoCacheUsecase, loadFromDisk.
  apply loadFromDisk_loop_sound; [apply wf_fresh|].
  destruct (on_disk (log r)) as [contents|] eqn:Hc; [apply Hsound; reflexivity|].
  constructor.
Qed.

Lemma log_append_only_witness :
  ∃ w',
    restart frozen
      (log (repo_run [OpWrite (SET_record "a" "1" 0); OpStep;
                      OpCleanup cross_device []]
              (NewCacheRepo None))) = Done tt w'
    ∧ wf w'.
Proof.
  destruct (log_append_only frozen None [CallSet "a" "1" 0])
    as (_ & _ & _ & H).
  destruct (H [OpWrite (SET_record "a" "1" 0); OpStep; OpCleanup cross_device []])
    as [_ Hrestart].
  - constructor.
  - constructor; [intros cmd [= <-]; vm_compute; left|].
    constructor; [intros cmd Hc; discriminate|].
    constructor; [intros cmd Hc; discriminate|constructor].
  - apply Hrestart.
Defined.

(** ** What a restart restores *)

(** Replaying one written record changes the entry of its key as
    [replay_record] says, and no other entry. *)
Lemma loadFromDisk_apply_replay now w cmd :
  wf w → steady (clock w) now → written cmd →
  ∃ w',
    loadFromDisk_apply cmd w = Done tt w'
    ∧ wf w' ∧ clock w' = clock w ∧ repo w' = repo w
    ∧ ∀ k, entry_of w' k
           = if decide (record_key cmd = Some k)
             then replay_record now (entry_of w k) cmd
             else entry_of w k.
Proof.
  intros Hwf Hclk [(key & value & exp & ->)|(key & ->)].
  - destruct (loadFromDisk_apply_SET w key value exp Hwf)
      as (data & w' & Hdata & Hrun & Hwf' & Hclock & _ & Hcases).
    assert (Hrepo : repo w' = repo w).
    { pose proof (loadFromDisk_apply_quiet (SET_record key value exp) w) as Hq.
      rewrite Hrun in Hq. exact Hq. }
    exists w'. split; [exact Hrun|]. split; [exact Hwf'|].
    split; [exact Hclock|]. split; [exact Hrepo|].
    assert (Hlt : (getShard key < length (shards w))%nat)
      by (eapply lookup_lt_Some; eauto).
    unfold live_at in Hcases. cbn [ExpiresAt] in Hcases. rewrite Hclk in Hcases.
    intros k. cbn [record_key SET_record]. change (iface_eq_string (VString "SET") "SET") with true.
    cbv iota. unfold replay_record, SET_record.
    destruct Hcases as [(Hlive & Hsh & _)|(Hdead & Hsh)].
    + assert (Hb : (exp =? 0) || (now <? exp) = true).
      { apply orb_true_iff. rewrite Z.eqb_eq, Z.ltb_lt. exact Hlive. }
      rewrite Hb. unfold entry_of. rewrite Hsh.
      destruct (decide (Some key = Some k)) as [[= <-]|Hne].
      * rewrite list_lookup_insert_eq by exact Hlt. simpl. apply lookup_insert_eq.
      * eapply entry_of_store_ne; [exact Hdata|].
        apply lookup_insert_ne. congruence.
    + assert (Hb : (exp =? 0) || (now <? exp) = false).
      { apply not_true_is_false. rewrite orb_true_iff, Z.eqb_eq, Z.ltb_lt. exact Hdead. }
      rewrite Hb. unfold entry_of. rewrite Hsh.
      destruct (decide (Some key = Some k)); reflexivity.
  - destruct (loadFromDisk_apply_DEL w key Hwf) as (data & Hdata & Hrun).
    eexists. split; [exact Hrun|]. split; [apply wf_set_shards, Hwf|].
    split; [reflexivity|]. split; [reflexivity|].
    assert (Hlt : (getShard key < length (shards w))%nat)
      by (eapply lookup_lt_Some; eauto).
    intros k. cbn [record_key DEL_record]. change (iface_eq_string (VString "DEL") "DEL") with true.
    cbv iota. unfold replay_record, DEL_record.
    unfold entry_of. cbn [shards set_shards].
    destruct (decide (Some key = Some k)) as [[= <-]|Hne].
    + rewrite list_lookup_insert_eq by exact Hlt. simpl. apply lookup_delete_eq.
    + eapply entry_of_store_ne; [exact Hdata|].
      apply lookup_delete_ne. congruence.
Qed.

Lemma loadFromDisk_loop_replay now cmds w :
  wf w → steady (clock w) now → Forall written cmds →
  ∃ w',
    loadFromDisk_loop (map Encoded cmds) w = Done tt w'
    ∧ wf w' ∧ clock w' = clock w ∧ repo w' = repo w
    ∧ ∀ k, entry_of w' k
           = foldl (replay_record now) (entry_of w k) (records_of k cmds).
Proof.
  intros Hwf Hclk Hall. revert w Hwf Hclk.
  induction Hall as [|cmd cmds Hcmd _ IH]; intros w Hwf Hclk.
  - exists w. split; [reflexivity|]. auto.
  - destruct (loadFromDisk_apply_replay now w cmd Hwf Hclk Hcmd)
      as (w1 & Hrun1 & Hwf1 & Hclock1 & Hrepo1 & Hentry1).
    destruct (IH w1 Hwf1) as (w' & Hrun & Hwf' & Hclock & Hrepo & Hentry).
    { rewrite Hclock1. exact Hclk. }
    exists w'. simpl. unfold mbind, M_bind. rewrite Hrun1.
    split; [exact Hrun|]. split; [exact Hwf'|].
    split; [congruence|]. split; [congruence|].
    intros k. rewrite Hentry, Hentry1.
    destruct (decide (record_key cmd = Some k)) as [Hk|Hk].
    + rewrite records_of_cons_eq by exact Hk. reflexivity.
    + rewrite records_of_cons_ne by exact Hk. reflexivity.
Qed.

(** X10.  What a restart restores for a key depends on the records of that
    key alone, replayed in order at the second of the restart: no record
    gives no entry; a last record that is a DEL gives no entry; a last
    record that is a SET still live gives its value and expiry; and a last
    record that is a SET already expired is passed over, so that the entry
    is whatever the older records of the key add up to. *)
Theorem recovery_per_key clk now cmds :
  steady clk now → Forall written cmds →
  ∃ w,
    NewGoCacheUsecase clk (Some (map Encoded cmds)) = Done tt w
    ∧ (∀ k, entry_of w k = replay_key now (records_of k cmds))
    ∧ (∀ k, records_of k cmds = [] → entry_of w k = None)
    ∧ (∀ k older,
         records_of k cmds = older ++ [DEL_record k] → entry_of w k = None)
    ∧ (∀ k older value exp,
         records_of k cmds = older ++ [SET_record k value exp] →
         exp = 0 ∨ now < exp →
         entry_of w k = Some (mkCacheItem value exp))
    ∧ (∀ k older value exp,
         records_of k cmds = older ++ [SET_record k value exp] →
         0 < exp <= now →
         entry_of w k = replay_key now older).
Proof.
  intros Hclk Hall.
  destruct (loadFromDisk_loop_replay now cmds (fresh clk) (wf_fresh clk) Hclk Hall)
    as (w & Hrun & _ & _ & _ & Hentry).
  exists w. split; [exact Hrun|].
  assert (H : ∀ k, entry_of w k = replay_key now (records_of k cmds)).
  { intros k. rewrite Hentry, entry_of_fresh. reflexivity. }
  split; [exact H|]. split; [|split; [|split]].
  - intros k Hk. rewrite H, Hk. reflexivity.
  - intros k older Hk. rewrite H, Hk. unfold replay_key. rewrite foldl_snoc.
    reflexivity.
  - intros k older value exp Hk Hlive. rewrite H, Hk. unfold replay_key.
    rewrite foldl_snoc. unfold replay_record, SET_record.
    assert (Hb : (exp =? 0) || (now <? exp) = true)
      by (apply orb_true_iff; rewrite Z.eqb_eq, Z.ltb_lt; exact Hlive).
    rewrite Hb. reflexivity.
  - intros k older value exp Hk Hdead. rewrite H, Hk. unfold replay_key.
    rewrite foldl_snoc. unfold replay_record at 1, SET_record.
    assert (Hb : (exp =? 0) || (now <? exp) = false).
    { apply not_true_is_false. rewrite orb_true_iff, Z.eqb_eq, Z.ltb_lt. lia. }
    rewrite Hb. reflexivity.
Qed.

Lemma recovery_per_key_witness :
  ∃ w,
    NewGoCacheUsecase frozen
      (Some (map Encoded [SET_record "a" "old" 0; SET_record "b" "2" 0;
                          SET_record "a" "new" 900])) = Done tt w
    ∧ entry_of w "a" = Some (mkCacheItem "old" 0).
Proof.
  destruct (recovery_per_key frozen 1000
              [SET_record "a" "old" 0; SET_record "b" "2" 0;
               SET_record "a" "new" 900])
    as (w & Hrun & _ & _ & _ & _ & Hstale).
  - intros n. vm_compute. reflexivity.
  - repeat (constructor; [left; do 3 eexists; reflexivity|]). constructor.
  - exists w. split; [exact Hrun|].
    rewrite (Hstale "a" [SET_record "a" "old" 0] "new" 900).
    + vm_compute. reflexivity.
    + vm_compute. reflexivity.
    + lia.
Defined.

(** The effect of [Set_] and of [Delete] on entries, log and clock. *)
Lemma Set_effect w key value ttl :
  wf w → 0 <= ttl →
  let exp := if 0 <? ttl then Unix (clock w (reads w) + ttl) else 0 in
  ∃ w',
    Set_ key value ttl w = Done err_nil w'
    ∧ wf w' ∧ clock w' = clock w
    ∧ repo w' = repo w ++ [SET_record key value exp]
    ∧ entry_of w' key = Some (mkCacheItem value exp)
    ∧ ∀ k, k ≠ key → entry_of w' k = entry_of w k.
Proof.
  intros Hwf Httl exp.
  destruct (Set_run w key value ttl Hwf Httl) as (data & slot & Hdata & _ & Hrun).
  assert (Hlt : (getShard key < length (shards w))%nat)
    by (eapply lookup_lt_Some; eauto).
  eexists. split; [exact Hrun|].
  split; [same_shape Hwf|]. split; [reflexivity|]. split; [reflexivity|]. split.
  - unfold entry_of; cbn [shards].
    rewrite list_lookup_insert_eq by exact Hlt. simpl. apply lookup_insert_eq.
  - intros k Hk. unfold entry_of; cbn [shards].
    eapply entry_of_store_ne; [exact Hdata|].
    apply lookup_insert_ne. congruence.
Qed.

Lemma Delete_effect w key :
  wf w →
  ∃ w',
    Delete key w = Done err_nil w'
    ∧ wf w' ∧ clock w' = clock w
    ∧ repo w' = repo w ++ [DEL_record key]
    ∧ entry_of w' key = None
    ∧ ∀ k, k ≠ key → entry_of w' k = entry_of w k.
Proof.
  intros Hwf.
  destruct (wf_shard_Some w key Hwf) as [data Hdata].
  assert (Hlt : (getShard key < length (shards w))%nat)
    by (eapply lookup_lt_Some; eauto).
  eexists. split; [apply Delete_run, Hdata|].
  split; [same_shape Hwf|]. split; [reflexivity|]. split; [reflexivity|]. split.
  - unfold entry_of; cbn [shards set_repo set_shards].
    rewrite list_lookup_insert_eq by exact Hlt. simpl. apply lookup_delete_eq.
  - intros k Hk. unfold entry_of; cbn [shards set_repo set_shards].
    eapply entry_of_store_ne; [exact Hdata|].
    apply lookup_delete_ne. congruence.
Qed.

Lemma Unix_mono_second t ttl : Second <= ttl → Unix t < Unix (t + ttl).
Proof.
  intros H. unfold Unix.
  assert (t / Second + 1 <= (t + ttl) / Second); [|lia].
  replace (t / Second + 1) with ((t + 1 * Second) / Second)
    by (rewrite Z.div_add by (unfold Second; lia); reflexivity).
  apply Z.div_le_mono; unfold Second in *; lia.
Qed.

(** A durable call keeps the entries in step with the log: the entry of
    every key is what the records of that key, those of the log the process
    started from and those written since, add up to. *)
Lemma perform_durable now base c w :
  wf w → steady (clock w) now → durable_call c →
  (∀ k, entry_of w k = replay_key now (records_of k (base ++ repo w))) →
  ∃ w',
    perform c w = Done tt w'
    ∧ wf w' ∧ clock w' = clock w
    ∧ ∀ k, entry_of w' k = replay_key now (records_of k (base ++ repo w')).
Proof.
  intros Hwf Hclk Hc Hinv.
  destruct c as [key value ttl|key|key| |]; simpl in Hc; try contradiction.
  - assert (Httl : 0 <= ttl) by (unfold Second in Hc; lia).
    destruct (Set_effect w key value ttl Hwf Httl)
      as (w' & Hrun & Hwf' & Hclock & Hrepo & Hkey & Hother).
    exists w'. simpl. unfold mbind, M_bind. rewrite Hrun.
    split; [reflexivity|]. split; [exact Hwf'|]. split; [exact Hclock|].
    intros k. rewrite Hrepo, app_assoc, records_of_app.
    unfold replay_key. rewrite foldl_app. fold (replay_key now (records_of k (base ++ repo w))).
    rewrite <- Hinv.
    destruct (decide (k = key)) as [->|Hk].
    + rewrite records_of_cons_eq by reflexivity. simpl.
      rewrite Hkey. unfold replay_record, SET_record.
      assert (Hb : ((if 0 <? ttl then Unix (clock w (reads w) + ttl) else 0) =? 0)
                   || (now <? (if 0 <? ttl then Unix (clock w (reads w) + ttl) else 0))
                   = true).
      { destruct Hc as [->|Hsec]; [reflexivity|].
        destruct (Z.ltb_spec 0 ttl) as [_|?]; [|unfold Second in Hsec; lia].
        apply orb_true_iff. right. apply Z.ltb_lt.
        rewrite <- (Hclk (reads w)). apply Unix_mono_second, Hsec. }
      rewrite Hb. reflexivity.
    + rewrite records_of_cons_ne by (simpl; congruence). simpl.
      apply Hother, Hk.
  - destruct (Delete_effect w key Hwf)
      as (w' & Hrun & Hwf' & Hclock & Hrepo & Hkey & Hother).
    exists w'. simpl. unfold mbind, M_bind. rewrite Hrun.
    split; [reflexivity|]. split; [exact Hwf'|]. split; [exact Hclock|].
    intros k. rewrite Hrepo, app_assoc, records_of_app.
    unfold replay_key. rewrite foldl_app. fold (replay_key now (records_of k (base ++ repo w))).
    rewrite <- Hinv.
    destruct (decide (k = key)) as [->|Hk].
    + rewrite records_of_cons_eq by reflexivity. simpl. exact Hkey.
    + rewrite records_of_cons_ne by (simpl; congruence). simpl.
      apply Hother, Hk.
Qed.

(** X11.  What a restart gives back.  Let a process open a log of written
    records, recover from it, and serve any sequence of [Delete] and of
    [Set] without expiration or with a TTL of at least a second; let the
    writer put every record of these calls into the file, with no
    compaction in between, and let the next process start within the same
    second.  If the log was empty when the first process opened it, or if
    that process wrote nothing, the next one restores, for every key,
    exactly the entry the first one held.  If the log had contents and the
    process wrote to it, the next one restores the state that the first
    had after its own recovery: the decoder stops at the first record the
    process wrote, and all its calls are lost. *)
Theorem restart_restores_entries clk clk' now base calls ops :
  steady clk now → steady clk' now →
  Forall written base → Forall durable_call calls →
  Forall (λ op, ¬ is_cleanup op) ops →
  let r0 := NewCacheRepo (Some (map Encoded base)) in
  ∃ w0 w,
    NewGoCacheUsecase clk (GetFile r0) = Done tt w0
    ∧ lifetime clk (GetFile r0) calls = Done tt w
    ∧ (accepted ops r0 = repo w →
       ∃ w',
         restart clk' (log (writeLoop_drain (repo_run ops r0))) = Done tt w'
         ∧ (base = [] ∨ repo w = [] → ∀ k, entry_of w' k = entry_of w k)
         ∧ (base ≠ [] → repo w ≠ [] → ∀ k, entry_of w' k = entry_of w0 k)).
Proof.
  intros Hclk Hclk' Hbase Hcalls Hops r0.
  change (GetFile r0) with (Some (map Encoded base)).
  destruct (loadFromDisk_loop_replay now base (fresh clk) (wf_fresh clk) Hclk Hbase)
    as (w0 & Hrun0 & Hwf0 & Hclock0 & Hrepo0 & Hentry0).
  assert (Hinv0 : ∀ k, entry_of w0 k = replay_key now (records_of k (base ++ repo w0))).
  { intros k. rewrite Hentry0, entry_of_fresh, Hrepo0. simpl. rewrite app_nil_r.
    reflexivity. }
  assert (Hcalls' : ∀ w1, wf w1 → steady (clock w1) now →
            (∀ k, entry_of w1 k = replay_key now (records_of k (base ++ repo w1))) →
            ∃ w, forM_ calls perform w1 = Done tt w
                 ∧ ∀ k, entry_of w k = replay_key now (records_of k (base ++ repo w))).
  { clear Hrun0 Hwf0 Hclock0 Hrepo0 Hentry0 Hinv0 w0.
    induction Hcalls as [|c calls Hc _ IH]; intros w1 Hwf1 Hclock1 Hinv1.
    - exists w1. simpl. auto.
    - destruct (perform_durable now base c w1 Hwf1 Hclock1 Hc Hinv1)
        as (w2 & Hrun2 & Hwf2 & Hclock2 & Hinv2).
      destruct (IH w2 Hwf2) as (w & Hrun & Hinv);
        [rewrite Hclock2; exact Hclock1|exact Hinv2|].
      exists w. simpl. unfold mbind, M_bind. rewrite Hrun2. auto. }
  destruct (Hcalls' w0 Hwf0) as (w & Hrun & Hinv);
    [rewrite Hclock0; exact Hclk|exact Hinv0|].
  assert (Hlog : Forall written (repo w)).
  { destruct (appends_forM_ calls perform appends_perform w0) as (cmds & Hcmds & Heq).
    rewrite Hrun in Heq. simpl in Heq. rewrite Heq, Hrepo0. exact Hcmds. }
  exists w0, w. split; [exact Hrun0|]. split.
  { unfold lifetime, loadFromDisk, mbind, M_bind. rewrite Hrun0. exact Hrun. }
  intros Hacc.
  destruct (repo_run_drained ops r0 (map Encoded base) eq_refl eq_refl Hops)
    as [Hfile _].
  rewrite Hfile. cbn [queue r0 NewCacheRepo encoder_started app]. rewrite Hacc.
  unfold restart, GetFile, NewCacheRepo. cbn [log on_disk default].
  unfold NewGoCacheUsecase, loadFromDisk. cbv [id].
  assert (Hbase' : ∀ k w', entry_of w' k
                           = foldl (replay_record now) (entry_of (fresh clk') k)
                                   (records_of k base) →
                     entry_of w' k = entry_of w0 k).
  { intros k w' ->. rewrite Hentry0, !entry_of_fresh. reflexivity. }
  destruct base as [|b base].
  - rewrite session_empty_file. cbn [map app].
    destruct (loadFromDisk_loop_replay now (repo w) (fresh clk') (wf_fresh clk')
                Hclk' Hlog) as (w' & Hrun' & _ & _ & _ & Hentry').
    exists w'. split; [exact Hrun'|]. split; [|congruence].
    intros _ k. rewrite Hentry', entry_of_fresh, Hinv. reflexivity.
  - destruct (loadFromDisk_loop_replay now (b :: base) (fresh clk') (wf_fresh clk')
                Hclk' Hbase) as (w' & Hrun' & _ & _ & _ & Hentry').
    exists w'. destruct (repo w) as [|c cs] eqn:Hrepo.
    + cbn [session]. rewrite app_nil_r. split; [exact Hrun'|]. split; [|congruence].
      intros _ k. rewrite Hentry', entry_of_fresh, Hinv, app_nil_r. reflexivity.
    + change (map Encoded (b :: base)) with (Encoded b :: map Encoded base) at 2.
      rewrite session_after_contents, loadFromDisk_loop_Undecodable.
      split; [exact Hrun'|]. split; [intros [?|?]; discriminate|].
      intros _ _ k. apply Hbase', Hentry'.
Qed.

(** On an empty log the calls come back; on a log that held one record
    the same calls are lost, and the key that they deleted is back. *)
Lemma restart_restores_entries_witness :
  (∃ w w',
     lifetime frozen (Some [])
       [CallSet "b" "2" (90 * Second); CallDelete "a"; CallSet "c" "3" 0] = Done tt w
     ∧ restart frozen
         (log (writeLoop_drain
                 (repo_run [OpWrite (SET_record "b" "2" 1090);
                            OpWrite (DEL_record "a"); OpStep;
                            OpWrite (SET_record "c" "3" 0)]
                    (NewCacheRepo (Some []))))) = Done tt w'
     ∧ ∀ k, entry_of w' k = entry_of w k)
  ∧ (∃ w w',
       lifetime frozen (Some (map Encoded [SET_record "a" "1" 0]))
         [CallSet "b" "2" (90 * Second); CallDelete "a"; CallSet "c" "3" 0] = Done tt w
       ∧ entry_of w "a" = None ∧ entry_of w "c" = Some (mkCacheItem "3" 0)
       ∧ restart frozen
           (log (writeLoop_drain
                   (repo_run [OpWrite (SET_record "b" "2" 1090);
                              OpWrite (DEL_record "a"); OpStep;
                              OpWrite (SET_record "c" "3" 0)]
                      (NewCacheRepo (Some (map Encoded [SET_record "a" "1" 0]))))))
         = Done tt w'
       ∧ entry_of w' "a" = Some (mkCacheItem "1" 0) ∧ entry_of w' "c" = None).
Proof.
  assert (Hfrozen : steady frozen 1000) by (intros n; vm_compute; reflexivity).
  assert (Hcalls : Forall durable_call
            [CallSet "b" "2" (90 * Second); CallDelete "a"; CallSet "c" "3" 0]).
  { constructor; [right; vm_compute; discriminate|].
    constructor; [exact I|].
    constructor; [left; reflexivity|constructor]. }
  assert (Hops : Forall (λ op, ¬ is_cleanup op)
            [OpWrite (SET_record "b" "2" 1090); OpWrite (DEL_record "a"); OpStep;
             OpWrite (SET_record "c" "3" 0)])
    by (repeat constructor; simpl; tauto).
  split.
  - destruct (restart_restores_entries frozen frozen 1000 [] _ _
                Hfrozen Hfrozen (List.Forall_nil _) Hcalls Hops)
      as (w0 & w & _ & Hrun & Hrestart).
    destruct Hrestart as (w' & Hrun' & Hsame & _).
    { change (GetFile _) with (Some (@nil gob_item)) in Hrun.
      assert (Hw : w = world_of (lifetime frozen (Some [])
                 [CallSet "b" "2" (90 * Second); CallDelete "a"; CallSet "c" "3" 0]))
        by (rewrite Hrun; reflexivity).
      rewrite Hw. vm_compute. reflexivity. }
    exists w, w'. split; [exact Hrun|]. split; [exact Hrun'|].
    apply Hsame. left. reflexivity.
  - assert (Hbase : Forall written [SET_record "a" "1" 0])
      by (constructor; [left; do 3 eexists; reflexivity|constructor]).
    destruct (restart_restores_entries frozen frozen 1000 [SET_record "a" "1" 0] _ _
                Hfrozen Hfrozen Hbase Hcalls Hops)
      as (w0 & w & Hrun0 & Hrun & Hrestart).
    change (GetFile _) with (Some (map Encoded [SET_record "a" "1" 0])) in Hrun, Hrun0.
    assert (Hw : w = world_of (lifetime frozen (Some (map Encoded [SET_record "a" "1" 0]))
               [CallSet "b" "2" (90 * Second); CallDelete "a"; CallSet "c" "3" 0]))
      by (rewrite Hrun; reflexivity).
    assert (Hw0 : w0 = world_of (NewGoCacheUsecase frozen
                         (Some (map Encoded [SET_record "a" "1" 0]))))
      by (rewrite Hrun0; reflexivity).
    destruct Hrestart as (w' & Hrun' & _ & Hlost).
    { rewrite Hw. vm_compute. reflexivity. }
    exists w, w'. split; [exact Hrun|].
    split; [rewrite Hw; vm_compute; reflexivity|].
    split; [rewrite Hw; vm_compute; reflexivity|].
    split; [exact Hrun'|].
    rewrite !Hlost by (first [discriminate|rewrite Hw; vm_compute; discriminate]).
    rewrite Hw0. split; vm_compute; reflexivity.
Defined.

(** ** Compaction, then restart *)




(** ** Expiration sweeper *)

Lemma same_but_reads_refl w : same_but_reads w w.
Proof. repeat split; reflexivity. Qed.

Lemma same_but_reads_trans w1 w2 w3 :
  same_but_reads w1 w2 → same_but_reads w2 w3 → same_but_reads w1 w3.
Proof.
  intros (? & ? & ? & ? & ?) (? & ? & ? & ? & ?).
  repeat split; try congruence. lia.
Qed.

Lemma steady_from_same w w' now :
  steady_from w now → same_but_reads w w' → steady_from w' now.
Proof.
  intros H (_ & _ & _ & Hc & Hr) n Hn. rewrite Hc. apply H. lia.
Qed.

(** The test made on one entry. *)
Lemma collect_entry now (acc : list string) key e w :
  steady_from w now →
  ∃ w',
    (if 0 <? ExpiresAt e then
       now ← time_Now;
       if ExpiresAt e <? Unix now
       then mret (acc ++ [key])
       else mret acc
     else mret acc) w
    = Done (if decide (expired_at now e) then acc ++ [key] else acc) w'
    ∧ same_but_reads w w'.
Proof.
  intros Hclk. unfold expired_at.
  destruct (Z.ltb_spec 0 (ExpiresAt e)) as [Hpos|Hzero].
  - unfold mbind, M_bind, time_Now. rewrite (Hclk (reads w)) by lia.
    exists (set_reads (S (reads w)) w).
    split; [|repeat split; simpl; lia].
    destruct (Z.ltb_spec (ExpiresAt e) now) as [Hlt|Hge].
    + rewrite decide_True by (split; assumption). reflexivity.
    + rewrite decide_False by lia. reflexivity.
  - exists w. split; [|apply same_but_reads_refl].
    rewrite decide_False by lia. reflexivity.
Qed.

(** The scan of one shard. *)
Lemma collect_shard now (l : list (string * CacheItem)) (acc : list string) w :
  let body := fun (expiredKeys : list string) '((key, entry) : string * CacheItem) =>
                if 0 <? ExpiresAt entry then
                  now ← time_Now;
                  if ExpiresAt entry <? Unix now
                  then mret (expiredKeys ++ [key])
                  else mret expiredKeys
                else mret expiredKeys in
  steady_from w now →
  ∃ w',
    foldM body l acc w
    = Done (acc ++ (filter (λ p, expired_at now p.2) l).*1) w'
    ∧ same_but_reads w w'.
Proof.
  intros body. revert acc w. induction l as [|[key e] l IH]; intros acc w Hclk.
  - exists w. simpl. rewrite app_nil_r. split; [reflexivity|apply same_but_reads_refl].
  - cbn [foldM]. unfold mbind at 1, M_bind at 1.
    destruct (collect_entry now acc key e w Hclk) as (w1 & Hrun1 & Hsame1).
    change (body acc (key, e) w) with
      ((if 0 <? ExpiresAt e then
          now ← time_Now;
          if ExpiresAt e <? Unix now then mret (acc ++ [key]) else mret acc
        else mret acc) w).
    rewrite Hrun1.
    destruct (IH (if decide (expired_at now e) then acc ++ [key] else acc) w1)
      as (w' & Hrun & Hsame).
    { eapply steady_from_same; eassumption. }
    exists w'. rewrite Hrun. split; [|eapply same_but_reads_trans; eassumption].
    destruct (decide (expired_at now e)) as [He|He].
    + rewrite filter_cons_True by exact He. rewrite <- app_assoc. reflexivity.
    + rewrite filter_cons_False by exact He. reflexivity.
Qed.

(** The scan of all shards, one after the other. *)
Lemma collect_shards now (sh : list (gmap string CacheItem)) (acc : list string) w :
  let body := fun (expiredKeys : list string) (data : gmap string CacheItem) =>
                foldM (fun (expiredKeys : list string) '(key, entry) =>
                         if 0 <? ExpiresAt entry then
                           now ← time_Now;
                           if ExpiresAt entry <? Unix now
                           then mret (expiredKeys ++ [key])
                           else mret expiredKeys
                         else mret expiredKeys)
                      (map_to_list data) expiredKeys in
  steady_from w now →
  ∃ w',
    foldM body sh acc w
    = Done (acc ++ mjoin ((λ data, (filter (λ p, expired_at now p.2)
                                           (map_to_list data)).*1) <$> sh)) w'
    ∧ same_but_reads w w'.
Proof.
  intros body. revert acc w. induction sh as [|data sh IH]; intros acc w Hclk.
  - exists w. simpl. rewrite app_nil_r. split; [reflexivity|apply same_but_reads_refl].
  - cbn [foldM]. unfold mbind at 1, M_bind at 1.
    destruct (collect_shard now (map_to_list data) acc w Hclk) as (w1 & Hrun1 & Hsame1).
    unfold body at 1. rewrite Hrun1.
    destruct (IH (acc ++ (filter (λ p, expired_at now p.2) (map_to_list data)).*1) w1)
      as (w' & Hrun & Hsame).
    { eapply steady_from_same; eassumption. }
    exists w'. rewrite Hrun. split.
    + rewrite fmap_cons. cbn [mjoin list_join]. rewrite app_assoc. reflexivity.
    + eapply same_but_reads_trans; eassumption.
Qed.

Lemma collectExpiredKeys_collect w now :
  steady_from w now →
  ∃ keys w',
    collectExpiredKeys w = Done keys w'
    ∧ same_but_reads w w'
    ∧ ∀ k, k ∈ keys ↔
           ∃ i data e, shards w !! i = Some data ∧ data !! k = Some e
                       ∧ expired_at now e.
Proof.
  intros Hclk. unfold collectExpiredKeys.
  unfold mbind at 1, M_bind at 1, get_world.
  destruct (collect_shards now (shards w) [] w Hclk) as (w' & Hrun & Hsame).
  eexists _, w'. split; [exact Hrun|]. split; [exact Hsame|].
  intros k. rewrite app_nil_l, list_elem_of_join. split.
  - intros (l & Hk & Hl).
    apply list_elem_of_fmap in Hl as (data & -> & Hdata).
    apply list_elem_of_lookup in Hdata as [i Hi].
    apply list_elem_of_fmap in Hk as ([k' e] & -> & Hin).
    apply list_elem_of_filter in Hin as [Hexp Hin].
    apply elem_of_map_to_list in Hin.
    exists i, data, e. auto.
  - intros (i & data & e & Hi & He & Hexp).
    exists ((filter (λ p, expired_at now p.2) (map_to_list data)).*1). split.
    + apply list_elem_of_fmap. exists (k, e). split; [reflexivity|].
      apply list_elem_of_filter. split; [exact Hexp|].
      apply elem_of_map_to_list, He.
    + apply list_elem_of_fmap. exists data. split; [reflexivity|].
      apply list_elem_of_lookup. eauto.
Qed.

(** X13.  While the clock stays within second [now], [collectExpiredKeys]
    returns exactly the keys that some shard holds with an expiry second
    that is set and past ([0 < expires_at < now]); entries without expiry
    and entries expiring in the current second are never collected, and
    nothing but the count of clock readings changes. *)
Theorem collectExpiredKeys_spec w now :
  steady_from w now →
  ∃ keys w',
    collectExpiredKeys w = Done keys w'
    ∧ same_but_reads w w'
    ∧ ∀ k, k ∈ keys ↔
           ∃ i data e, shards w !! i = Some data ∧ data !! k = Some e
                       ∧ 0 < ExpiresAt e ∧ ExpiresAt e < now.
Proof.
  intros Hclk.
  destruct (collectExpiredKeys_collect w now Hclk) as (keys & w' & Hrun & Hsame & Hkeys).
  exists keys, w'. split; [exact Hrun|]. split; [exact Hsame|].
  intros k. rewrite Hkeys. unfold expired_at. reflexivity.
Qed.

Lemma steady_from_later :
  steady_from (world_of (Set_ "a" "1" (5 * Second) (fresh later))) 2000.
Proof.
  intros n Hn. change (reads _) with 2%nat in Hn.
  change (clock _) with later. unfold later.
  destruct (Nat.ltb_spec n 2) as [?|_]; [lia|]. reflexivity.
Qed.

Lemma collectExpiredKeys_spec_witness :
  ∃ keys w',
    collectExpiredKeys (world_of (Set_ "a" "1" (5 * Second) (fresh later)))
    = Done keys w'
    ∧ "a" ∈ keys.
Proof.
  destruct (collectExpiredKeys_spec _ 2000 steady_from_later)
    as (keys & w' & Hrun & _ & Hkeys).
  exists keys, w'. split; [exact Hrun|].
  apply Hkeys. exists 12%nat. eexists. exists (mkCacheItem "1" 1005).
  split; [vm_compute; reflexivity|].
  split; [vm_compute; reflexivity|]. simpl. lia.
Defined.

(** [cleanupMemory] removes the listed keys from their shards and nothing
    else; it writes no record. *)
Lemma cleanupMemory_effect keys w :
  wf w →
  ∃ w',
    cleanupMemory keys w = Done tt w'
    ∧ wf w' ∧ repo w' = repo w ∧ timeWheel w' = timeWheel w
    ∧ clock w' = clock w ∧ reads w' = reads w
    ∧ ∀ k, entry_of w' k = if decide (k ∈ keys) then None else entry_of w k.
Proof.
  revert w. induction keys as [|key keys IH]; intros w Hwf.
  - exists w. split; [reflexivity|]. split; [exact Hwf|].
    do 4 (split; [reflexivity|]).
    intros k. rewrite decide_False by apply not_elem_of_nil. reflexivity.
  - destruct (wf_shard_Some w key Hwf) as [data Hdata].
    assert (Hlt : (getShard key < length (shards w))%nat)
      by (eapply lookup_lt_Some; eauto).
    set (w1 := set_shards (<[getShard key := delete key data]> (shards w)) w).
    destruct (IH w1) as (w' & Hrun & Hwf' & Hrepo & Hwheel & Hclock & Hreads & Hentry).
    { apply wf_set_shards, Hwf. }
    exists w'. split.
    { unfold cleanupMemory in *. cbn [forM_]. unfold_M. rewrite Hdata. exact Hrun. }
    split; [exact Hwf'|]. do 4 (split; [assumption|]).
    intros k. rewrite Hentry.
    destruct (decide (k = key)) as [->|Hk].
    + rewrite (decide_True (P := key ∈ key :: keys)) by (left).
      destruct (decide (key ∈ keys)); [reflexivity|].
      unfold entry_of, w1. cbn [shards set_shards].
      rewrite list_lookup_insert_eq by exact Hlt. simpl. apply lookup_delete_eq.
    + assert (Hiff : k ∈ key :: keys ↔ k ∈ keys).
      { rewrite elem_of_cons. tauto. }
      destruct (decide (k ∈ keys)) as [Hin|Hin].
      * rewrite decide_True by (apply Hiff; exact Hin). reflexivity.
      * rewrite decide_False by (rewrite Hiff; exact Hin).
        unfold entry_of, w1. cbn [shards set_shards].
        eapply entry_of_store_ne; [exact Hdata|].
        apply lookup_delete_ne. congruence.
Qed.

(** X14.  One pass of the sweeper, on a well-formed state whose keys sit in
    their shards and while the clock stays within second [now]: the pass
    returns; the keys it hands to [CleanupAOF] are exactly the keys whose
    entry has expired ([0 < expires_at < now]); those entries are gone
    afterwards and every other entry is as before, entries without expiry
    included; and the pass writes no DEL record and leaves the wheel
    alone. *)
Theorem startExpirationChecker_tick_spec w now :
  wf w → keys_at_home w → steady_from w now →
  ∃ keys w',
    startExpirationChecker_tick w = Done keys w'
    ∧ wf w' ∧ repo w' = repo w ∧ timeWheel w' = timeWheel w
    ∧ (∀ k, k ∈ keys ↔ ∃ e, entry_of w k = Some e ∧ expired_at now e)
    ∧ (∀ k e, entry_of w k = Some e → expired_at now e → entry_of w' k = None)
    ∧ (∀ k, (∀ e, entry_of w k = Some e → ¬ expired_at now e) →
            entry_of w' k = entry_of w k).
Proof.
  intros Hwf Hhome Hclk.
  destruct (collectExpiredKeys_collect w now Hclk) as (keys & w1 & Hrun1 & Hsame & Hkeys).
  destruct Hsame as (Hrepo1 & Hsh1 & Hwheel1 & Hclock1 & Hreads1).
  assert (Hwf1 : wf w1).
  { apply (wf_same_shape _ _ Hwf); congruence. }
  assert (Hentry1 : ∀ k, entry_of w1 k = entry_of w k).
  { intros k. unfold entry_of. rewrite Hsh1. reflexivity. }
  assert (Hkeys' : ∀ k, k ∈ keys ↔ ∃ e, entry_of w k = Some e ∧ expired_at now e).
  { intros k. rewrite Hkeys. split.
    - intros (i & data & e & Hi & He & Hexp).
      assert (i = getShard k) as -> by (eapply Hhome; eauto).
      exists e. split; [|exact Hexp].
      unfold entry_of. rewrite Hi. exact He.
    - intros (e & He & Hexp). unfold entry_of in He.
      destruct (shards w !! getShard k) as [data|] eqn:Hi; [|discriminate].
      exists (getShard k), data, e. auto. }
  destruct (cleanupMemory_effect keys w1 Hwf1)
    as (w2 & Hrun2 & Hwf2 & Hrepo2 & Hwheel2 & _ & _ & Hentry2).
  assert (Hfinal : ∃ w',
            startExpirationChecker_tick w = Done keys w'
            ∧ wf w' ∧ repo w' = repo w ∧ timeWheel w' = timeWheel w
            ∧ ∀ k, entry_of w' k = if decide (k ∈ keys) then None else entry_of w k).
  { unfold startExpirationChecker_tick, mbind, M_bind. rewrite Hrun1.
    destruct keys as [|key keys].
    - exists w1. split; [reflexivity|]. split; [exact Hwf1|].
      do 2 (split; [assumption|]).
      intros k. rewrite decide_False by apply not_elem_of_nil. apply Hentry1.
    - rewrite Hrun2.
      exists w2. split; [reflexivity|]. split; [exact Hwf2|].
      do 2 (split; [congruence|]).
      intros k. rewrite Hentry2, Hentry1. reflexivity. }
  destruct Hfinal as (w' & Hrun & Hwf' & Hrepo & Hwheel & Hentry).
  exists keys, w'. split; [exact Hrun|]. split; [exact Hwf'|].
  do 2 (split; [assumption|]). split; [exact Hkeys'|]. split.
  - intros k e He Hexp. rewrite Hentry, decide_True; [reflexivity|].
    apply Hkeys'. eauto.
  - intros k Hlive. rewrite Hentry, decide_False; [reflexivity|].
    rewrite Hkeys'. intros (e & He & Hexp). exact (Hlive e He Hexp).
Qed.

Lemma startExpirationChecker_tick_spec_witness :
  ∃ keys w',
    startExpirationChecker_tick
      (world_of (lifetime later None [CallSet "a" "1" (5 * Second)]))
    = Done keys w'
    ∧ entry_of w' "a" = None.
Proof.
  destruct (startExpirationChecker_tick_spec
              (world_of (lifetime later None [CallSet "a" "1" (5 * Second)])) 2000)
    as (keys & w' & Hrun & _ & _ & _ & _ & Hgone & _).
  - apply wf_lifetime.
  - apply keys_at_home_lifetime.
  - intros n Hn. change (reads _) with 2%nat in Hn.
    change (clock _) with later. unfold later.
    destruct (Nat.ltb_spec n 2) as [?|_]; [lia|]. reflexivity.
  - exists keys, w'. split; [exact Hrun|].
    apply (Hgone "a" (mkCacheItem "1" 1005)).
    + vm_compute. reflexivity.
    + split; simpl; lia.
Defined.

(** ** What a wheel tick does *)

(** The treatment of one entry of the slot that the wheel has reached. *)
Lemma fire_entry (i now : Z) key ts w :
  wf w → 0 <= i < 60 →
  ∃ w',
    (if ts <? now
     then
       cur ← wheel_slot i;
       modify (fun w => set_timeWheel
                 (set_slot (Z.to_nat i) (delete key cur) (timeWheel w)) w);;
       Delete key;;
       mret tt
     else mret tt) w = Done tt w'
    ∧ wf w' ∧ index (timeWheel w') = index (timeWheel w)
    ∧ clock w' = clock w ∧ reads w' = reads w
    ∧ repo w' = repo w ++ (if decide (ts < now) then [DEL_record key] else [])
    ∧ (∀ k, entry_of w' k
            = if decide (ts < now ∧ k = key) then None else entry_of w k)
    ∧ (∀ k, wheel_entry w' i k
            = if decide (ts < now ∧ k = key) then None else wheel_entry w i k)
    ∧ (∀ j : nat, j ≠ Z.to_nat i →
         slots (timeWheel w') !! j = slots (timeWheel w) !! j).
Proof.
  intros Hwf Hi.
  destruct (Z.ltb_spec ts now) as [Hlt|Hge].
  - destruct (lookup_lt_is_Some_2 (slots (timeWheel w)) (Z.to_nat i)) as [cur Hcur].
    { rewrite (wf_slots _ Hwf). lia. }
    set (w1 := set_timeWheel (set_slot (Z.to_nat i) (delete key cur) (timeWheel w)) w).
    assert (Hwf1 : wf w1) by apply wf_set_slot, Hwf.
    destruct (Delete_effect w1 key Hwf1)
      as (w' & Hrun & Hwf' & Hclock & Hrepo & Hkey & Hother).
    assert (Hframe : timeWheel w' = timeWheel w1 ∧ reads w' = reads w1).
    { destruct (wf_shard_Some w1 key Hwf1) as [data Hdata].
      rewrite (Delete_run w1 key data Hdata) in Hrun. injection Hrun as <-.
      split; reflexivity. }
    destruct Hframe as [Hwheel Hreads].
    exists w'. split.
    { unfold mbind at 1, M_bind at 1, wheel_slot.
      destruct (Z.ltb_spec i 0) as [?|_]; [lia|]. rewrite Hcur.
      unfold mbind at 1, M_bind at 1, modify. fold w1.
      unfold mbind at 1, M_bind at 1. rewrite Hrun. reflexivity. }
    split; [exact Hwf'|]. split; [rewrite Hwheel; reflexivity|].
    split; [rewrite Hclock; reflexivity|]. split; [rewrite Hreads; reflexivity|].
    split; [rewrite Hrepo, decide_True by exact Hlt; reflexivity|].
    split; [|split].
    + intros k. destruct (decide (k = key)) as [->|Hk].
      * rewrite decide_True by auto. exact Hkey.
      * rewrite decide_False by tauto. rewrite Hother by exact Hk. reflexivity.
    + intros k. unfold wheel_entry. rewrite Hwheel. unfold w1.
      cbn [timeWheel set_timeWheel slots set_slot].
      rewrite list_lookup_insert_eq by (eapply lookup_lt_Some; eauto).
      rewrite Hcur. simpl.
      destruct (decide (k = key)) as [->|Hk].
      * rewrite decide_True by auto. apply lookup_delete_eq.
      * rewrite decide_False by tauto. apply lookup_delete_ne. congruence.
    + intros j Hj. rewrite Hwheel. unfold w1.
      cbn [timeWheel set_timeWheel slots set_slot].
      apply list_lookup_insert_ne. congruence.
  - exists w. split; [reflexivity|]. split; [exact Hwf|].
    do 3 (split; [reflexivity|]).
    split; [rewrite decide_False by lia; rewrite app_nil_r; reflexivity|].
    split; [|split].
    + intros k. rewrite decide_False by lia. reflexivity.
    + intros k. rewrite decide_False by lia. reflexivity.
    + reflexivity.
Qed.

Lemma fired_keys_cons now key ts l k :
  k ∈ fired_keys now ((key, ts) :: l) ↔ (ts < now ∧ k = key) ∨ k ∈ fired_keys now l.
Proof.
  unfold fired_keys.
  destruct (decide (ts < now)) as [Hlt|Hge].
  - rewrite filter_cons_True by exact Hlt. rewrite fmap_cons, elem_of_cons. simpl. tauto.
  - rewrite filter_cons_False by exact Hge. tauto.
Qed.

(** The loop over the entries of the slot. *)
Lemma fire_slot_loop (i now : Z) (l : list (string * Z)) w :
  let body := fun '((key, expiresAt) : string * Z) =>
                if expiresAt <? now
                then
                  cur ← wheel_slot i;
                  modify (fun w => set_timeWheel
                            (set_slot (Z.to_nat i) (delete key cur) (timeWheel w)) w);;
                  Delete key;;
                  mret tt
                else mret tt in
  wf w → 0 <= i < 60 →
  ∃ w',
    forM_ l body w = Done tt w'
    ∧ wf w' ∧ index (timeWheel w') = index (timeWheel w)
    ∧ clock w' = clock w ∧ reads w' = reads w
    ∧ repo w' = repo w ++ (DEL_record <$> fired_keys now l)
    ∧ (∀ k, entry_of w' k
            = if decide (k ∈ fired_keys now l) then None else entry_of w k)
    ∧ (∀ k, wheel_entry w' i k
            = if decide (k ∈ fired_keys now l) then None else wheel_entry w i k)
    ∧ (∀ j : nat, j ≠ Z.to_nat i →
         slots (timeWheel w') !! j = slots (timeWheel w) !! j).
Proof.
  intros body Hwf Hi. revert w Hwf.
  induction l as [|[key ts] l IH]; intros w Hwf.
  - exists w. split; [reflexivity|]. split; [exact Hwf|].
    do 3 (split; [reflexivity|]).
    split; [simpl; rewrite app_nil_r; reflexivity|].
    split; [|split]; try reflexivity;
      intros k; rewrite decide_False by apply not_elem_of_nil; reflexivity.
  - destruct (fire_entry i now key ts w Hwf Hi)
      as (w1 & Hrun1 & Hwf1 & Hidx1 & Hclock1 & Hreads1 & Hrepo1 & Hentry1 & Hwheel1 & Hslots1).
    destruct (IH w1 Hwf1)
      as (w' & Hrun & Hwf' & Hidx & Hclock & Hreads & Hrepo & Hentry & Hwheel & Hslots).
    exists w'. split.
    { cbn [forM_]. unfold mbind at 1, M_bind at 1.
      change (body (key, ts) w) with
        ((if ts <? now
          then
            cur ← wheel_slot i;
            modify (fun w => set_timeWheel
                      (set_slot (Z.to_nat i) (delete key cur) (timeWheel w)) w);;
            Delete key;;
            mret tt
          else mret tt) w).
      rewrite Hrun1. exact Hrun. }
    split; [exact Hwf'|]. split; [congruence|]. split; [congruence|].
    split; [congruence|]. split.
    { rewrite Hrepo, Hrepo1, <- app_assoc. f_equal. unfold fired_keys.
      destruct (decide (ts < now)) as [Hlt|Hge].
      - rewrite filter_cons_True by exact Hlt. reflexivity.
      - rewrite filter_cons_False by exact Hge. reflexivity. }
    split; [|split].
    + intros k. rewrite Hentry, Hentry1.
      pose proof (fired_keys_cons now key ts l k) as Hc.
      repeat case_decide; try reflexivity; tauto.
    + intros k. rewrite Hwheel, Hwheel1.
      pose proof (fired_keys_cons now key ts l k) as Hc.
      repeat case_decide; try reflexivity; tauto.
    + intros j Hj. rewrite Hslots, Hslots1 by exact Hj. reflexivity.
Qed.

(** The effect of a tick, in full. *)
Lemma TimeWheel_run_tick_effect w :
  wf w →
  let i := (index (timeWheel w) + 1) mod 60 in
  let now := Unix (clock w (reads w)) in
  ∃ w',
    TimeWheel_run_tick w = Done tt w'
    ∧ wf w' ∧ index (timeWheel w') = i
    ∧ clock w' = clock w ∧ reads w' = S (reads w)
    ∧ (∀ k ts, wheel_entry w i k = Some ts → ts < now →
         entry_of w' k = None ∧ wheel_entry w' i k = None
         ∧ DEL_record k ∈ repo w')
    ∧ (∀ k, (∀ ts, wheel_entry w i k = Some ts → now <= ts) →
         entry_of w' k = entry_of w k ∧ wheel_entry w' i k = wheel_entry w i k)
    ∧ (∀ j k, 0 <= j → j ≠ i → wheel_entry w' j k = wheel_entry w j k)
    ∧ (∃ fired,
         repo w' = repo w ++ (DEL_record <$> fired)
         ∧ ∀ k, k ∈ fired ↔ ∃ ts, wheel_entry w i k = Some ts ∧ ts < now).
Proof.
  intros Hwf i now.
  pose proof (wf_index _ Hwf) as Hidx.
  assert (Hi : 0 <= i < 60) by (apply Z.mod_pos_bound; lia).
  assert (Hrem : Z.rem (index (timeWheel w) + 1) (Z.of_nat (length (slots (timeWheel w)))) = i).
  { rewrite (wf_slots _ Hwf). change (Z.of_nat 60) with 60.
    apply Z.rem_mod_nonneg; lia. }
  destruct (lookup_lt_is_Some_2 (slots (timeWheel w)) (Z.to_nat i)) as [slot Hslot].
  { rewrite (wf_slots _ Hwf). lia. }
  set (w2 := set_reads (S (reads w)) (set_timeWheel (set_index i (timeWheel w)) w)).
  assert (Hwf2 : wf w2) by (apply wf_set_reads, wf_set_index; assumption).
  destruct (fire_slot_loop i now (map_to_list slot) w2 Hwf2 Hi)
    as (w' & Hrun & Hwf' & Hidx' & Hclock' & Hreads' & Hrepo & Hentry & Hwheel & Hslots).
  assert (Hfired : ∀ k, k ∈ fired_keys now (map_to_list slot)
                        ↔ ∃ ts, wheel_entry w i k = Some ts ∧ ts < now).
  { intros k. unfold fired_keys, wheel_entry. rewrite Hslot. simpl.
    rewrite list_elem_of_fmap. split.
    - intros ([k' ts] & -> & [Hlt Hin]%list_elem_of_filter).
      apply elem_of_map_to_list in Hin. eauto.
    - intros (ts & Hk & Hlt). exists (k, ts). split; [reflexivity|].
      apply list_elem_of_filter. split; [exact Hlt|].
      apply elem_of_map_to_list, Hk. }
  exists w'. split.
  { unfold TimeWheel_run_tick.
    unfold mbind at 1, M_bind at 1, get_world.
    rewrite Hrem. rewrite (wf_slots _ Hwf). change (Z.of_nat 60 =? 0) with false.
    cbv iota.
    unfold mbind at 1, M_bind at 1, modify at 1.
    unfold mbind at 1, M_bind at 1, time_Now.
    cbn [clock reads set_timeWheel]. fold w2. fold now.
    unfold mbind at 1, M_bind at 1, wheel_slot at 1.
    destruct (Z.ltb_spec i 0) as [?|_]; [lia|].
    change (slots (timeWheel w2)) with (slots (timeWheel w)). rewrite Hslot.
    exact Hrun. }
  split; [exact Hwf'|]. split; [rewrite Hidx'; reflexivity|].
  split; [rewrite Hclock'; reflexivity|]. split; [rewrite Hreads'; reflexivity|].
  split; [|split; [|split]].
  - intros k ts Hk Hlt.
    assert (Hin : k ∈ fired_keys now (map_to_list slot)) by (apply Hfired; eauto).
    rewrite Hentry, Hwheel, !decide_True by exact Hin.
    split; [reflexivity|]. split; [reflexivity|].
    rewrite Hrepo. apply elem_of_app. right.
    apply list_elem_of_fmap. eauto.
  - intros k Hlate.
    assert (Hout : k ∉ fired_keys now (map_to_list slot)).
    { rewrite Hfired. intros (ts & Hk & Hlt). specialize (Hlate ts Hk). lia. }
    rewrite Hentry, Hwheel, !decide_False by exact Hout.
    split; reflexivity.
  - intros j k Hj Hne. unfold wheel_entry.
    rewrite Hslots by lia. reflexivity.
  - exists (fired_keys now (map_to_list slot)). split; [exact Hrepo|exact Hfired].
Qed.



(** ** The wheel that holds keys only *)

Lemma Delete_all_effect (keys : list string) w :
  wf w →
  ∃ w',
    forM_ keys (fun key => Delete key;; mret tt) w = Done tt w'
    ∧ wf w' ∧ repo w' = repo w ++ (DEL_record <$> keys)
    ∧ timeWheel w' = timeWheel w
    ∧ ∀ k, entry_of w' k = if decide (k ∈ keys) then None else entry_of w k.
Proof.
  revert w. induction keys as [|key keys IH]; intros w Hwf.
  - exists w. split; [reflexivity|]. split; [exact Hwf|].
    split; [simpl; rewrite app_nil_r; reflexivity|]. split; [reflexivity|].
    intros k. rewrite decide_False by apply not_elem_of_nil. reflexivity.
  - destruct (Delete_effect w key Hwf)
      as (w1 & Hrun1 & Hwf1 & _ & Hrepo1 & Hkey1 & Hother1).
    assert (Hwheel1 : timeWheel w1 = timeWheel w).
    { destruct (wf_shard_Some w key Hwf) as [data Hdata].
      rewrite (Delete_run w key data Hdata) in Hrun1. injection Hrun1 as <-.
      reflexivity. }
    destruct (IH w1 Hwf1) as (w' & Hrun & Hwf' & Hrepo & Hwheel & Hentry).
    exists w'. split.
    { cbn [forM_]. unfold mbind at 1, M_bind at 1.
      unfold mbind at 1, M_bind at 1. rewrite Hrun1. exact Hrun. }
    split; [exact Hwf'|].
    split; [rewrite Hrepo, Hrepo1, <- app_assoc; reflexivity|].
    split; [congruence|].
    intros k. rewrite Hentry.
    destruct (decide (k = key)) as [->|Hk].
    + rewrite (decide_True (P := key ∈ key :: keys)) by left.
      destruct (decide (key ∈ keys)); [reflexivity|exact Hkey1].
    + assert (Hiff : k ∈ key :: keys ↔ k ∈ keys) by (rewrite elem_of_cons; tauto).
      destruct (decide (k ∈ keys)) as [Hin|Hin].
      * rewrite decide_True by (apply Hiff; exact Hin). reflexivity.
      * rewrite decide_False by (rewrite Hiff; exact Hin). apply Hother1, Hk.
Qed.

(** X16.  The wheel that keeps only keys makes no test at all.  [Add] with
    a TTL that is not negative puts the key into slot
    [(index + ttl / tick) mod 60], so TTLs a whole rotation apart share a
    slot; and a tick empties the slot it reaches: every key in it loses its
    cache entry, whatever that entry's expiry, with one DEL record logged
    for it, in the order in which the map is visited, while all other
    entries and slots stay as they are. *)
Theorem KeyOnlyWheel_spec range (tw : KeyOnlyWheel.TimeWheel) w :
  map_order range →
  wf w →
  length (KeyOnlyWheel.slots tw) = 60%nat →
  KeyOnlyWheel.tick tw = Second →
  0 <= KeyOnlyWheel.index tw < 60 →
  (∀ key ttl,
     0 <= ttl →
     let s := Z.to_nat ((KeyOnlyWheel.index tw + ttl / Second) mod 60) in
     ∃ tw' slot,
       KeyOnlyWheel.Add key ttl tw = Some tw'
       ∧ KeyOnlyWheel.slots tw !! s = Some slot
       ∧ KeyOnlyWheel.slots tw' = <[s := {[key]} ∪ slot]> (KeyOnlyWheel.slots tw)
       ∧ KeyOnlyWheel.index tw' = KeyOnlyWheel.index tw)
  ∧ (let i := Z.to_nat ((KeyOnlyWheel.index tw + 1) mod 60) in
     ∃ slot tw' w' fired,
       KeyOnlyWheel.slots tw !! i = Some slot
       ∧ KeyOnlyWheel.run_tick range tw w = Done tw' w'
       ∧ wf w'
       ∧ KeyOnlyWheel.index tw' = (KeyOnlyWheel.index tw + 1) mod 60
       ∧ KeyOnlyWheel.slots tw' = <[i := ∅]> (KeyOnlyWheel.slots tw)
       ∧ repo w' = repo w ++ (DEL_record <$> fired)
       ∧ fired ≡ₚ elements slot
       ∧ (∀ k, k ∈ slot → entry_of w' k = None)
       ∧ (∀ k, k ∉ slot → entry_of w' k = entry_of w k)).
Proof.
  intros Hrange Hwf Hlen Htick Hidx. split.
  - intros key ttl Httl s.
    assert (Hq : 0 <= ttl / Second) by (apply Z.div_pos; unfold Second; lia).
    assert (Hs : 0 <= (KeyOnlyWheel.index tw + ttl / Second) mod 60 < 60)
      by (apply Z.mod_pos_bound; lia).
    destruct (lookup_lt_is_Some_2 (KeyOnlyWheel.slots tw) s) as [slot Hslot].
    { rewrite Hlen. unfold s. lia. }
    exists (KeyOnlyWheel.mkTimeWheel (<[s := {[key]} ∪ slot]> (KeyOnlyWheel.slots tw))
              (KeyOnlyWheel.tick tw) (KeyOnlyWheel.index tw)), slot.
    split; [|split; [exact Hslot|split; reflexivity]].
    unfold KeyOnlyWheel.Add. rewrite Htick, Hlen.
    change ((Second =? 0) || (Z.of_nat 60 =? 0)) with false. cbv iota.
    rewrite Z.quot_div_nonneg by (unfold Second; lia).
    change (Z.of_nat 60) with 60. rewrite Z.rem_mod_nonneg by lia.
    destruct (Z.ltb_spec ((KeyOnlyWheel.index tw + ttl / Second) mod 60) 0); [lia|].
    fold s. rewrite Hslot. reflexivity.
  - intros i.
    assert (Hi : 0 <= (KeyOnlyWheel.index tw + 1) mod 60 < 60)
      by (apply Z.mod_pos_bound; lia).
    destruct (lookup_lt_is_Some_2 (KeyOnlyWheel.slots tw) i) as [slot Hslot].
    { rewrite Hlen. unfold i. lia. }
    destruct (Delete_all_effect (range slot) w Hwf)
      as (w' & Hrun & Hwf' & Hrepo & _ & Hentry).
    assert (Hin : ∀ k, k ∈ range slot ↔ k ∈ slot).
    { intros k. rewrite (Hrange slot). apply elem_of_elements. }
    exists slot,
      (KeyOnlyWheel.mkTimeWheel (<[i := ∅]> (KeyOnlyWheel.slots tw))
         (KeyOnlyWheel.tick tw) ((KeyOnlyWheel.index tw + 1) mod 60)), w',
      (range slot).
    split; [exact Hslot|]. split.
    { unfold KeyOnlyWheel.run_tick. rewrite Hlen.
      change (Z.of_nat 60 =? 0) with false. cbv iota.
      change (Z.of_nat 60) with 60. rewrite Z.rem_mod_nonneg by lia.
      destruct (Z.ltb_spec ((KeyOnlyWheel.index tw + 1) mod 60) 0); [lia|].
      fold i. rewrite Hslot.
      unfold mbind at 1, M_bind at 1. rewrite Hrun. reflexivity. }
    split; [exact Hwf'|]. do 3 (split; [reflexivity || exact Hrepo|]).
    split; [apply Hrange|]. split.
    + intros k Hk. rewrite Hentry, decide_True; [reflexivity|].
      apply Hin, Hk.
    + intros k Hk. rewrite Hentry, decide_False; [reflexivity|].
      rewrite Hin. exact Hk.
Qed.

(** Two keys in the slot that the first tick reaches: both lose their
    entries, and the log has one DEL record for each. *)
Lemma KeyOnlyWheel_spec_witness :
  ∃ w tw tw' w' fired,
    (Set_ "a" "1" 0;; Set_ "b" "2" 0;; mret tt) (fresh frozen) = Done tt w
    ∧ KeyOnlyWheel.slots tw !! 1%nat = Some ({[ "a"; "b" ]} : gset string)
    ∧ KeyOnlyWheel.run_tick elements tw w = Done tw' w'
    ∧ KeyOnlyWheel.index tw' = 1
    ∧ repo w' = repo w ++ (DEL_record <$> fired)
    ∧ fired ≡ₚ elements ({[ "a"; "b" ]} : gset string)
    ∧ entry_of w "a" = Some (mkCacheItem "1" 0)
    ∧ entry_of w' "a" = None ∧ entry_of w' "b" = None.
Proof.
  set (w := world_of ((Set_ "a" "1" 0;; Set_ "b" "2" 0;; mret tt) (fresh frozen))).
  set (tw := KeyOnlyWheel.mkTimeWheel
               (<[1%nat := ({[ "a"; "b" ]} : gset string)]> (replicate 60 ∅)) Second 0).
  destruct (KeyOnlyWheel_spec elements tw w) as [_ Htick].
  - intros slot. reflexivity.
  - split; try (vm_compute; reflexivity).
    vm_compute. split; [discriminate|reflexivity].
  - reflexivity.
  - reflexivity.
  - simpl. lia.
  - destruct Htick as (slot & tw' & w' & fired & Hslot & Hrun & _ & Hidx & _
                       & Hrepo & Hperm & Hin & _).
    assert (slot = {[ "a"; "b" ]}) as ->.
    { change (<[1%nat := ({[ "a"; "b" ]} : gset string)]> (replicate 60 ∅) !! 1%nat
              = Some slot) in Hslot.
      cbn in Hslot. congruence. }
    exists w, tw, tw', w', fired.
    split; [vm_compute; reflexivity|]. split; [reflexivity|].
    split; [exact Hrun|]. split; [exact Hidx|]. split; [exact Hrepo|].
    split; [exact Hperm|]. split; [vm_compute; reflexivity|].
    split; apply Hin; set_solver.
Defined.

(** ** Recovery and the first rotation of the wheel *)

(** The two steps that recovery takes for a live SET record: store the
    entry, register the key in the wheel with a TTL of zero. *)
Lemma store_and_register w key e :
  wf w → index (timeWheel w) = 0 →
  ∃ w',
    (data ← shard_Data (getShard key);
     shard_store (getShard key) (<[key := e]> data);;
     TimeWheel_Add key 0) w = Done tt w'
    ∧ wf w' ∧ clock w' = clock w ∧ reads w' = S (reads w)
    ∧ index (timeWheel w') = 0
    ∧ entry_of w' key = Some e
    ∧ (∀ k, k ≠ key → entry_of w' k = entry_of w k)
    ∧ wheel_entry w' 0 key = Some (Unix (clock w (reads w)))
    ∧ (∀ j k, 0 <= j → j ≠ 0 ∨ k ≠ key → wheel_entry w' j k = wheel_entry w j k).
Proof.
  intros Hwf Hidx.
  destruct (wf_shard_Some w key Hwf) as [data Hdata].
  assert (Hlt : (getShard key < length (shards w))%nat)
    by (eapply lookup_lt_Some; eauto).
  set (w1 := set_shards (<[getShard key := <[key := e]> data]> (shards w)) w).
  assert (Hwf1 : wf w1) by apply wf_set_shards, Hwf.
  destruct (TimeWheel_Add_run w1 key 0 Hwf1 ltac:(lia)) as (slot & Hslot & Hadd).
  assert (Hs : (index (timeWheel w1) + 0 / Second) mod 60 = 0).
  { change (timeWheel w1) with (timeWheel w). rewrite Hidx. reflexivity. }
  rewrite Hs in Hslot, Hadd. change (Z.to_nat 0) with 0%nat in Hslot, Hadd.
  rewrite Z.add_0_r in Hadd.
  eexists. split.
  { unfold_M. fold (TimeWheel_Add key 0). rewrite Hdata. cbv beta iota.
    fold w1. exact Hadd. }
  split; [same_shape Hwf|]. split; [reflexivity|]. split; [reflexivity|].
  split; [exact Hidx|]. split; [|split; [|split]].
  - unfold entry_of, w1. cbn [shards set_timeWheel set_reads set_shards].
    rewrite list_lookup_insert_eq by exact Hlt. simpl. apply lookup_insert_eq.
  - intros k Hk. unfold entry_of, w1. cbn [shards set_timeWheel set_reads set_shards].
    eapply entry_of_store_ne; [exact Hdata|]. apply lookup_insert_ne. congruence.
  - unfold wheel_entry. cbn [timeWheel set_timeWheel slots set_slot].
    change (Z.to_nat 0) with 0%nat.
    rewrite list_lookup_insert_eq by (eapply lookup_lt_Some; exact Hslot).
    simpl. apply lookup_insert_eq.
  - intros j k Hj Hjk. unfold wheel_entry.
    cbn [timeWheel set_timeWheel slots set_slot set_reads].
    change (slots (timeWheel w1)) with (slots (timeWheel w)) in *.
    destruct (decide (Z.to_nat j = 0%nat)) as [Hj0|Hj0].
    + rewrite Hj0. rewrite list_lookup_insert_eq by (eapply lookup_lt_Some; exact Hslot).
      rewrite Hslot. simpl. apply lookup_insert_ne.
      destruct Hjk as [?|?]; [lia|congruence].
    + rewrite list_lookup_insert_ne by congruence. reflexivity.
Qed.

Lemma registered_at_start_reads w :
  registered_at_start w → registered_at_start (set_reads (S (reads w)) w).
Proof.
  intros (Hidx & Hrest & Hreg). split; [exact Hidx|]. split; [exact Hrest|].
  intros k e He. destruct (Hreg k e He) as (n & Hn & Hw).
  exists n. split; [simpl; lia|exact Hw].
Qed.

Lemma registered_at_start_store w w' key e :
  registered_at_start w →
  clock w' = clock w → reads w' = S (reads w) → index (timeWheel w') = 0 →
  (∀ k, k ≠ key → entry_of w' k = entry_of w k) →
  wheel_entry w' 0 key = Some (Unix (clock w (reads w))) →
  (∀ j k, 0 <= j → j ≠ 0 ∨ k ≠ key → wheel_entry w' j k = wheel_entry w j k) →
  entry_of w' key = Some e →
  registered_at_start w'.
Proof.
  intros (Hidx & Hrest & Hreg) Hclock Hreads Hidx' Hother Hkey Hframe _.
  split; [exact Hidx'|]. split.
  - intros j k Hj. rewrite Hframe by lia. apply Hrest, Hj.
  - intros k e' He'. rewrite Hclock, Hreads.
    destruct (decide (k = key)) as [->|Hk].
    + exists (reads w). split; [lia|exact Hkey].
    + rewrite Hother in He' by exact Hk.
      destruct (Hreg k e' He') as (n & Hn & Hw).
      exists n. split; [lia|]. rewrite Hframe by auto with lia. exact Hw.
Qed.

Lemma registered_at_start_apply w cmd :
  wf w → registered_at_start w → written cmd →
  ∃ w',
    loadFromDisk_apply cmd w = Done tt w'
    ∧ wf w' ∧ clock w' = clock w ∧ registered_at_start w'.
Proof.
  intros Hwf Hreg [(key & value & exp & ->)|(key & ->)].
  - unfold loadFromDisk_apply, SET_record.
    change (iface_eq_string (VString "SET") "SET") with true. cbv iota.
    unfold mbind at 1, M_bind at 1.
    destruct (Z.eqb_spec exp 0) as [->|Hexp].
    + cbn [mret M_ret].
      destruct (store_and_register w key (mkCacheItem value 0) Hwf (proj1 Hreg))
        as (w' & Hrun & Hwf' & Hclock & Hreads & Hidx & Hkey & Hother & Hwheel & Hframe).
      exists w'. split; [exact Hrun|]. split; [exact Hwf'|]. split; [exact Hclock|].
      eapply registered_at_start_store; eassumption.
    + unfold mbind at 1, M_bind at 1, time_Now. cbn [mret M_ret].
      set (w0 := set_reads (S (reads w)) w).
      assert (Hwf0 : wf w0) by apply wf_set_reads, Hwf.
      assert (Hreg0 : registered_at_start w0) by apply registered_at_start_reads, Hreg.
      destruct (Unix (clock w (reads w)) <? exp).
      * destruct (store_and_register w0 key (mkCacheItem value exp) Hwf0 (proj1 Hreg0))
          as (w' & Hrun & Hwf' & Hclock & Hreads & Hidx & Hkey & Hother & Hwheel & Hframe).
        exists w'. split; [exact Hrun|]. split; [exact Hwf'|]. split; [exact Hclock|].
        eapply registered_at_start_store; eassumption.
      * exists w0. split; [reflexivity|]. auto.
  - destruct (loadFromDisk_apply_DEL w key Hwf) as (data & Hdata & Hrun).
    eexists. split; [exact Hrun|]. split; [apply wf_set_shards, Hwf|].
    split; [reflexivity|].
    destruct Hreg as (Hidx & Hrest & Hreg).
    split; [exact Hidx|]. split; [exact Hrest|].
    intros k e He.
    assert (Hlt : (getShard key < length (shards w))%nat)
      by (eapply lookup_lt_Some; eauto).
    apply (Hreg k e).
    destruct (decide (k = key)) as [->|Hk].
    + unfold entry_of in He. cbn [shards set_shards] in He.
      rewrite list_lookup_insert_eq in He by exact Hlt. simpl in He.
      rewrite lookup_delete_eq in He. discriminate.
    + rewrite <- He. symmetry. unfold entry_of. cbn [shards set_shards].
      eapply entry_of_store_ne; [exact Hdata|]. apply lookup_delete_ne. congruence.
Qed.

Lemma registered_at_start_recovery clk cmds :
  Forall written cmds →
  ∃ w,
    NewGoCacheUsecase clk (Some (map Encoded cmds)) = Done tt w
    ∧ wf w ∧ clock w = clk ∧ registered_at_start w.
Proof.
  intros Hall. unfold NewGoCacheUsecase, loadFromDisk.
  assert (H0 : registered_at_start (fresh clk)).
  { split; [reflexivity|]. split.
    - intros j k Hj. unfold wheel_entry, fresh, NewTimeWheel. cbn [timeWheel slots].
      destruct (replicate 60 (∅ : gmap string Z) !! Z.to_nat j) as [slot|] eqn:H;
        [|reflexivity].
      apply lookup_replicate in H as [-> _]. simpl. apply lookup_empty.
    - intros k e He. rewrite entry_of_fresh in He. discriminate. }
  assert (Hc : clock (fresh clk) = clk) by reflexivity.
  revert H0 Hc. generalize (wf_fresh clk). generalize (fresh clk).
  induction Hall as [|cmd cmds Hcmd _ IH]; intros w Hwf Hreg Hclock.
  - exists w. simpl. auto.
  - destruct (registered_at_start_apply w cmd Hwf Hreg Hcmd)
      as (w1 & Hrun1 & Hwf1 & Hclock1 & Hreg1).
    destruct (IH w1 Hwf1 Hreg1) as (w' & Hrun & Hrest); [congruence|].
    exists w'. simpl. unfold mbind, M_bind. rewrite Hrun1. auto.
Qed.

Lemma wheel_ticks_more n w w1 :
  wheel_ticks n w = Done tt w1 →
  wheel_ticks (S n) w = (TimeWheel_run_tick;; mret tt) w1.
Proof.
  unfold wheel_ticks. revert w. induction n as [|n IH]; intros w Hrun.
  - simpl in Hrun. injection Hrun as <-. reflexivity.
  - change (replicate (S (S n)) tt) with (tt :: replicate (S n) tt).
    change (replicate (S n) tt) with (tt :: replicate n tt) in Hrun.
    cbn [forM_] in Hrun |- *. unfold mbind at 1, M_bind at 1 in Hrun.
    unfold mbind at 1, M_bind at 1.
    destruct (TimeWheel_run_tick w) as [[] w2|w2]; [|discriminate].
    apply IH, Hrun.
Qed.

(** Ticks that reach empty slots only advance the index and the clock. *)
Lemma quiet_ticks n w :
  wf w →
  index (timeWheel w) + Z.of_nat n < 60 →
  (∀ j k, index (timeWheel w) < j <= index (timeWheel w) + Z.of_nat n →
          wheel_entry w j k = None) →
  ∃ w',
    wheel_ticks n w = Done tt w'
    ∧ wf w' ∧ clock w' = clock w ∧ reads w' = (reads w + n)%nat
    ∧ index (timeWheel w') = index (timeWheel w) + Z.of_nat n
    ∧ (∀ k, entry_of w' k = entry_of w k)
    ∧ (∀ j k, 0 <= j → wheel_entry w' j k = wheel_entry w j k).
Proof.
  induction n as [|n IH]; intros Hwf Hn Hempty.
  - exists w. split; [reflexivity|]. split; [exact Hwf|]. split; [reflexivity|].
    split; [lia|]. split; [lia|]. auto.
  - destruct IH as (w1 & Hrun1 & Hwf1 & Hclock1 & Hreads1 & Hidx1 & Hentry1 & Hwheel1);
      [exact Hwf|lia|intros j k Hj; apply Hempty; lia|].
    pose proof (wf_index _ Hwf) as Hidx.
    destruct (TimeWheel_run_tick_effect w1 Hwf1)
      as (w' & Hrun & Hwf' & Hidx' & Hclock' & Hreads' & _ & Hkeep & Hslots & _).
    assert (Hi : (index (timeWheel w1) + 1) mod 60 = index (timeWheel w) + Z.of_nat (S n)).
    { rewrite Hidx1, Z.mod_small by lia. lia. }
    rewrite Hi in *.
    assert (Hnone : ∀ k, wheel_entry w1 (index (timeWheel w) + Z.of_nat (S n)) k = None).
    { intros k. rewrite Hwheel1 by lia. apply Hempty. lia. }
    exists w'. split.
    { rewrite (wheel_ticks_more n w w1 Hrun1). unfold mbind, M_bind.
      rewrite Hrun. reflexivity. }
    split; [exact Hwf'|]. split; [congruence|]. split; [lia|].
    split; [exact Hidx'|]. split.
    + intros k. rewrite <- Hentry1. apply Hkeep.
      intros ts Hts. rewrite Hnone in Hts. discriminate.
    + intros j k Hj. rewrite <- Hwheel1 by exact Hj.
      destruct (decide (j = index (timeWheel w) + Z.of_nat (S n))) as [->|Hne].
      * apply Hkeep. intros ts Hts. rewrite Hnone in Hts. discriminate.
      * apply Hslots; assumption.
Qed.

(** X17.  What recovery restores does not outlive the first rotation of
    the wheel.  Recovery registers every restored key in slot 0 with a TTL
    of zero, stamped with the second of the restart.  The first 59 ticks
    find empty slots and change no entry; the 60th comes back to slot 0
    and, once the clock has moved on by a second, deletes every restored
    entry, those without expiry included: the cache is then empty. *)
Theorem recovered_entries_wiped clk cmds :
  Forall written cmds →
  (∀ n m, (n + 60 <= m)%nat → Unix (clk n) < Unix (clk m)) →
  ∃ w0 w59 w60,
    NewGoCacheUsecase clk (Some (map Encoded cmds)) = Done tt w0
    ∧ wheel_ticks 59 w0 = Done tt w59
    ∧ (∀ k, entry_of w59 k = entry_of w0 k)
    ∧ wheel_ticks 60 w0 = Done tt w60
    ∧ (∀ k, entry_of w60 k = None).
Proof.
  intros Hall Hclk.
  destruct (registered_at_start_recovery clk cmds Hall)
    as (w0 & Hrun0 & Hwf0 & Hclock0 & Hidx0 & Hrest0 & Hreg0).
  destruct (quiet_ticks 59 w0 Hwf0)
    as (w59 & Hrun59 & Hwf59 & Hclock59 & Hreads59 & Hidx59 & Hentry59 & Hwheel59).
  { rewrite Hidx0. lia. }
  { intros j k Hj. apply Hrest0. rewrite Hidx0 in Hj. lia. }
  destruct (TimeWheel_run_tick_effect w59 Hwf59)
    as (w60 & Hrun60 & _ & _ & _ & _ & Hfire & Hkeep & _ & _).
  assert (Hi : (index (timeWheel w59) + 1) mod 60 = 0)
    by (rewrite Hidx59, Hidx0; reflexivity).
  rewrite Hi in *.
  exists w0, w59, w60. split; [exact Hrun0|]. split; [exact Hrun59|].
  split; [exact Hentry59|]. split.
  { rewrite (wheel_ticks_more 59 w0 w59 Hrun59). unfold mbind, M_bind.
    rewrite Hrun60. reflexivity. }
  intros k.
  destruct (entry_of w0 k) as [e|] eqn:He.
  - destruct (Hreg0 k e He) as (n & Hn & Hts).
    rewrite <- Hwheel59 in Hts by lia.
    apply (Hfire k _ Hts).
    rewrite Hclock59, Hclock0, Hreads59. apply Hclk. lia.
  - destruct (wheel_entry w59 0 k) as [ts|] eqn:Hts.
    + destruct (decide (ts < Unix (clock w59 (reads w59)))) as [Hlt|Hge].
      * apply (Hfire k ts Hts Hlt).
      * destruct (Hkeep k) as [Hsame _].
        { intros ts' Hts'. assert (ts' = ts) by congruence. lia. }
        rewrite Hsame, Hentry59. exact He.
    + destruct (Hkeep k) as [Hsame _].
      { intros ts' Hts'. congruence. }
      rewrite Hsame, Hentry59. exact He.
Qed.

Lemma recovered_entries_wiped_witness :
  ∃ w0 w59 w60,
    NewGoCacheUsecase ticking (Some (map Encoded [SET_record "a" "1" 0])) = Done tt w0
    ∧ wheel_ticks 59 w0 = Done tt w59
    ∧ (∀ k, entry_of w59 k = entry_of w0 k)
    ∧ wheel_ticks 60 w0 = Done tt w60
    ∧ (∀ k, entry_of w60 k = None).
Proof.
  apply (recovered_entries_wiped ticking [SET_record "a" "1" 0]).
  - constructor; [left; do 3 eexists; reflexivity|constructor].
  - intros n m Hnm. unfold ticking, Unix.
    rewrite !Z.div_mul by (unfold Second; lia). lia.
Defined.
